(** * jeopardy.js: the board model, the renderer and the reveal controller

    A shallow embedding of [src/jeopardy/jeopardy.js].

    - The clue objects are the only objects the program mutates
      ([clue.showing = ...]); they live in a store ([heap]) and the
      categories hold references to them, so that sharing between clues
      would be visible.  Category objects and arrays are never mutated
      after they are built and are plain values.
    - The [#jeopardy] element is a tree of elements; an element is
      referred to by its path from [#jeopardy].
    - Synchronous code runs in a state-and-exception monad [js].
    - An asynchronous function is cut at its [await]s: what the requests
      answer, and the order in which they complete, are given ([world]);
      [Promise.all] is a table of slots, one per promise.
    - [Array.prototype.sort] is the engine's: any procedure that calls the
      comparator some number of times and ends with an array.  What V8
      does with an array of fewer than 64 elements is [v8_sort].
    - A click goes to the handlers as jQuery hands it on: to those bound
      to the elements on its way up, then to the one delegated to the
      document ([click]).
    - The page around the board is what the script and the ready
      handlers make of a markup that is left open ([boot]).
    - Calls of [setupAndStart] that overlap, and the clicks between
      their responses, are taken one event at a time ([fire]). *)

From Stdlib Require Import ZArith QArith Lia.
From stdpp Require Import base list strings.

Close Scope Q_scope.
Open Scope string_scope.
Open Scope list_scope.
Set Warnings "-register-all".

(** ** Constants *)

Definition NUM_CATEGORIES : nat := 6.
Definition NUM_QUESTIONS_PER_CAT : nat := 5.

(** ** The board model *)

(** The values [clue.showing] takes: [null], ["question"], ["answer"]. *)
Inductive showing_t := Null | ShowingQuestion | ShowingAnswer.

Record clue := Clue { question : string; answer : string; showing : showing_t }.

(** A reference to a clue object: its index in the store. *)
Abbreviation loc := nat.

(** [{ title, clues }]; [clues] is the array of (references to) clue objects. *)
Record category := Category { title : string; clues : list loc }.

(** ** The page *)

(** An element: tag name, class list, text content and child elements. *)
Inductive node := Node { tag : string; classes : list string; text : string; children : list node }.

(** An element of the [#jeopardy] subtree, by the positions to follow from
    [#jeopardy] down to it; [[]] is [#jeopardy] itself. *)
Abbreviation path := (list nat).

Inductive error :=
  | AxiosError                       (* the promise of axios.get rejected *)
  | FetchCategoriesError             (* Error("Failed to fetch categories") *)
  | FetchCategoryError (catId : Z)   (* Error(`Failed to fetch category with id ${catId}`) *)
  | TypeError                        (* a property of undefined was read *)
  | DanglingReference.               (* a reference outside the store: never happens, see [board_wf] *)

Record state := State {
  categories : list category;        (* let categories = [] *)
  heap : list clue;                  (* the clue objects *)
  jeopardy : node;                   (* the element #jeopardy *)
  jeopardy_shown : bool;             (* #jeopardy is displayed *)
  loading_shown : bool;              (* #loading is displayed *)
  clue_handlers : list path;         (* elements with a click handler of their own *)
  console : list error;              (* console.error("Error setting up game:", error) *)
  alerts : list string               (* alert(...) *)
}.

Definition with_categories (v : list category) (st : state) : state :=
  State v (heap st) (jeopardy st) (jeopardy_shown st) (loading_shown st)
        (clue_handlers st) (console st) (alerts st).
Definition with_heap (v : list clue) (st : state) : state :=
  State (categories st) v (jeopardy st) (jeopardy_shown st) (loading_shown st)
        (clue_handlers st) (console st) (alerts st).
Definition with_jeopardy (v : node) (st : state) : state :=
  State (categories st) (heap st) v (jeopardy_shown st) (loading_shown st)
        (clue_handlers st) (console st) (alerts st).
Definition with_shown (board loading : bool) (st : state) : state :=
  State (categories st) (heap st) (jeopardy st) board loading
        (clue_handlers st) (console st) (alerts st).
Definition with_clue_handlers (v : list path) (st : state) : state :=
  State (categories st) (heap st) (jeopardy st) (jeopardy_shown st) (loading_shown st)
        v (console st) (alerts st).
Definition with_console (v : list error) (st : state) : state :=
  State (categories st) (heap st) (jeopardy st) (jeopardy_shown st) (loading_shown st)
        (clue_handlers st) v (alerts st).
Definition with_alerts (v : list string) (st : state) : state :=
  State (categories st) (heap st) (jeopardy st) (jeopardy_shown st) (loading_shown st)
        (clue_handlers st) (console st) v.

(** ** Synchronous code: state and exceptions *)

Inductive result (A : Type) := Ok (a : A) (s : state) | Throw (e : error) (s : state).
Arguments Ok {A} a s.
Arguments Throw {A} e s.

Definition js (A : Type) : Type := state -> result A.

#[global] Instance js_ret : MRet js := fun A a st => Ok a st.
#[global] Instance js_bind : MBind js := fun A B f m st =>
  match m st with
  | Ok a st' => f a st'
  | Throw e st' => Throw e st'
  end.

Definition throw {A} (e : error) : js A := fun st => Throw e st.
Definition gets {A} (f : state -> A) : js A := fun st => Ok (f st) st.
Definition modify (f : state -> state) : js unit := fun st => Ok tt (f st).

(** The state a run ends in, normally or not. *)
Definition final {A} (r : result A) : state :=
  match r with Ok _ s => s | Throw _ s => s end.

(** [arr[i]]: [undefined] (here [None]) outside the array. *)
Definition js_get {A} (arr : list A) (i : Z) : option A :=
  if (i <? 0)%Z then None else arr !! Z.to_nat i.

(** Reading a property of [v]: a TypeError when [v] is [undefined]. *)
Definition prop {A} (v : option A) : js A :=
  match v with Some a => mret a | None => throw TypeError end.

(** ** Elements and the jQuery operations the program uses *)

Definition elem (t : string) : node := Node t [] "" [].

Definition set_text (s : string) (n : node) : node := Node (tag n) (classes n) s [].
Definition empty (n : node) : node := Node (tag n) (classes n) "" [].
Definition append (child : node) (n : node) : node :=
  Node (tag n) (classes n) (text n) (children n ++ [child]).
Definition addClass (c : string) (n : node) : node :=
  if bool_decide (c ∈ classes n) then n
  else Node (tag n) (classes n ++ [c]) (text n) (children n).
Definition removeClass (c : string) (n : node) : node :=
  Node (tag n) (filter (fun c' => c' ≠ c) (classes n)) (text n) (children n).

Fixpoint get_node (n : node) (p : path) : option node :=
  match p with
  | [] => Some n
  | i :: p' => match children n !! i with
               | Some k => get_node k p'
               | None => None
               end
  end.

Fixpoint alter_node (f : node -> node) (p : path) (n : node) : node :=
  match p with
  | [] => f n
  | i :: p' => Node (tag n) (classes n) (text n) (alter (alter_node f p') i (children n))
  end.

(** A jQuery object: the elements it holds, in order. *)
Abbreviation jq := (list path).

(** [.index()]: the position of the first element among its siblings, [-1]
    for the empty set.  The siblings of [#jeopardy] itself are not part of
    the model; the handler is only reached from cells below it. *)
Definition index (q : jq) : Z :=
  match q with
  | [] => (-1)%Z
  | p :: _ => match last p with
              | Some i => Z.of_nat i
              | None => (-1)%Z
              end
  end.

Definition has_tag (t : string) (root : node) (p : path) : bool :=
  match get_node root p with
  | Some n => String.eqb (tag n) t
  | None => false
  end.

(** The element itself and its ancestors below [#jeopardy], nearest first. *)
Definition ancestors_or_self (p : path) : list path :=
  (fun k => take k p) <$> reverse (seq 1 (length p)).

(** [.closest(t)] for a tag name [t]: for each element the nearest of
    itself and its ancestors with that tag.  The search ends below
    [#jeopardy], a table that stands in no table row. *)
Definition closest (t : string) (root : node) (q : jq) : jq :=
  omap (fun p => head (filter (fun a => has_tag t root a = true) (ancestors_or_self p))) q.

Definition jq_alter (f : node -> node) (q : jq) : js unit :=
  modify (fun st =>
    with_jeopardy (foldl (fun root p => alter_node f p root) (jeopardy st) q) st).

Definition jq_text (s : string) (q : jq) : js unit := jq_alter (set_text s) q.
Definition jq_addClass (c : string) (q : jq) : js unit := jq_alter (addClass c) q.
Definition jq_removeClass (c : string) (q : jq) : js unit := jq_alter (removeClass c) q.

(** ** Clue objects *)

Definition deref (l : loc) : js clue := fun st =>
  match heap st !! l with
  | Some c => Ok c st
  | None => Throw DanglingReference st
  end.

(** [clue.showing = v] on the object at [l]. *)
Definition set_showing (l : loc) (v : showing_t) : js unit :=
  modify (fun st =>
    with_heap (alter (fun c => Clue (question c) (answer c) v) l (heap st)) st).

(** ** handleClick *)

(** A click; [target] is the element clicked.  The page hands the clicks
    on the [td] elements below [#jeopardy] to [handleClick]. *)
Record event := Event { target : path }.

Definition handleClick (evt : event) : js unit :=
  let cell : jq := [target evt] in
  root ← gets jeopardy;
  let row := closest "tr" root cell in
  let colIndex := index cell in
  cats ← gets categories;
  category ← prop (js_get cats colIndex);
  ref ← prop (js_get (clues category) (index row));
  clue ← deref ref;
  match showing clue with
  | Null =>
      jq_text (question clue) cell;;
      set_showing ref ShowingQuestion;;
      jq_addClass "question" cell
  | ShowingQuestion =>
      jq_text (answer clue) cell;;
      set_showing ref ShowingAnswer;;
      jq_removeClass "question" cell;;
      jq_addClass "answer" cell
  | ShowingAnswer => mret tt
  end.

(** ** fillTable *)

Definition fillTable : js unit :=
  cats ← gets categories;
  modify (fun st =>
    let table := empty (jeopardy st) in
    let thead := elem "thead" in
    let headerRow :=
      foldl (fun headerRow cat => append (set_text (title cat) (elem "th")) headerRow)
            (elem "tr") cats in
    let thead := append headerRow thead in
    let table := append thead table in
    let tbody :=
      foldl (fun tbody (i : nat) =>
               let row := foldl (fun row (cat : category) =>
                                   let cell := set_text "?" (elem "td") in
                                   append cell row)
                                (elem "tr") cats in
               append row tbody)
            (elem "tbody") (seq 0 NUM_QUESTIONS_PER_CAT) in
    let table := append tbody table in
    with_jeopardy table st).

(** ** showLoadingView, hideLoadingView *)

Definition showLoadingView : js unit :=
  modify (with_shown false true).

Definition hideLoadingView : js unit :=
  modify (with_shown true false).

(** ** The remote service *)

(** The records of the trivia API.  [clues_count] and [value] stand for the
    fields the program never reads. *)
Module Remote.
Record summary := Summary { id : Z; listed_title : string; clues_count : Z }.
Record clue := Clue { question : string; answer : string; value : Z }.
Record detail := Detail { title : string; clues : list clue }.
End Remote.

(** How the promise of [axios.get] settles: it rejects, or it fulfils with
    a response carrying [status] and [data]. *)
Inductive reply (A : Type) := Rejects | Responds (status : Z) (data : A).
Arguments Rejects {A}.
Arguments Responds {A} status data.

(** The program takes a reply for a failure: a rejection, or a status
    other than 200. *)
Definition fails {A} (r : reply A) : Prop :=
  match r with
  | Rejects => True
  | Responds status _ => status ≠ 200%Z
  end.

Inductive settled (A : Type) := Pending | Fulfilled (a : A) | Rejected (e : error).
Arguments Pending {A}.
Arguments Fulfilled {A} a.
Arguments Rejected {A} e.

(** What one run of [setupAndStart] meets outside the program. *)
Record world := World {
  categories_reply : reply (list Remote.summary);  (* GET /categories?count=100 *)
  random : nat -> Q;                               (* the successive values of Math.random() *)
  category_reply : Z -> reply Remote.detail;       (* GET /category?id=... *)
  arrivals : list nat                              (* the detail requests, by position in
                                                      categoryIds, in the order they complete *)
}.

(** ** Array.prototype.sort with a comparator *)

(** What the engine learns from one call of the comparator. *)
Inductive sign := Negative | Zero | Positive.

(** A computation that calls the comparator and goes on with the sign of
    what it returned, until it ends with a result. *)
Inductive asking (R : Type) := Done (r : R) | Compare (k : sign -> asking R).
Arguments Done {R} r.
Arguments Compare {R} k.

Fixpoint asking_bind {R S} (f : R -> asking S) (t : asking R) : asking S :=
  match t with
  | Done r => f r
  | Compare k => Compare (fun s => asking_bind f (k s))
  end.

(** [() => Math.random() - 0.5], given the value [r] of [Math.random()]. *)
Definition comparator (r : Q) : sign :=
  match (r - (1 # 2) ?= 0)%Q with
  | Lt => Negative
  | Eq => Zero
  | Gt => Positive
  end.

(** Running [t] with the comparator above; [i] counts the calls of
    [Math.random()] made so far. *)
Fixpoint run_sort {R} (t : asking R) (random : nat -> Q) (i : nat) : R :=
  match t with
  | Done r => r
  | Compare k => run_sort (k (comparator (random i))) random (S i)
  end.

(** Every way [t] can end satisfies [P]. *)
Inductive always {R} (P : R -> Prop) : asking R -> Prop :=
  | always_done r : P r -> always P (Done r)
  | always_compare k : (forall s, always P (k s)) -> always P (Compare k).

(** One engine, to run the program on concrete inputs: insertion sort,
    where [x] goes before [y] when the comparator is negative. *)
Fixpoint insert_by {A} (x : A) (sorted : list A) : asking (list A) :=
  match sorted with
  | [] => Done [x]
  | y :: rest =>
      Compare (fun s =>
        match s with
        | Negative => Done (x :: y :: rest)
        | _ => asking_bind (fun r => Done (y :: r)) (insert_by x rest)
        end)
  end.

Fixpoint insertion_sort {A} (arr : list A) : asking (list A) :=
  match arr with
  | [] => Done []
  | x :: rest => asking_bind (insert_by x) (insertion_sort rest)
  end.

(** *** The sort of V8

    In V8 (Chrome, Node.js) [Array.prototype.sort] sorts by runs.  An
    array of fewer than 64 elements is a single run: [CountAndMakeRun]
    takes the longest stretch at the start of the array that goes up, or
    strictly down, and reverses it when it goes down; then
    [BinaryInsertionSort] puts the elements after it in, one at a time,
    each at the place a binary search finds.  A longer array is cut into
    several such runs that are merged afterwards; the merge is not
    modelled, so that [v8_sort] is the sort of the engine for arrays of
    fewer than 64 elements only. *)

(** [order < 0]. *)
Definition negative (order : sign) : bool :=
  match order with Negative => true | _ => false end.

(** The loop of [CountAndMakeRun], with [todo] elements left to look at:
    each is compared with the one before it, and the run ends at the
    first that does not go the way of the run. *)
Fixpoint count_run (isDescending : bool) (todo runLength : nat) : asking nat :=
  match todo with
  | 0 => Done runLength
  | S todo' =>
      Compare (fun order =>
        if bool_decide (negative order = isDescending)
        then count_run isDescending todo' (S runLength)
        else Done runLength)
  end.

(** [CountAndMakeRun(0, length)]: the first comparison, of the second
    element with the first, says which way the run goes. *)
Definition CountAndMakeRun {A} (arr : list A) : asking (nat * list A) :=
  match length arr with
  | 0 | 1 => Done (length arr, arr)
  | S (S todo) =>
      Compare (fun order =>
        let isDescending := negative order in
        asking_bind
          (fun runLength =>
             Done (runLength,
                   if isDescending then reverse (take runLength arr) ++ drop runLength arr
                   else arr))
          (count_run isDescending todo 2))
  end.

(** The binary search of [BinaryInsertionSort] for the place of the pivot
    between [left] and [right]; the interval gets shorter at every step,
    so that [right - left] steps are enough. *)
Fixpoint find_place (steps left right : nat) : asking nat :=
  match steps with
  | 0 => Done left
  | S steps' =>
      if bool_decide (left < right) then
        let mid := left + (right - left) / 2 in
        Compare (fun order =>
          if negative order then find_place steps' left mid
          else find_place steps' (S mid) right)
      else Done left
  end.

(** [BinaryInsertionSort(0, start, start + todo)]: the elements before
    [start] are in place, and [arr[start]] is moved to its place among
    them. *)
Fixpoint BinaryInsertionSort {A} (todo start : nat) (arr : list A) : asking (list A) :=
  match todo with
  | 0 => Done arr
  | S todo' =>
      match arr !! start with
      | None => Done arr
      | Some pivot =>
          asking_bind
            (fun left =>
               BinaryInsertionSort todo' (S start)
                 (take left arr ++ pivot :: drop left (take start arr) ++ drop (S start) arr))
            (find_place start 0 start)
      end
  end.

Definition v8_sort {A} (arr : list A) : asking (list A) :=
  if bool_decide (length arr < 2) then Done arr
  else
    asking_bind
      (fun '(runLength, arr') =>
         BinaryInsertionSort (length arr - runLength) runLength arr')
      (CountAndMakeRun arr).

(** The most calls of the comparator [t] can make. *)
Fixpoint calls {R} (t : asking R) : nat :=
  match t with
  | Done _ => 0
  | Compare k => S ((calls (k Negative) `max` calls (k Zero)) `max` calls (k Positive))
  end.

(** The most calls of the comparator, when it is never zero. *)
Fixpoint calls_nonzero {R} (t : asking R) : nat :=
  match t with
  | Done _ => 0
  | Compare k => S (calls_nonzero (k Negative) `max` calls_nonzero (k Positive))
  end.

(** [t] looks at nothing but whether the comparator is negative. *)
Inductive asks_negative {R} : asking R -> Prop :=
  | asks_negative_done r : asks_negative (Done r)
  | asks_negative_compare k :
      k Zero = k Positive -> (forall order, asks_negative (k order)) ->
      asks_negative (Compare k).

(** The comparator is negative when [Math.random()] is below one half. *)
Definition below_half (r : Q) : bool := negative (comparator r).

(** *** The chance of an outcome

    [Math.random()] is taken uniform over the [2^bits] multiples of
    [2^-bits] in [[0, 1)]: half of them are below [0.5], one is [0.5]
    (see [comparator_of_draw]). *)
Section Chance.
Variable bits : positive.

Definition chance (s : sign) : Q :=
  match s with
  | Negative => 1 # 2
  | Zero => 1 # (2 ^ bits)
  | Positive => (1 # 2) - (1 # (2 ^ bits))
  end.

Fixpoint Pr {R} (t : asking R) (E : R -> bool) : Q :=
  match t with
  | Done r => if E r then 1 else 0
  | Compare k =>
      chance Negative * Pr (k Negative) E
      + chance Zero * Pr (k Zero) E
      + chance Positive * Pr (k Positive) E
  end.
End Chance.

(** ** getCategoryIds, getCategory, setupAndStart *)

(** [new_clue c] is the object literal [{question, answer, showing}]: a
    fresh object. *)
Definition new_clue (c : clue) : js loc := fun st =>
  Ok (length (heap st)) (with_heap (heap st ++ [c]) st).

(** [getCategory(catId)] from the point where its request has settled. *)
Definition getCategory (catId : Z) (response : reply Remote.detail) : js category :=
  match response with
  | Rejects => throw AxiosError
  | Responds status data =>
      if bool_decide (status ≠ 200%Z) then throw (FetchCategoryError catId)
      else
        clues ← mapM (fun clue => new_clue (Clue (Remote.question clue) (Remote.answer clue) Null))
                     (Remote.clues data);
        mret (Category (Remote.title data) clues)
  end.

(** The continuations left once [Promise.all] has rejected: they still run
    when their responses arrive, and what they return is dropped. *)
Fixpoint drain {A} (jobs : list (js A)) (arrivals : list nat) (st : state) : state :=
  match arrivals with
  | [] => st
  | i :: rest =>
      match jobs !! i with
      | Some job => drain jobs rest (final (job st))
      | None => drain jobs rest st
      end
  end.

(** [Promise.all]: [slots] holds the values of the promises fulfilled so
    far, each at the position of its promise. *)
Fixpoint await_all {A} (jobs : list (js A)) (arrivals : list nat) (slots : list (option A))
    (st : state) : settled (list A) * state :=
  match mapM (M := option) (fun v => v) slots with
  | Some values => (Fulfilled values, st)
  | None =>
      match arrivals with
      | [] => (Pending, st)
      | i :: rest =>
          match jobs !! i with
          | None => await_all jobs rest slots st
          | Some job =>
              match job st with
              | Ok value st' => await_all jobs rest (<[i := Some value]> slots) st'
              | Throw e st' => (Rejected e, drain jobs rest st')
              end
          end
      end
  end.

Definition promise_all {A} (jobs : list (js A)) (arrivals : list nat) (st : state)
    : settled (list A) * state :=
  await_all jobs arrivals (replicate (length jobs) None) st.

Definition set_categories (v : list category) : js unit :=
  modify (with_categories v).

Definition console_error (e : error) : js unit :=
  modify (fun st => with_console (console st ++ [e]) st).

Definition alert (msg : string) : js unit :=
  modify (fun st => with_alerts (alerts st ++ [msg]) st).

(** All the elements of the subtree, in document order. *)
Fixpoint all_paths (n : node) : list path :=
  match n with
  | Node _ _ _ ks =>
      [] :: (fix go (i : nat) (ks : list node) : list path :=
               match ks with
               | [] => []
               | k :: ks' => (cons i <$> all_paths k) ++ go (S i) ks'
               end) 0 ks
  end.

Definition has_class (c : string) (root : node) (p : path) : bool :=
  match get_node root p with
  | Some n => bool_decide (c ∈ classes n)
  | None => false
  end.

(** [$("." + c)], within [#jeopardy]. *)
Definition select_class (c : string) (root : node) : jq :=
  filter (fun p => has_class c root p = true) (all_paths root).

(** [q.on("click", handleClick)]. *)
Definition on_click (q : jq) : js unit :=
  modify (fun st => with_clue_handlers (clue_handlers st ++ q) st).

Definition try_catch (body : js unit) (handler : error -> js unit) : js unit := fun st =>
  match body st with
  | Ok v st' => Ok v st'
  | Throw e st' => handler e st'
  end.

Definition failure_notice : string := "Failed to load game data. Please try again later.".

Section Engine.
(** [data.sort(cmp)] in the engine that runs the page. *)
Variable array_sort : list Remote.summary -> asking (list Remote.summary).

Definition getCategoryIds (response : reply (list Remote.summary)) (random : nat -> Q)
    : error + list Z :=
  match response with
  | Rejects => inl AxiosError
  | Responds status data =>
      if bool_decide (status ≠ 200%Z) then inl FetchCategoriesError
      else
        let shuffledCategories := run_sort (array_sort data) random 0 in
        inr (Remote.id <$> take NUM_CATEGORIES shuffledCategories)
  end.

Definition setupAndStart (w : world) (st : state) : settled unit * state :=
  let catch (error : error) : js unit :=
    console_error error;;
    alert failure_notice in
  let st := final (showLoadingView st) in
  match getCategoryIds (categories_reply w) (random w) with
  | inl e => (Fulfilled tt, final (catch e st))
  | inr categoryIds =>
      let jobs := (fun catId => getCategory catId (category_reply w catId)) <$> categoryIds in
      match promise_all jobs (arrivals w) st with
      | (Pending, st) => (Pending, st)
      | (Rejected e, st) => (Fulfilled tt, final (catch e st))
      | (Fulfilled values, st) =>
          (Fulfilled tt,
           final (try_catch
                    (set_categories values;;
                     fillTable;;
                     (root ← gets jeopardy; on_click (select_class "question" root));;
                     hideLoadingView)
                    catch st))
      end
  end.

(** The fetch or the load fails: the category list is not obtained, or
    the request of one of the selected categories fails. *)
Definition fetch_or_load_fails (w : world) : Prop :=
  match getCategoryIds (categories_reply w) (random w) with
  | inl _ => True
  | inr categoryIds =>
      exists i catId, categoryIds !! i = Some catId /\ fails (category_reply w catId)
  end.

(** Every detail request completes, in some order. *)
Definition all_complete (w : world) : Prop :=
  match getCategoryIds (categories_reply w) (random w) with
  | inl _ => True
  | inr categoryIds => arrivals w ≡ₚ seq 0 (length categoryIds)
  end.

(** A failure occurs during the fetch or the load: the request of the
    category list fails, or the request of one of the selected
    categories fails and its response arrives, whatever becomes of the
    other requests. *)
Definition failure_occurs (w : world) : Prop :=
  match getCategoryIds (categories_reply w) (random w) with
  | inl _ => True
  | inr categoryIds =>
      exists i catId,
        i ∈ arrivals w /\ categoryIds !! i = Some catId /\ fails (category_reply w catId)
  end.
End Engine.

(** ** What the properties below speak about *)

(** The transition table of the reveal controller, as the specification
    words it: hidden to question, question to answer, answer stays. *)
Definition advance (s : showing_t) : showing_t :=
  match s with
  | Null => ShowingQuestion
  | ShowingQuestion => ShowingAnswer
  | ShowingAnswer => ShowingAnswer
  end.

(** The clue objects the board refers to, category after category. *)
Definition clue_refs (st : state) : list loc := mjoin (clues <$> categories st).

(** No clue object is shared between two places of the board, and every
    reference is to an object of the store. *)
Definition board_wf (st : state) : Prop :=
  NoDup (clue_refs st) /\ Forall (fun l => l < length (heap st)) (clue_refs st).

(** [categories[c].clues[r]], the object itself. *)
Definition clue_at (st : state) (c r : nat) : option clue :=
  match categories st !! c with
  | Some category =>
      match clues category !! r with
      | Some ref => heap st !! ref
      | None => None
      end
  | None => None
  end.

(** A category with its clue objects in place of the references. *)
Definition category_view (h : list clue) (cat : category) : string * list (option clue) :=
  (title cat, (fun l => h !! l) <$> clues cat).

Definition board_view (st : state) : list (string * list (option clue)) :=
  category_view (heap st) <$> categories st.

(** What [getCategory] makes of a response's data. *)
Definition loaded (data : Remote.detail) : string * list (option clue) :=
  (Remote.title data,
   (fun clue => Some (Clue (Remote.question clue) (Remote.answer clue) Null))
     <$> Remote.clues data).

(** The elements of a subtree, in document order. *)
Fixpoint subtree (n : node) : list node :=
  match n with
  | Node _ _ _ ks =>
      n :: (fix go (ks : list node) : list node :=
              match ks with
              | [] => []
              | k :: ks' => subtree k ++ go ks'
              end) ks
  end.

(** The elements below [n]. *)
Definition descendants (n : node) : list node := tail (subtree n).

(** The cells of the grid: [$("#jeopardy th")] and [$("#jeopardy td")]. *)
Definition header_cells (root : node) : list node :=
  filter (fun n => tag n = "th") (descendants root).
Definition body_cells (root : node) : list node :=
  filter (fun n => tag n = "td") (descendants root).

(** The grid of a board: a header row with one titled cell per category,
    and [NUM_QUESTIONS_PER_CAT] rows of one placeholder per category. *)
Definition grid_head (cats : list category) : node :=
  Node "thead" [] "" [Node "tr" [] "" ((fun cat => Node "th" [] (title cat) []) <$> cats)].
Definition grid_body (cats : list category) : node :=
  Node "tbody" [] ""
       (replicate NUM_QUESTIONS_PER_CAT
                  (Node "tr" [] "" ((fun _ => Node "td" [] "?" []) <$> cats))).

(** A board as the specification wants it: [NUM_CATEGORIES] categories of
    [NUM_QUESTIONS_PER_CAT] clues each. *)
Definition valid_board (st : state) : Prop :=
  length (categories st) = NUM_CATEGORIES /\
  Forall (fun cat => length (clues cat) = NUM_QUESTIONS_PER_CAT) (categories st).

(** The failure handling the specification describes, between the state
    [st] before [setupAndStart] and the state [st'] after it: a notice is
    shown, the loading indicator is dismissed, the board is empty. *)
Definition failure_handled_as_specified (st st' : state) : Prop :=
  alerts st' = alerts st ++ [failure_notice] /\
  loading_shown st' = false /\
  header_cells (jeopardy st') = [] /\ body_cells (jeopardy st') = [].

(** *** The selection of [getCategoryIds] *)

(** The category [catId] is among those selected when the sort ends with
    [sorted]. *)
Definition selected (catId : Z) (sorted : list Remote.summary) : bool :=
  bool_decide (catId ∈ Remote.id <$> take NUM_CATEGORIES sorted).

(** The least an unbiased selection from [pool] asks for: every category
    of the pool is as likely to be selected as any other.  [t] is the
    sort of the pool, [bits] the precision of [Math.random()]. *)
Definition unbiased (bits : positive) (t : asking (list Remote.summary))
    (pool : list Remote.summary) : Prop :=
  forall x y, x ∈ Remote.id <$> pool -> y ∈ Remote.id <$> pool ->
    (Pr bits t (selected x) == Pr bits t (selected y))%Q.

(** The same for the first [k] entries. *)
Definition selected_among (k : nat) (catId : Z) (sorted : list Remote.summary) : bool :=
  bool_decide (catId ∈ Remote.id <$> take k sorted).

(** [1 / 2^k]. *)
Fixpoint halves (k : nat) : Q :=
  match k with
  | 0 => 1%Q
  | S k' => ((1 # 2) * halves k')%Q
  end.

(** A rational with a power of two for denominator. *)
Definition dyadic (q : Q) : Prop :=
  exists (m : Z) (k : positive), (q == m # (2 ^ k))%Q.

(** The sum of [f] over [l]. *)
Definition total {A} (f : A -> Q) (l : list A) : Q :=
  foldr (fun x acc => (f x + acc)%Q) 0%Q l.

(** *** How often a category is selected

    The sequences of [d] values of [Math.random()], each of them [1/4]
    or [3/4]: one value below one half and one not below it, which is
    all a sort that looks at the sign of the comparator only can tell
    ([run_sort_below_half]).  [Math.random()] is below one half with
    chance one half, so that these sequences are equally likely. *)
Fixpoint draws (d : nat) : list (list Q) :=
  match d with
  | 0 => [[]]
  | S d' => (cons (1 # 4)%Q <$> draws d') ++ (cons (3 # 4)%Q <$> draws d')
  end.

(** How many of them satisfy [E] ([times_draws]). *)
Fixpoint times (d : nat) (E : list Q -> bool) : Z :=
  match d with
  | 0 => if E [] then 1%Z else 0%Z
  | S d' => (times d' (fun v => E ((1 # 4)%Q :: v)) + times d' (fun v => E ((3 # 4)%Q :: v)))%Z
  end.

(** [Math.random()] returning the values of [v], one after the other. *)
Definition random_of (v : list Q) : nat -> Q := fun i => default (1 # 4)%Q (v !! i).

(** [getCategoryIds] returns [catId] among its identifiers when
    [Math.random()] returns the values of [v]. *)
Definition selects (array_sort : list Remote.summary -> asking (list Remote.summary))
    (pool : list Remote.summary) (catId : Z) (v : list Q) : bool :=
  match getCategoryIds array_sort (Responds 200%Z pool) (random_of v) with
  | inr ids => bool_decide (catId ∈ ids)
  | inl _ => false
  end.

(** In how many of the [2^d] sequences of [d] values [getCategoryIds]
    selects [catId]. *)
Definition times_selected (array_sort : list Remote.summary -> asking (list Remote.summary))
    (pool : list Remote.summary) (d : nat) (catId : Z) : Z :=
  times d (selects array_sort pool catId).

(** The same number read off the sort: an outcome reached after [c] calls
    of the comparator is reached by [2^(d - c)] of the sequences. *)
Fixpoint weight {R} (d : nat) (t : asking R) (E : R -> bool) {struct t} : Z :=
  match t with
  | Done r => if E r then (2 ^ Z.of_nat d)%Z else 0%Z
  | Compare k =>
      match d with
      | 0 => 0%Z
      | S d' => (weight d' (k Negative) E + weight d' (k Positive) E)%Z
      end
  end.

(** ** Invariants of the load *)

(** [st'] is [st] with more clue objects in the store, and nothing else
    changed. *)
Definition grows (st st' : state) : Prop :=
  exists extra, st' = with_heap (heap st ++ extra) st.

(** A job that does nothing but create clue objects. *)
Definition allocating {A} (job : js A) : Prop := forall st, grows st (final (job st)).

(** The clue objects a slot of [Promise.all] refers to. *)
Definition slot_refs (slot : option category) : list loc := from_option clues [] slot.

(** The categories in the slots of [Promise.all] share no clue object, and
    refer to objects of the store [h] only. *)
Definition slots_fresh (slots : list (option category)) (h : list clue) : Prop :=
  NoDup (mjoin (slot_refs <$> slots)) /\
  Forall (fun l => l < length h) (mjoin (slot_refs <$> slots)).

(** The slots of [Promise.all] while the categories [ids] load: one slot
    per identifier, and the category in slot [i] is what the response for
    [ids[i]] holds. *)
Definition slots_ok (reply : Z -> reply Remote.detail) (ids : list Z)
    (slots : list (option category)) (h : list clue) : Prop :=
  length slots = length ids /\
  slots_fresh slots h /\
  forall i cat, slots !! i = Some (Some cat) ->
    exists catId data,
      ids !! i = Some catId /\ reply catId = Responds 200%Z data /\
      category_view h cat = loaded data.

(** ** Sample data *)

Definition sample_pool : list Remote.summary :=
  (fun i => Remote.Summary i "" 5%Z) <$> [5; 9; 2; 7; 1; 3; 8; 4]%Z.

Definition sample_title (catId : Z) : string :=
  match catId with
  | 5 => "Math"
  | 9 => "Literature"
  | 2 => "History"
  | 7 => "Science"
  | 1 => "Music"
  | 3 => "Sports"
  | _ => "Other"
  end%Z.

Definition sample_detail (catId : Z) : Remote.detail :=
  Remote.Detail (sample_title catId)
    ((fun k => Remote.Clue (sample_title catId +:+ " Q" +:+ k)
                           (sample_title catId +:+ " A" +:+ k) 100%Z)
       <$> ["1"; "2"; "3"; "4"; "5"]).

(** A pool as the service returns it for [count=100]: one hundred
    categories, with the identifiers 1 to 100. *)
Definition full_pool : list Remote.summary :=
  (fun i => Remote.Summary (Z.of_nat i) "" 5%Z) <$> seq 1 100.

(** A pool of seven categories, with the identifiers 1 to 7. *)
Definition pool7 : list Remote.summary :=
  (fun i => Remote.Summary i "" 5%Z) <$> [1; 2; 3; 4; 5; 6; 7]%Z.

(** Every request succeeds; the detail requests complete out of order. *)
Definition sample_world : world :=
  World (Responds 200%Z sample_pool) (fun _ => (1 # 4)%Q)
        (fun catId => Responds 200%Z (sample_detail catId)) [4; 0; 5; 2; 1; 3].

(** The request for category 7 is answered with status 404. *)
Definition one_category_fails : world :=
  World (Responds 200%Z sample_pool) (fun _ => (1 # 4)%Q)
        (fun catId => if bool_decide (catId = 7%Z) then Responds 404%Z (sample_detail catId)
                      else Responds 200%Z (sample_detail catId))
        [4; 0; 5; 2; 1; 3].

(** The same, and no other response ever arrives. *)
Definition one_category_fails_alone : world :=
  World (Responds 200%Z sample_pool) (fun _ => (1 # 4)%Q)
        (fun catId => if bool_decide (catId = 7%Z) then Responds 404%Z (sample_detail catId)
                      else Responds 200%Z (sample_detail catId))
        [3].

(** The category list is answered with status 500. *)
Definition list_fails : world :=
  World (Responds 500%Z []) (fun _ => (1 # 4)%Q)
        (fun catId => Responds 200%Z (sample_detail catId)) [].

(** The page before the first game, as the ready handlers leave a page
    that has the elements [#jeopardy] and [#loading]: no categories, two
    empty placeholder tables inside [#jeopardy], hidden, and the loading
    indicator displayed. *)
Definition page_ready : state :=
  let placeholder := Node "table" [] "" [elem "thead"; elem "tbody"] in
  State [] [] (Node "table" [] "" [placeholder; placeholder]) false true [] [] [].

(** The board of a first game, and the same after the cell of row 0,
    column 2 was clicked once and twice. *)
Definition sample_board : state := (setupAndStart insertion_sort sample_world page_ready).2.
Definition sample_board_1 : state := final (handleClick (Event [1; 0; 2]) sample_board).
Definition sample_board_2 : state := final (handleClick (Event [1; 0; 2]) sample_board_1).

(** ** The states of the page *)

(** The states the page goes through: starts (each run taken on its own)
    and clicks, from the page as loaded. *)
Inductive reachable (array_sort : list Remote.summary -> asking (list Remote.summary))
    : state -> Prop :=
  | reachable_ready : reachable array_sort page_ready
  | reachable_start w st :
      reachable array_sort st -> reachable array_sort (setupAndStart array_sort w st).2
  | reachable_click evt st :
      reachable array_sort st -> reachable array_sort (final (handleClick evt st)).

(** [#jeopardy] holds a grid for the board: its second child has a row
    for each clue index and in it a cell for each category. *)
Definition grid_ok (st : state) : Prop :=
  forall r c, r < NUM_QUESTIONS_PER_CAT -> c < length (categories st) ->
    has_tag "tr" (jeopardy st) [1; r] = true /\
    has_tag "td" (jeopardy st) [1; r; c] = true.

(** ** The errors of a failed request *)

(** The error [getCategory(catId)] throws for a failed request: the
    rejection of [axios.get], or the [Error] of line 58, which names the
    category. *)
Definition getCategory_error (catId : Z) (response : reply Remote.detail) : error :=
  match response with
  | Rejects => AxiosError
  | Responds _ _ => FetchCategoryError catId
  end.

(** The error [getCategoryIds] throws for a failed request. *)
Definition getCategoryIds_error (response : reply (list Remote.summary)) : error :=
  match response with
  | Rejects => AxiosError
  | Responds _ _ => FetchCategoriesError
  end.

(** ** The clicks that reach [handleClick] (lines 175 and 190)

    The program binds [handleClick] twice: to the elements of class
    [question] at the end of a successful start (line 175), and to the
    document for the cells [#jeopardy td] (line 190).  A click on an
    element of [#jeopardy] bubbles from the element up to [#jeopardy]
    and on to the document.  As with [select_class], the page outside
    [#jeopardy] is taken to have no element of class [question]: line
    175 binds nothing there, and the elements above [#jeopardy] have no
    handler of their own. *)

(** The handlers of one element, called for a click: [handleClick] once
    per binding.  An exception ends the calls. *)
Fixpoint call_handlers (bindings : nat) (evt : event) : js unit :=
  match bindings with
  | 0 => mret tt
  | S rest => handleClick evt;; call_handlers rest evt
  end.

(** Nothing in the program catches what a handler throws: the browser
    reports it, and the click goes on to the next element. *)
Definition reported {A} (m : js A) : js unit := fun st => Ok tt (final (m st)).

(** The elements a click on [p] passes while it bubbles up to
    [#jeopardy]: [p], its ancestors, [#jeopardy]. *)
Definition bubbling (p : path) : list path := ancestors_or_self p ++ [[]].

(** The handlers bound to elements, which is what
    [$(".question").on("click", handleClick)] of line 175 does: each
    element on the way calls [handleClick] once for every time it was
    bound to it. *)
Fixpoint bubble (els : list path) (evt : event) : js unit :=
  match els with
  | [] => mret tt
  | el :: rest =>
      bindings ← gets (fun st => length (filter (fun h => h = el) (clue_handlers st)));
      reported (call_handlers bindings evt);;
      bubble rest evt
  end.

(** [$(document).on("click", "#jeopardy td", handleClick)] of line 190:
    once the click has reached the document, [handleClick] is called once
    for every [td] among [p] and its ancestors below [#jeopardy], nearest
    first. *)
Definition delegated (root : node) (p : path) : list path :=
  filter (fun a => has_tag "td" root a = true) (ancestors_or_self p).

(** A click on the element [p] of [#jeopardy]; [evt.target] is [p] in
    every call. *)
Definition click (p : path) : js unit :=
  let evt := Event p in
  bubble (bubbling p) evt;;
  root ← gets jeopardy;
  reported (call_handlers (length (delegated root p)) evt).

(** ** The page around the board (lines 186 to 221) *)

(** The two handlers the program binds to a start button. *)
Inductive start_handler :=
  | Start               (* setupAndStart: lines 186, 198 and 213 *)
  | RestartThenStart.   (* function() { $(this).text("Restart"); setupAndStart(); }: line 217 *)

Record button := Button { label : string; handlers : list start_handler }.

(** What the program sees of the document: [#jeopardy], and the elements
    with the ids [loading] (each displayed or not) and [start-button], in
    document order. *)
Record document := Document {
  doc_jeopardy : node;
  doc_jeopardy_shown : bool;
  doc_loading : list bool;
  doc_buttons : list button
}.

(** The document as the markup gives it: the start buttons by their
    labels, those there when the script runs and those the parser adds
    after it, before the page is ready.  The markup is not part of the
    program: the properties hold for every markup with an element
    [#jeopardy]. *)
Record html := Html {
  html_jeopardy : node;
  html_jeopardy_shown : bool;
  html_loading : list bool;
  html_buttons : list string;
  html_buttons_late : list string
}.

(** [$("#start-button").on("click", h)]: a selector that is one id gives
    the first element with that id, and nothing when there is none. *)
Definition on_start (h : start_handler) (d : document) : document :=
  Document (doc_jeopardy d) (doc_jeopardy_shown d) (doc_loading d)
           (alter (fun b => Button (label b) (handlers b ++ [h])) 0 (doc_buttons d)).

(** What [$("#jeopardy").append(...)] adds at lines 203 and 208: a table
    with an empty head and an empty body. *)
Definition placeholder : node := Node "table" [] "" [elem "thead"; elem "tbody"].

(** Line 186, when the script runs. *)
Definition script (d : document) : document := on_start Start d.

(** The five ready handlers, lines 192 to 221. *)
Definition ready_1 (d : document) : document :=
  on_start Start
    (Document (doc_jeopardy d) false (alter (fun _ => true) 0 (doc_loading d))
              (doc_buttons d)).

Definition ready_2 (d : document) : document :=
  Document (append placeholder (empty (doc_jeopardy d)))
           (doc_jeopardy_shown d) (doc_loading d) (doc_buttons d).

Definition ready_3 (d : document) : document :=
  Document (append placeholder (doc_jeopardy d))
           (doc_jeopardy_shown d) (doc_loading d ++ [false]) (doc_buttons d).

Definition ready_4 (d : document) : document :=
  on_start Start
    (Document (doc_jeopardy d) (doc_jeopardy_shown d) (doc_loading d)
              (doc_buttons d ++ [Button "Start" []])).

Definition ready_5 (d : document) : document := on_start RestartThenStart d.

(** From the markup to the page that is ready: the script, the rest of
    the markup, the ready handlers in the order they were registered. *)
Definition boot (h : html) : document :=
  let d := Document (html_jeopardy h) (html_jeopardy_shown h) (html_loading h)
                    ((fun l => Button l []) <$> html_buttons h) in
  let d := script d in
  let d := Document (doc_jeopardy d) (doc_jeopardy_shown d) (doc_loading d)
                    (doc_buttons d ++ ((fun l => Button l []) <$> html_buttons_late h)) in
  ready_5 (ready_4 (ready_3 (ready_2 (ready_1 d)))).

(** ** Calls of [setupAndStart] that overlap

    Nothing keeps a second call of [setupAndStart] from starting while
    the first waits for its responses, and nothing keeps the cells from
    being clicked meanwhile.  Between two [await]s a call runs without
    interruption; what follows [await fillTable()] runs in the turn of
    the response that completed [Promise.all], before any other
    response or click. *)

(** A call of [setupAndStart] between two [await]s. *)
Inductive run :=
  | AwaitIds                        (* line 170: the category list is requested *)
  | AwaitCategories (categoryIds : list Z) (slots : list (option category))
                                    (* line 171: Promise.all with the values so far *)
  | Caught (outstanding : list Z)   (* the catch block has run; requests still out *)
  | Returned.                       (* the try block has run to its end *)

Record system := System {
  page : state;
  buttons : list button;
  runs : list run
}.

(** The catch block, and the try block after line 171. *)
Definition catch_block (error : error) : js unit :=
  console_error error;;
  alert failure_notice.

Definition try_block_end (values : list category) : js unit :=
  set_categories values;;
  fillTable;;
  (root ← gets jeopardy; on_click (select_class "question" root));;
  hideLoadingView.

(** The page with which the game starts: [let categories = []], no clue
    object, nothing logged. *)
Definition initial (d : document) : system :=
  System (State [] [] (doc_jeopardy d) (doc_jeopardy_shown d)
                (default false (head (doc_loading d))) [] [] [])
         (doc_buttons d) [].

(** A call of [setupAndStart], up to its first [await]. *)
Definition call_setupAndStart (sys : system) : system :=
  System (final (showLoadingView (page sys))) (buttons sys) (runs sys ++ [AwaitIds]).

Definition run_start_handler (b : nat) (h : start_handler) (sys : system) : system :=
  match h with
  | Start => call_setupAndStart sys
  | RestartThenStart =>
      call_setupAndStart
        (System (page sys)
                (alter (fun btn => Button "Restart" (handlers btn)) b (buttons sys))
                (runs sys))
  end.

(** A click on the start button [b]: its handlers, in the order they
    were bound. *)
Definition press (b : nat) (sys : system) : option system :=
  btn ← buttons sys !! b;
  Some (foldl (fun sys h => run_start_handler b h sys) sys (handlers btn)).

(** [Promise.all] of run [n] looks at its slots: with a value in each,
    the run goes through the rest of its try block. *)
Definition settle (n : nat) (categoryIds : list Z) (slots : list (option category))
    (sys : system) : system :=
  match mapM (M := option) (fun v => v) slots with
  | Some values =>
      System (final (try_catch (try_block_end values) catch_block (page sys)))
             (buttons sys) (<[n := Returned]> (runs sys))
  | None =>
      System (page sys) (buttons sys) (<[n := AwaitCategories categoryIds slots]> (runs sys))
  end.

(** The requests of a run that are still out when the request at
    position [i] has failed. *)
Definition outstanding_but (i : nat) (categoryIds : list Z) (slots : list (option category))
    : list Z :=
  (filter (fun x => x.2 = None) (delete i (zip categoryIds slots))).*1.

Section Interleaving.
Variable array_sort : list Remote.summary -> asking (list Remote.summary).

(** The response to the category list of run [n] arrives. *)
Definition ids_arrive (n : nat) (response : reply (list Remote.summary)) (random : nat -> Q)
    (sys : system) : option system :=
  match runs sys !! n with
  | Some AwaitIds =>
      Some match getCategoryIds array_sort response random with
           | inl e =>
               System (final (catch_block e (page sys))) (buttons sys)
                      (<[n := Caught []]> (runs sys))
           | inr categoryIds =>
               settle n categoryIds (replicate (length categoryIds) None) sys
           end
  | _ => None
  end.

(** A response to a request for a category of run [n] arrives: the one
    at position [i] of [categoryIds] while [Promise.all] is pending, the
    [i]-th of those still out afterwards. *)
Definition category_arrives (n i : nat) (response : reply Remote.detail) (sys : system)
    : option system :=
  match runs sys !! n with
  | Some (AwaitCategories categoryIds slots) =>
      match slots !! i, categoryIds !! i with
      | Some None, Some catId =>
          Some match getCategory catId response (page sys) with
               | Ok value st =>
                   settle n categoryIds (<[i := Some value]> slots)
                          (System st (buttons sys) (runs sys))
               | Throw e st =>
                   System (final (catch_block e st)) (buttons sys)
                          (<[n := Caught (outstanding_but i categoryIds slots)]> (runs sys))
               end
      | _, _ => None
      end
  | Some (Caught outstanding) =>
      catId ← outstanding !! i;
      Some (System (final (getCategory catId response (page sys))) (buttons sys)
                   (<[n := Caught (delete i outstanding)]> (runs sys)))
  | _ => None
  end.

(** What happens on the page, one thing at a time: a click on a start
    button, a click on an element of [#jeopardy], the arrival of a
    response. *)
Inductive action :=
  | Press (b : nat)
  | Click (p : path)
  | IdsArrive (n : nat) (response : reply (list Remote.summary)) (random : nat -> Q)
  | CategoryArrives (n i : nat) (response : reply Remote.detail).

(** [None]: the action cannot happen in this state. *)
Definition fire (a : action) (sys : system) : option system :=
  match a with
  | Press b => press b sys
  | Click p =>
      match get_node (jeopardy (page sys)) p with
      | Some _ => Some (System (final (click p (page sys))) (buttons sys) (runs sys))
      | None => None
      end
  | IdsArrive n response random => ids_arrive n response random sys
  | CategoryArrives n i response => category_arrives n i response sys
  end.

Fixpoint play (actions : list action) (sys : system) : option system :=
  match actions with
  | [] => Some sys
  | a :: rest => sys' ← fire a sys; play rest sys'
  end.

(** The states of the page of the markup [h]. *)
Definition playing (h : html) (sys : system) : Prop :=
  exists actions, play actions (initial (boot h)) = Some sys.
End Interleaving.

(** The responses to the requests of run [n], in the world [w], one
    after the other and with nothing in between. *)
Definition alone (w : world) (n : nat) (categoryIds : list Z) : list action :=
  IdsArrive n (categories_reply w) (random w)
  :: ((fun i => CategoryArrives n i (from_option (category_reply w) Rejects (categoryIds !! i)))
        <$> arrivals w).

(** *** What the page keeps *)

(** The clue objects a run holds in the slots of its [Promise.all]. *)
Definition run_refs (r : run) : list loc :=
  match r with
  | AwaitCategories _ slots => mjoin (slot_refs <$> slots)
  | _ => []
  end.

(** The clue objects of the board and of the runs under way. *)
Definition system_refs (sys : system) : list loc :=
  clue_refs (page sys) ++ mjoin (run_refs <$> runs sys).

(** None of them is shared, and each is in the store. *)
Definition refs_ok (sys : system) : Prop :=
  NoDup (system_refs sys) /\
  Forall (fun l => l < length (heap (page sys))) (system_refs sys).

(** What the cell of a clue shows: the placeholder, the question with
    the class [question], or the answer with the class [answer]; the
    placeholder where the category has no clue. *)
Definition cell_of (c : option clue) : node :=
  match c with
  | Some (Clue q a ShowingQuestion) => Node "td" ["question"] q []
  | Some (Clue q a ShowingAnswer) => Node "td" ["answer"] a []
  | _ => Node "td" [] "?" []
  end.

(** [cat.clues[r]], the object itself. *)
Definition clue_of (h : list clue) (cat : category) (r : nat) : option clue :=
  clues cat !! r ≫= fun ref => h !! ref.

(** The body of the grid that shows the board as it stands. *)
Definition board_row (h : list clue) (cats : list category) (r : nat) : node :=
  Node "tr" [] "" ((fun cat => cell_of (clue_of h cat r)) <$> cats).

Definition board_body (st : state) : node :=
  Node "tbody" [] "" (board_row (heap st) (categories st) <$> seq 0 NUM_QUESTIONS_PER_CAT).

(** [#jeopardy] shows the board: the titles, and each clue as far as it
    was revealed; or no game was started yet. *)
Definition display_ok (st : state) : Prop :=
  (children (jeopardy st) = [grid_head (categories st); board_body st])
  \/ (categories st = [] /\ children (jeopardy st) = [placeholder; placeholder]).

(** The clues the runs under way have loaded are all hidden. *)
Definition pending_hidden (sys : system) : Prop :=
  forall l, l ∈ mjoin (run_refs <$> runs sys) ->
    exists c, heap (page sys) !! l = Some c /\ showing c = Null.

Definition view_ok (sys : system) : Prop :=
  display_ok (page sys) /\
  clue_handlers (page sys) = [] /\
  ("question" ∉ classes (jeopardy (page sys))) /\
  pending_hidden sys.

(** The runs whose catch block has run, and their number. *)
Definition caught (r : run) : bool :=
  match r with Caught _ => true | _ => false end.

Definition caught_runs (rs : list run) : nat :=
  length (filter (fun r => caught r = true) rs).

(** The notice was shown, and an error logged, once for each of them. *)
Definition notices_ok (sys : system) : Prop :=
  alerts (page sys) = replicate (caught_runs (runs sys)) failure_notice /\
  length (console (page sys)) = caught_runs (runs sys).

(** The runs that have gone through their try block, and their number. *)
Definition returned (r : run) : bool :=
  match r with Returned => true | _ => false end.

Definition returned_runs (rs : list run) : nat :=
  length (filter (fun r => returned r = true) rs).

(** What a step that lets no call return leaves as it is: the board, a
    loading indicator that is displayed, a grid that is hidden. *)
Definition board_stays (st st' : state) : Prop :=
  categories st' = categories st /\
  (loading_shown st = true -> loading_shown st' = true) /\
  (jeopardy_shown st = false -> jeopardy_shown st' = false).

(** *** What the handlers of a click keep *)

(** [m] takes every state to one related to it by [R]. *)
Definition keeps {A} (R : relation state) (m : js A) : Prop :=
  forall st, R st (final (m st)).

(** The board and the size of the store are the same. *)
Definition same_board (st st' : state) : Prop :=
  categories st' = categories st /\ length (heap st') = length (heap st).

(** Nothing is logged or announced, nothing is shown or hidden, and no
    handler is bound. *)
Definition same_notices (st st' : state) : Prop :=
  alerts st' = alerts st /\ console st' = console st /\
  jeopardy_shown st' = jeopardy_shown st /\ loading_shown st' = loading_shown st /\
  clue_handlers st' = clue_handlers st.

(** The clue objects the board does not refer to stay as they are. *)
Definition same_elsewhere (st st' : state) : Prop :=
  categories st' = categories st /\
  forall l, l ∉ clue_refs st -> heap st' !! l = heap st !! l.

(** How far a clue is revealed. *)
Definition revealed (s : showing_t) : nat :=
  match s with
  | Null => 0
  | ShowingQuestion => 1
  | ShowingAnswer => 2
  end.

(** Every clue object of [st] is still there in [st'], with its question
    and its answer, and revealed no less. *)
Definition clues_advance (st st' : state) : Prop :=
  forall l c, heap st !! l = Some c ->
    exists c', heap st' !! l = Some c' /\
               question c' = question c /\ answer c' = answer c /\
               revealed (showing c) <= revealed (showing c').

(** ** More sample data *)

(** One category has two clues only. *)
Definition short_board : state :=
  State [Category "Math" [0; 1; 2; 3; 4]; Category "Music" [5; 6]]
        ((fun k => Clue ("Q" +:+ k) ("A" +:+ k) Null) <$> ["1"; "2"; "3"; "4"; "5"; "6"; "7"])
        (elem "table") true false [] [] [].

(** The response for the category in third place never arrives. *)
Definition one_category_hangs : world :=
  World (Responds 200%Z sample_pool) (fun _ => (1 # 4)%Q)
        (fun catId => Responds 200%Z (sample_detail catId)) [4; 0; 5; 1; 3].

(** Two requests fail; the one in fifth place is answered first. *)
Definition two_categories_fail : world :=
  World (Responds 200%Z sample_pool) (fun _ => (1 # 4)%Q)
        (fun catId => if bool_decide (catId = 7%Z) then Responds 404%Z (sample_detail catId)
                      else if bool_decide (catId = 1%Z) then Rejects
                      else Responds 200%Z (sample_detail catId))
        [2; 0; 4; 3; 1; 5].

(** The service lists no category. *)
Definition empty_pool : world :=
  World (Responds 200%Z []) (fun _ => (1 # 4)%Q)
        (fun catId => Responds 200%Z (sample_detail catId)) [].

(** A pool of three categories. *)
Definition small_pool : list Remote.summary := take 3 sample_pool.

(** A page whose [#jeopardy] has the class [question]. *)
Definition question_page : state :=
  State [] [] (Node "table" ["question"] "" []) false true [] [] [].

(** Markup with the board, a loading indicator and one start button,
    which is there when the script runs. *)
Definition sample_html : html :=
  Html (Node "table" [] "" [elem "tbody"]) true [false] ["Start"] [].

(** One click on the start button; the first of the calls loads its
    board, with the responses out of order, the second finds the
    category list failing, the others are still waiting; then the cell
    of row 0, column 2 is clicked. *)
Definition sample_actions : list action :=
  [Press 0;
   IdsArrive 0 (Responds 200%Z sample_pool) (fun _ => (1 # 4)%Q);
   CategoryArrives 0 4 (Responds 200%Z (sample_detail 1));
   CategoryArrives 0 0 (Responds 200%Z (sample_detail 5));
   IdsArrive 1 (Responds 500%Z []) (fun _ => (1 # 4)%Q);
   CategoryArrives 0 5 (Responds 200%Z (sample_detail 3));
   CategoryArrives 0 2 (Responds 200%Z (sample_detail 2));
   CategoryArrives 0 1 (Responds 200%Z (sample_detail 9));
   CategoryArrives 0 3 (Responds 200%Z (sample_detail 7));
   Click [1; 0; 2]].

Definition sample_game : system :=
  default (initial (boot sample_html))
          (play insertion_sort sample_actions (initial (boot sample_html))).

(** The page after one click on the start button, and after the
    category list of the second call has then failed. *)
Definition sample_start : system :=
  default (initial (boot sample_html)) (press 0 (initial (boot sample_html))).

Definition sample_start_failed : system :=
  default sample_start
          (fire insertion_sort (IdsArrive 1 (Responds 500%Z []) (fun _ => (1 # 4)%Q))
                sample_start).

(** The same after one more click on that cell. *)
Definition sample_game_clicked : system :=
  System (final (click [1; 0; 2] (page sample_game)))
         (buttons sample_game) (runs sample_game).

(** * Properties *)

(** ** handleClick *)

(** The two indices [handleClick] reads off the clicked element. *)
Abbreviation colIndex_of evt := (index [target evt]).
Abbreviation rowIndex_of evt st := (index (closest "tr" (jeopardy st) [target evt])).

(** [handleClick], case by case. *)
Lemma handleClick_cases evt st :
  handleClick evt st =
  match js_get (categories st) (colIndex_of evt) with
  | None => Throw TypeError st
  | Some category =>
      match js_get (clues category) (rowIndex_of evt st) with
      | None => Throw TypeError st
      | Some ref =>
          match heap st !! ref with
          | None => Throw DanglingReference st
          | Some clue =>
              match showing clue with
              | Null =>
                  Ok tt (with_jeopardy
                           (alter_node (addClass "question") (target evt)
                              (alter_node (set_text (question clue)) (target evt) (jeopardy st)))
                           (with_heap
                              (alter (fun c => Clue (question c) (answer c) ShowingQuestion)
                                     ref (heap st))
                              st))
              | ShowingQuestion =>
                  Ok tt (with_jeopardy
                           (alter_node (addClass "answer") (target evt)
                              (alter_node (removeClass "question") (target evt)
                                 (alter_node (set_text (answer clue)) (target evt) (jeopardy st))))
                           (with_heap
                              (alter (fun c => Clue (question c) (answer c) ShowingAnswer)
                                     ref (heap st))
                              st))
              | ShowingAnswer => Ok tt st
              end
          end
      end
  end.
Proof.
  unfold handleClick, mbind, js_bind, gets, prop, deref; simpl.
  destruct (js_get (categories st) _) as [category|]; [|reflexivity]; simpl.
  destruct (js_get (clues category) _) as [ref|]; [|reflexivity]; simpl.
  destruct (heap st !! ref) as [clue|] eqn:Hclue; [|reflexivity].
  destruct (showing clue); reflexivity.
Qed.

(** An exception leaves the state as it was. *)
Lemma handleClick_throw evt st e st' :
  handleClick evt st = Throw e st' -> st' = st.
Proof.
  rewrite handleClick_cases.
  repeat (case_match; try discriminate); congruence.
Qed.

(** The click never touches [categories], nor the size of the store. *)
Lemma handleClick_categories evt st :
  categories (final (handleClick evt st)) = categories st.
Proof.
  rewrite handleClick_cases. repeat case_match; reflexivity.
Qed.

Lemma handleClick_heap_length evt st :
  length (heap (final (handleClick evt st))) = length (heap st).
Proof.
  rewrite handleClick_cases.
  repeat case_match; simpl; rewrite ?length_alter; reflexivity.
Qed.

(** The store after a click: only the object addressed may differ, and
    only in [showing], which moves one step. *)
Lemma handleClick_heap evt st category ref clue :
  js_get (categories st) (colIndex_of evt) = Some category ->
  js_get (clues category) (rowIndex_of evt st) = Some ref ->
  heap st !! ref = Some clue ->
  heap (final (handleClick evt st))
  = <[ref := Clue (question clue) (answer clue) (advance (showing clue))]> (heap st).
Proof.
  intros Hcat Href Hclue. rewrite handleClick_cases, Hcat, Href, Hclue.
  assert (Hsame : forall v, v = showing clue ->
            <[ref := Clue (question clue) (answer clue) v]> (heap st) = heap st).
  { intros v ->. apply list_insert_id. rewrite Hclue. by destruct clue. }
  destruct (showing clue) eqn:Hs; simpl.
  - apply list_eq; intros i. destruct (decide (i = ref)) as [->|Hne].
    + rewrite list_lookup_alter_eq, Hclue, list_lookup_insert_eq
        by (by eapply lookup_lt_Some). done.
    + by rewrite list_lookup_alter_ne, list_lookup_insert_ne.
  - apply list_eq; intros i. destruct (decide (i = ref)) as [->|Hne].
    + rewrite list_lookup_alter_eq, Hclue, list_lookup_insert_eq
        by (by eapply lookup_lt_Some). done.
    + by rewrite list_lookup_alter_ne, list_lookup_insert_ne.
  - symmetry. by apply Hsame.
Qed.

(** C1: under an activation handled by [handleClick], [showing] moves
    along hidden, question, answer only: the clue addressed goes from
    hidden to question, from question to answer, and in state answer the
    whole state, the displayed text included, stays as it is; no clue of
    the store makes any other move. *)
Theorem handleClick_reveal_order evt st category ref clue :
  js_get (categories st) (colIndex_of evt) = Some category ->
  js_get (clues category) (rowIndex_of evt st) = Some ref ->
  heap st !! ref = Some clue ->
  exists st',
    handleClick evt st = Ok tt st' /\
    heap st' !! ref = Some (Clue (question clue) (answer clue) (advance (showing clue))) /\
    (showing clue = ShowingAnswer -> st' = st) /\
    (forall l c, heap st !! l = Some c ->
       exists c', heap st' !! l = Some c' /\
         (showing c' = showing c
          \/ (showing c = Null /\ showing c' = ShowingQuestion)
          \/ (showing c = ShowingQuestion /\ showing c' = ShowingAnswer))).
Proof.
  intros Hcat Href Hclue.
  pose proof (handleClick_heap evt st category ref clue Hcat Href Hclue) as Hheap.
  destruct (handleClick evt st) as [[] st'|e st'] eqn:Hrun.
  2:{ rewrite handleClick_cases, Hcat, Href, Hclue in Hrun.
      destruct (showing clue); discriminate. }
  simpl in Hheap. exists st'. split; [reflexivity|].
  assert (Hlt : ref < length (heap st)) by (by eapply lookup_lt_Some).
  split; [|split].
  - rewrite Hheap. by apply list_lookup_insert_eq.
  - intros Hs. rewrite handleClick_cases, Hcat, Href, Hclue, Hs in Hrun. congruence.
  - intros l c Hl. rewrite Hheap. destruct (decide (l = ref)) as [->|Hne].
    + rewrite list_lookup_insert_eq by done. eexists; split; [reflexivity|].
      simpl. assert (c = clue) as -> by congruence.
      destruct (showing clue); auto.
    + rewrite list_lookup_insert_ne by done. eauto.
Qed.

Lemma js_get_Some {A} (arr : list A) i x :
  js_get arr i = Some x <-> (0 <= i)%Z /\ arr !! Z.to_nat i = Some x.
Proof.
  unfold js_get. destruct (Z.ltb_spec i 0); split.
  - discriminate.
  - intros [? _]; lia.
  - auto.
  - intros [_ ?]; auto.
Qed.

Lemma js_get_nat {A} (arr : list A) (i : nat) : js_get arr (Z.of_nat i) = arr !! i.
Proof.
  unfold js_get. destruct (Z.ltb_spec (Z.of_nat i) 0); [lia|].
  by rewrite Nat2Z.id.
Qed.

Lemma has_tag_true t root p :
  has_tag t root p = true <-> exists n, get_node root p = Some n /\ tag n = t.
Proof.
  unfold has_tag. destruct (get_node root p) as [n|].
  - rewrite String.eqb_eq. split; [eauto|]. by intros (? & [= <-] & ?).
  - split; [discriminate|]. by intros (? & ? & ?).
Qed.

Lemma has_tag_other t t' root p :
  has_tag t root p = true -> t ≠ t' -> has_tag t' root p = false.
Proof.
  intros (n & Hn & <-)%has_tag_true Hne. unfold has_tag. rewrite Hn.
  by apply String.eqb_neq.
Qed.

(** The row of a cell: [closest] finds the [tr] right above a [td]. *)
Lemma closest_row root b r c :
  has_tag "tr" root [b; r] = true ->
  has_tag "td" root [b; r; c] = true ->
  closest "tr" root [[b; r; c]] = [[b; r]].
Proof.
  intros Hrow Hcell.
  assert (Hno : has_tag "tr" root [b; r; c] = false)
    by (by eapply has_tag_other).
  unfold closest, ancestors_or_self. simpl.
  rewrite filter_cons_False by (rewrite Hno; discriminate).
  by rewrite filter_cons_True.
Qed.

(** C10: [handleClick] checks no bounds: when the column index of the
    clicked element is at or beyond the number of categories (so whenever
    [categories] is empty), [categories[colIndex]] is undefined and the
    read of its [clues] throws a TypeError; nothing handles it and the
    state stays as it was. *)
Theorem handleClick_column_out_of_range evt st :
  (Z.of_nat (length (categories st)) <= colIndex_of evt)%Z ->
  js_get (categories st) (colIndex_of evt) = None /\
  handleClick evt st = Throw TypeError st.
Proof.
  intros Hge.
  assert (Hnone : js_get (categories st) (colIndex_of evt) = None).
  { unfold js_get. destruct (Z.ltb_spec (colIndex_of evt) 0); [done|].
    apply lookup_ge_None. lia. }
  split; [done|]. by rewrite handleClick_cases, Hnone.
Qed.

(** C7: a click on the body cell of row [r] and column [c] (the [c]-th
    [td] of the [r]-th [tr] of its table section) is resolved to
    [categories[c].clues[r]]: the column index picks the category, the row
    index the clue, and that clue object is the one whose [showing]
    moves on. *)
Theorem handleClick_resolves_cell st b r c category ref clue :
  has_tag "tr" (jeopardy st) [b; r] = true ->
  has_tag "td" (jeopardy st) [b; r; c] = true ->
  categories st !! c = Some category ->
  clues category !! r = Some ref ->
  heap st !! ref = Some clue ->
  let evt := Event [b; r; c] in
  colIndex_of evt = Z.of_nat c /\
  rowIndex_of evt st = Z.of_nat r /\
  exists st',
    handleClick evt st = Ok tt st' /\
    categories st' = categories st /\
    heap st' = <[ref := Clue (question clue) (answer clue) (advance (showing clue))]> (heap st).
Proof.
  intros Hrow Hcell Hcat Href Hclue evt.
  assert (Hc : colIndex_of evt = Z.of_nat c) by reflexivity.
  assert (Hr : rowIndex_of evt st = Z.of_nat r).
  { unfold evt; cbn [target]. by rewrite closest_row. }
  split; [done|]. split; [done|].
  assert (Hcat' : js_get (categories st) (colIndex_of evt) = Some category)
    by (by rewrite Hc, js_get_nat).
  assert (Href' : js_get (clues category) (rowIndex_of evt st) = Some ref)
    by (by rewrite Hr, js_get_nat).
  pose proof (handleClick_heap evt st category ref clue Hcat' Href' Hclue) as Hheap.
  pose proof (handleClick_categories evt st) as Hcats.
  destruct (handleClick evt st) as [[] st'|e st'] eqn:Hrun.
  - by exists st'.
  - rewrite handleClick_cases, Hcat', Href', Hclue in Hrun.
    destruct (showing clue); discriminate.
Qed.

(** Two places of a well-formed board never hold the same clue object. *)
Lemma join_lookup_inj {A} (ls : list (list A)) c r c' r' a a' x :
  NoDup (mjoin ls) ->
  ls !! c = Some a -> a !! r = Some x ->
  ls !! c' = Some a' -> a' !! r' = Some x ->
  c = c' /\ r = r'.
Proof.
  revert c c'. induction ls as [|l ls IH]; intros c c' Hnd Ha Hx Ha' Hx'; [done|].
  simpl in Hnd. apply NoDup_app in Hnd as (Hl & Hdisj & Hls).
  assert (Hin : forall k b s, ls !! k = Some b -> b !! s = Some x -> x ∈ mjoin ls).
  { intros k b s Hb Hs. apply list_elem_of_join. exists b.
    split; eapply list_elem_of_lookup_2; eauto. }
  destruct c as [|c], c' as [|c']; simpl in *.
  - simplify_eq. split; [done|].
    eapply (NoDup_lookup _ r r' x); [|eassumption|eassumption]. done.
  - simplify_eq. exfalso. eapply Hdisj; [by eapply list_elem_of_lookup_2|]. eauto.
  - simplify_eq. exfalso. eapply Hdisj; [by eapply list_elem_of_lookup_2|]. eauto.
  - destruct (IH c c' Hls Ha Hx Ha' Hx') as [-> ->]. done.
Qed.

(** C9: a click handled by [handleClick] changes at most the [showing]
    field of the one clue at the clicked cell's row and column: the
    categories (their titles and clue arrays) are the same, every clue at
    another place of the board is the same, and every clue keeps its
    question and its answer. *)
Theorem handleClick_frame evt st :
  board_wf st ->
  let st' := final (handleClick evt st) in
  categories st' = categories st /\
  (forall c r, Z.of_nat c ≠ colIndex_of evt \/ Z.of_nat r ≠ rowIndex_of evt st ->
     clue_at st' c r = clue_at st c r) /\
  (forall c r old, clue_at st c r = Some old ->
     exists new, clue_at st' c r = Some new /\
       question new = question old /\ answer new = answer old).
Proof.
  intros [Hnd _] st'.
  pose proof (handleClick_categories evt st) as Hcats. fold st' in Hcats.
  split; [done|].
  destruct (js_get (categories st) (colIndex_of evt)) as [category|] eqn:Hcat.
  2:{ assert (st' = st) as -> by (unfold st'; by rewrite handleClick_cases, Hcat). eauto. }
  destruct (js_get (clues category) (rowIndex_of evt st)) as [ref|] eqn:Href.
  2:{ assert (st' = st) as -> by (unfold st'; by rewrite handleClick_cases, Hcat, Href). eauto. }
  destruct (heap st !! ref) as [clue|] eqn:Hclue.
  2:{ assert (st' = st) as ->
        by (unfold st'; by rewrite handleClick_cases, Hcat, Href, Hclue). eauto. }
  pose proof (handleClick_heap evt st category ref clue Hcat Href Hclue) as Hheap.
  fold st' in Hheap.
  apply js_get_Some in Hcat as [Hc0 Hcat]. apply js_get_Some in Href as [Hr0 Href].
  assert (Hlt : ref < length (heap st)) by (by eapply lookup_lt_Some).
  split.
  - intros c r Hother. unfold clue_at. rewrite Hcats, Hheap.
    destruct (categories st !! c) as [cat'|] eqn:Hcat'; [|done].
    destruct (clues cat' !! r) as [ref'|] eqn:Href'; [|done].
    apply list_lookup_insert_ne. intros <-.
    destruct (join_lookup_inj (clues <$> categories st) c r
                (Z.to_nat (colIndex_of evt)) (Z.to_nat (rowIndex_of evt st))
                (clues cat') (clues category) ref) as [-> ->]; try done.
    + by rewrite list_lookup_fmap, Hcat'.
    + by rewrite list_lookup_fmap, Hcat.
    + destruct Hother as [H|H]; apply H; lia.
  - intros c r old. unfold clue_at. rewrite Hcats, Hheap.
    destruct (categories st !! c) as [cat'|]; [|done].
    destruct (clues cat' !! r) as [ref'|]; [|done].
    intros Hold. destruct (decide (ref' = ref)) as [->|Hne].
    + rewrite list_lookup_insert_eq by done. eexists; split; [done|].
      simpl. split; congruence.
    + rewrite list_lookup_insert_ne by done. eauto.
Qed.

(** ** fillTable *)

Lemma foldl_append {A} (f : A -> node) (l : list A) (n : node) :
  foldl (fun acc x => append (f x) acc) n l
  = Node (tag n) (classes n) (text n) (children n ++ (f <$> l)).
Proof.
  revert n. induction l as [|x l IH]; intros n; simpl.
  - destruct n; simpl. by rewrite app_nil_r.
  - rewrite IH. simpl. by rewrite <- app_assoc.
Qed.

Lemma foldl_append_const {A} (row : node) (l : list A) (n : node) :
  foldl (fun acc _ => append row acc) n l
  = Node (tag n) (classes n) (text n) (children n ++ replicate (length l) row).
Proof.
  rewrite (foldl_append (fun _ => row)). f_equal. f_equal.
  induction l as [|a l IH]; csimpl; [done|by rewrite IH].
Qed.

(** [fillTable] in one step: whatever [#jeopardy] held, it now holds the
    head and the body of the grid of the current board. *)
Lemma fillTable_run st :
  fillTable st =
  Ok tt (with_jeopardy
           (Node (tag (jeopardy st)) (classes (jeopardy st)) ""
                 [grid_head (categories st); grid_body (categories st)])
           st).
Proof.
  unfold fillTable, mbind, js_bind, gets, modify. cbn beta iota zeta.
  f_equal. f_equal.
  rewrite (foldl_append (fun cat => set_text (title cat) (elem "th"))).
  rewrite (foldl_append (fun cat : category => set_text "?" (elem "td"))).
  rewrite (foldl_append_const (Node "tr" [] "" _)).
  rewrite length_seq. reflexivity.
Qed.

Lemma subtree_unfold t c x ks :
  subtree (Node t c x ks) = Node t c x ks :: mjoin (subtree <$> ks).
Proof.
  simpl. f_equal. induction ks as [|k ks IH]; csimpl; [done|]. by rewrite IH.
Qed.

Lemma descendants_unfold t c x ks :
  descendants (Node t c x ks) = mjoin (subtree <$> ks).
Proof. unfold descendants. by rewrite subtree_unfold. Qed.

(** A row of cells without children: its subtree is the row and its cells. *)
Lemma subtree_leaves {A} (f : A -> node) (l : list A) :
  (forall a, children (f a) = []) ->
  mjoin (subtree <$> (f <$> l)) = f <$> l.
Proof.
  intros Hleaf. induction l as [|a l IH]; csimpl; [done|].
  rewrite IH. specialize (Hleaf a). destruct (f a) as [t c x ks].
  simpl in Hleaf. subst ks. by rewrite subtree_unfold.
Qed.

Lemma filter_fmap_all {A B} (P : B -> Prop) `{forall b, Decision (P b)} (f : A -> B)
    (l : list A) :
  (forall a, P (f a)) -> filter P (f <$> l) = f <$> l.
Proof.
  intros HP. induction l as [|a l IH]; csimpl; [done|].
  rewrite filter_cons_True by done. by rewrite IH.
Qed.

Lemma filter_fmap_none {A B} (P : B -> Prop) `{forall b, Decision (P b)} (f : A -> B)
    (l : list A) :
  (forall a, ~ P (f a)) -> filter P (f <$> l) = [].
Proof.
  intros HP. induction l as [|a l IH]; csimpl; [done|].
  by rewrite filter_cons_False.
Qed.

Lemma subtree_replicate n row :
  mjoin (subtree <$> replicate n row) = mjoin (replicate n (subtree row)).
Proof. induction n as [|n IH]; csimpl; [done|by rewrite IH]. Qed.

Lemma filter_join_replicate {A} (P : A -> Prop) `{forall a, Decision (P a)} n (xs : list A) :
  filter P (mjoin (replicate n xs)) = mjoin (replicate n (filter P xs)).
Proof. induction n as [|n IH]; csimpl; [done|]. by rewrite filter_app, IH. Qed.

Lemma length_join_replicate {A} n (xs : list A) :
  length (mjoin (replicate n xs)) = n * length xs.
Proof. induction n as [|n IH]; csimpl; [done|]. rewrite length_app, IH. lia. Qed.

Lemma Forall_join_replicate {A} (P : A -> Prop) n (xs : list A) :
  Forall P xs -> Forall P (mjoin (replicate n xs)).
Proof. intros Hxs. induction n; csimpl; [done|]. by apply Forall_app. Qed.

Lemma descendants_two t c x a b :
  descendants (Node t c x [a; b]) = subtree a ++ subtree b.
Proof. rewrite descendants_unfold. csimpl. by rewrite app_nil_r. Qed.

Lemma subtree_one t c x a :
  subtree (Node t c x [a]) = Node t c x [a] :: subtree a.
Proof. rewrite subtree_unfold. csimpl. by rewrite app_nil_r. Qed.

Lemma subtree_grid_head cats :
  let cells := (fun cat => Node "th" [] (title cat) []) <$> cats in
  subtree (grid_head cats) = grid_head cats :: Node "tr" [] "" cells :: cells.
Proof.
  intros cells. unfold grid_head. fold cells.
  rewrite subtree_one, subtree_unfold.
  unfold cells. by rewrite subtree_leaves.
Qed.

Lemma subtree_grid_body cats :
  let cells := (fun _ : category => Node "td" [] "?" []) <$> cats in
  subtree (grid_body cats)
  = grid_body cats :: mjoin (replicate NUM_QUESTIONS_PER_CAT (Node "tr" [] "" cells :: cells)).
Proof.
  intros cells. unfold grid_body. fold cells.
  rewrite subtree_unfold, subtree_replicate, subtree_unfold.
  unfold cells. by rewrite subtree_leaves.
Qed.

Lemma join_replicate_nil {A} n : mjoin (replicate n (@nil A)) = [].
Proof. induction n as [|n IH]; csimpl; done. Qed.

(** The cells of a grid. *)
Lemma header_cells_grid t c x cats :
  header_cells (Node t c x [grid_head cats; grid_body cats])
  = (fun cat => Node "th" [] (title cat) []) <$> cats.
Proof.
  unfold header_cells.
  rewrite descendants_two, subtree_grid_head, subtree_grid_body. cbn zeta.
  rewrite filter_app, !filter_cons_False by (simpl; discriminate).
  rewrite filter_fmap_all by done.
  rewrite filter_join_replicate, filter_cons_False by (simpl; discriminate).
  rewrite filter_fmap_none by (intros; simpl; discriminate).
  by rewrite join_replicate_nil, app_nil_r.
Qed.

Lemma body_cells_grid t c x cats :
  body_cells (Node t c x [grid_head cats; grid_body cats])
  = mjoin (replicate NUM_QUESTIONS_PER_CAT ((fun _ => Node "td" [] "?" []) <$> cats)).
Proof.
  unfold body_cells.
  rewrite descendants_two, subtree_grid_head, subtree_grid_body. cbn zeta.
  rewrite filter_app, !filter_cons_False by (simpl; discriminate).
  rewrite filter_fmap_none by (intros; simpl; discriminate).
  rewrite filter_join_replicate, filter_cons_False by (simpl; discriminate).
  by rewrite filter_fmap_all.
Qed.

(** The cells of the grid [fillTable] leaves, for any board. *)
Lemma fillTable_header_cells st :
  header_cells (jeopardy (final (fillTable st)))
  = (fun cat => Node "th" [] (title cat) []) <$> categories st.
Proof. rewrite fillTable_run. apply header_cells_grid. Qed.

Lemma fillTable_body_cells st :
  body_cells (jeopardy (final (fillTable st)))
  = mjoin (replicate NUM_QUESTIONS_PER_CAT
                     ((fun _ => Node "td" [] "?" []) <$> categories st)).
Proof. rewrite fillTable_run. apply body_cells_grid. Qed.

(** C5: for a valid board, of N = [NUM_CATEGORIES] categories with
    M = [NUM_QUESTIONS_PER_CAT] clues each, [fillTable] leaves exactly N
    header cells, showing the titles of the categories in order, and
    exactly N * M body cells, each showing the placeholder ["?"] whatever
    the clues say. *)
Theorem fillTable_cells st :
  valid_board st ->
  let root := jeopardy (final (fillTable st)) in
  length (header_cells root) = NUM_CATEGORIES /\
  text <$> header_cells root = title <$> categories st /\
  length (body_cells root) = NUM_CATEGORIES * NUM_QUESTIONS_PER_CAT /\
  Forall (fun cell => text cell = "?") (body_cells root).
Proof.
  intros [Hn _] root. unfold root.
  rewrite fillTable_header_cells, fillTable_body_cells.
  rewrite length_fmap, <- list_fmap_compose, length_join_replicate, length_fmap, Hn.
  split; [done|]. split; [done|]. split; [lia|].
  apply Forall_join_replicate, Forall_fmap, Forall_forall. done.
Qed.

(** C8: [fillTable] empties [#jeopardy] before it builds the grid: what it
    leaves is the head and the body of the grid of the current board and
    nothing else, so it is the same whatever [#jeopardy] held before, and
    no cell of an earlier game remains: every body cell is a new
    placeholder. *)
Theorem fillTable_clears_previous_grid st :
  jeopardy (final (fillTable st))
  = Node (tag (jeopardy st)) (classes (jeopardy st)) ""
         [grid_head (categories st); grid_body (categories st)]
  /\ (forall previous_text previous_children,
        jeopardy (final (fillTable
          (with_jeopardy (Node (tag (jeopardy st)) (classes (jeopardy st))
                               previous_text previous_children)
                         st)))
        = jeopardy (final (fillTable st)))
  /\ Forall (fun cell => cell = Node "td" [] "?" [])
            (body_cells (jeopardy (final (fillTable st)))).
Proof.
  split; [by rewrite fillTable_run|]. split.
  - intros. by rewrite !fillTable_run.
  - rewrite fillTable_body_cells.
    apply Forall_join_replicate, Forall_fmap, Forall_forall. done.
Qed.

(** ** The grid and its cells *)

(** In the grid of a board the body cell of row [r] and column [col] is
    the [col]-th child of the [r]-th row of the second child, below the
    header cell that shows the title of category [col]. *)
Lemma grid_cell t c x cats r col :
  r < NUM_QUESTIONS_PER_CAT -> col < length cats ->
  let root := Node t c x [grid_head cats; grid_body cats] in
  has_tag "tr" root [1; r] = true /\
  get_node root [1; r; col] = Some (Node "td" [] "?" []).
Proof.
  intros Hr Hcol root. unfold has_tag, root, grid_body.
  generalize dependent NUM_QUESTIONS_PER_CAT. intros m Hr. simpl.
  rewrite lookup_replicate_2 by done. split; [done|]. simpl.
  rewrite list_lookup_fmap.
  by destruct (lookup_lt_is_Some_2 cats col Hcol) as [cat ->].
Qed.

Lemma grid_header_cell t c x cats col cat :
  cats !! col = Some cat ->
  get_node (Node t c x [grid_head cats; grid_body cats]) [0; 0; col]
  = Some (Node "th" [] (title cat) []).
Proof. intros Hcat. simpl. by rewrite list_lookup_fmap, Hcat. Qed.

Lemma fillTable_grid_ok st : grid_ok (final (fillTable st)).
Proof.
  rewrite fillTable_run. intros r col Hr Hcol. simpl in *.
  destruct (grid_cell (tag (jeopardy st)) (classes (jeopardy st)) ""
              (categories st) r col Hr Hcol) as [Hrow Hcell].
  split; [done|]. unfold has_tag. by rewrite Hcell.
Qed.

(** Changing an element without changing its tag changes no tag at its
    depth or above. *)
Lemma has_tag_alter_node f t p root q :
  (forall n, tag (f n) = tag n) ->
  length q <= length p ->
  has_tag t (alter_node f p root) q = has_tag t root q.
Proof.
  intros Hf. unfold has_tag. revert root q.
  induction p as [|i p IH]; intros root q Hlen.
  - destruct q; [|simpl in Hlen; lia]. simpl. by rewrite Hf.
  - destruct q as [|j q]; [done|]. simpl in *.
    destruct (decide (j = i)) as [->|Hne].
    + rewrite list_lookup_alter_eq.
      destruct (children root !! i) as [k|]; [|done]. simpl.
      apply IH. lia.
    + by rewrite list_lookup_alter_ne.
Qed.

Lemma tag_set_text s n : tag (set_text s n) = tag n.
Proof. done. Qed.

Lemma tag_addClass c n : tag (addClass c n) = tag n.
Proof. unfold addClass. by case_bool_decide. Qed.

Lemma tag_removeClass c n : tag (removeClass c n) = tag n.
Proof. done. Qed.

(** A click on a cell changes no tag down to the cells. *)
Lemma handleClick_cell_tags b r c st t q :
  length q <= 3 ->
  has_tag t (jeopardy (final (handleClick (Event [b; r; c]) st))) q
  = has_tag t (jeopardy st) q.
Proof.
  intros Hq. rewrite handleClick_cases.
  repeat case_match; try reflexivity;
    cbn [final jeopardy with_jeopardy with_heap target];
    rewrite !has_tag_alter_node;
    auto using tag_set_text, tag_addClass, tag_removeClass.
Qed.

(** A click on a cell leaves the grid a grid. *)
Lemma handleClick_cell_keeps_grid b r c st :
  grid_ok st -> grid_ok (final (handleClick (Event [b; r; c]) st)).
Proof.
  intros Hgrid r' c' Hr' Hc'. rewrite handleClick_categories in Hc'.
  rewrite !handleClick_cell_tags by (simpl; lia). by apply Hgrid.
Qed.

(** The elements of a new grid carry no class: [$(".question")], which
    [setupAndStart] binds the handler to after [fillTable], holds no cell. *)
Lemma grid_classes t c x cats p n :
  p ≠ [] ->
  get_node (Node t c x [grid_head cats; grid_body cats]) p = Some n ->
  classes n = [].
Proof.
  intros Hp. unfold grid_head, grid_body.
  generalize dependent NUM_QUESTIONS_PER_CAT. intros m.
  destruct p as [|[|[|i]] p]; [done| | |done]; simpl.
  - destruct p as [|[|j] p]; simpl; [by intros [= <-]| |done].
    destruct p as [|k p]; simpl; [by intros [= <-]|].
    rewrite list_lookup_fmap. destruct (cats !! k) as [cat|]; [|done]. simpl.
    destruct p as [|? p]; simpl; [by intros [= <-]|done].
  - destruct p as [|j p]; simpl; [by intros [= <-]|].
    destruct (replicate m _ !! j) as [row|] eqn:Hrow; [|done].
    apply lookup_replicate in Hrow as [-> _].
    destruct p as [|k p]; simpl; [by intros [= <-]|].
    rewrite list_lookup_fmap. destruct (cats !! k) as [cat|]; [|done]. simpl.
    destruct p as [|? p]; simpl; [by intros [= <-]|done].
Qed.

Lemma select_class_grid cls t c x cats p :
  p ∈ select_class cls (Node t c x [grid_head cats; grid_body cats]) -> p = [].
Proof.
  unfold select_class. intros [Hcls _]%list_elem_of_filter.
  unfold has_class in Hcls.
  destruct (get_node _ p) as [n|] eqn:Hn; [|done].
  destruct (decide (p = [])) as [|Hp]; [done|].
  rewrite (grid_classes t c x cats p n Hp Hn) in Hcls.
  apply bool_decide_eq_true in Hcls. by apply elem_of_nil in Hcls.
Qed.

(** ** getCategory and Promise.all *)

Lemma grows_refl st : grows st st.
Proof. exists []. destruct st; unfold with_heap; simpl. by rewrite app_nil_r. Qed.

Lemma grows_trans st1 st2 st3 : grows st1 st2 -> grows st2 st3 -> grows st1 st3.
Proof.
  intros [e1 ->] [e2 ->]. exists (e1 ++ e2).
  unfold with_heap; simpl. by rewrite app_assoc.
Qed.

Lemma new_clues_run {A} (f : A -> clue) (l : list A) st :
  mapM (fun a => new_clue (f a)) l st
  = Ok (seq (length (heap st)) (length l)) (with_heap (heap st ++ (f <$> l)) st).
Proof.
  revert st. induction l as [|a l IH]; intros st.
  - simpl. unfold mret, js_ret. f_equal.
    destruct st; unfold with_heap; simpl. by rewrite app_nil_r.
  - change (mapM (fun a => new_clue (f a)) (a :: l) st)
      with (match new_clue (f a) st with
            | Ok y st' =>
                match mapM (fun a => new_clue (f a)) l st' with
                | Ok k st'' => Ok (y :: k) st''
                | Throw e st'' => Throw e st''
                end
            | Throw e st' => Throw e st'
            end).
    unfold new_clue. rewrite IH. unfold with_heap; simpl.
    rewrite length_app, <- app_assoc. simpl.
    by replace (length (heap st) + 1) with (S (length (heap st))) by lia.
Qed.

Lemma getCategory_ok catId data st :
  getCategory catId (Responds 200%Z data) st
  = Ok (Category (Remote.title data) (seq (length (heap st)) (length (Remote.clues data))))
       (with_heap (heap st ++ ((fun clue => Clue (Remote.question clue) (Remote.answer clue) Null)
                               <$> Remote.clues data)) st).
Proof.
  unfold getCategory. rewrite bool_decide_false by (intros H; by apply H).
  unfold mbind, js_bind.
  by rewrite (new_clues_run (fun clue => Clue (Remote.question clue) (Remote.answer clue) Null)).
Qed.

Lemma getCategory_fails catId response st :
  fails response -> exists e, getCategory catId response st = Throw e st.
Proof.
  destruct response as [|status data]; simpl; intros Hf; [by eexists|].
  rewrite bool_decide_true by done. by eexists.
Qed.

Lemma getCategory_grows catId response st :
  grows st (final (getCategory catId response st)).
Proof.
  destruct response as [|status data]; [apply grows_refl|].
  destruct (decide (status = 200%Z)) as [->|Hne].
  - rewrite getCategory_ok. by eexists.
  - destruct (getCategory_fails catId (Responds status data) st Hne) as [e ->].
    apply grows_refl.
Qed.

Lemma drain_grows {A} (jobs : list (js A)) arrivals st :
  Forall allocating jobs -> grows st (drain jobs arrivals st).
Proof.
  intros Hjobs. revert st. induction arrivals as [|i rest IH]; intros st; simpl.
  - apply grows_refl.
  - destruct (jobs !! i) as [job|] eqn:Hjob; [|apply IH].
    eapply grows_trans; [|apply IH].
    eapply Forall_lookup_1 in Hjobs; [|done]. apply Hjobs.
Qed.

Lemma await_all_grows {A} (jobs : list (js A)) arrivals slots st :
  Forall allocating jobs -> grows st (await_all jobs arrivals slots st).2.
Proof.
  intros Hjobs. revert slots st.
  induction arrivals as [|i rest IH]; intros slots st; simpl.
  - destruct (mapM _ slots); apply grows_refl.
  - destruct (mapM _ slots); [apply grows_refl|].
    destruct (jobs !! i) as [job|] eqn:Hjob; [|apply IH].
    pose proof (Forall_lookup_1 _ _ _ _ Hjobs Hjob st) as Hg.
    destruct (job st) as [value st'|e st']; simpl in Hg.
    + eapply grows_trans; [done|apply IH].
    + simpl. eapply grows_trans; [done|by apply drain_grows].
Qed.

(** One failing job among those that arrive makes [Promise.all] reject. *)
Lemma await_all_rejects {A} (jobs : list (js A)) arrivals slots st i0 job0 :
  jobs !! i0 = Some job0 ->
  (forall s, exists e s', job0 s = Throw e s') ->
  slots !! i0 = Some None ->
  i0 ∈ arrivals ->
  exists e st', await_all jobs arrivals slots st = (Rejected e, st').
Proof.
  intros Hjob0 Hthrows. revert slots st.
  induction arrivals as [|i rest IH]; intros slots st Hslot Hin.
  { by apply elem_of_nil in Hin. }
  simpl.
  assert (Hnone : mapM (M := option) (fun v => v) slots = None).
  { apply mapM_None, Exists_exists. exists None. split; [|done].
    by eapply list_elem_of_lookup_2. }
  rewrite Hnone.
  destruct (jobs !! i) as [job|] eqn:Hjob.
  - destruct (job st) as [value st'|e st'] eqn:Hrun; [|by eauto].
    assert (i ≠ i0).
    { intros ->. rewrite Hjob0 in Hjob. injection Hjob as <-.
      destruct (Hthrows st) as (e & s' & Hthrow). congruence. }
    apply IH.
    + by rewrite list_lookup_insert_ne.
    + apply elem_of_cons in Hin as [->|]; done.
  - apply IH; [done|].
    apply elem_of_cons in Hin as [->|]; [congruence|done].
Qed.

Lemma elem_of_join_insert {A} (ls : list (list A)) i new x :
  x ∈ mjoin (<[i := new]> ls) -> x ∈ new \/ x ∈ mjoin ls.
Proof.
  revert i. induction ls as [|l ls IH]; intros i; [by right|].
  destruct i as [|i]; csimpl; rewrite !elem_of_app.
  - tauto.
  - intros [?|Hin]; [tauto|]. destruct (IH i Hin); tauto.
Qed.

Lemma NoDup_join_insert {A} (ls : list (list A)) i new :
  NoDup (mjoin ls) -> NoDup new -> (forall x, x ∈ new -> x ∉ mjoin ls) ->
  NoDup (mjoin (<[i := new]> ls)).
Proof.
  revert i. induction ls as [|l ls IH]; intros i Hls Hnew Hdisj; [done|].
  csimpl in Hls. apply NoDup_app in Hls as (Hl & Hlls & Hls').
  destruct i as [|i]; csimpl; apply NoDup_app.
  - split; [done|]. split; [|done].
    intros x Hx Hx'. apply (Hdisj x Hx). csimpl. apply elem_of_app. by right.
  - split; [done|]. split.
    + intros x Hx [Hx'|Hx']%elem_of_join_insert.
      * apply (Hdisj x Hx'). csimpl. apply elem_of_app. by left.
      * by apply (Hlls x).
    + apply IH; [done..|].
      intros x Hx Hx'. apply (Hdisj x Hx). csimpl. apply elem_of_app. by right.
Qed.

Lemma category_view_grow h extra cat :
  Forall (fun l => l < length h) (clues cat) ->
  category_view (h ++ extra) cat = category_view h cat.
Proof.
  intros Hin. unfold category_view. f_equal.
  apply Forall_fmap_ext. eapply Forall_impl; [done|].
  intros l Hl. by apply lookup_app_l.
Qed.

(** The clue objects a category has just been given. *)
Lemma lookup_new_clues (h cs : list clue) :
  (fun l => (h ++ cs) !! l) <$> seq (length h) (length cs) = Some <$> cs.
Proof.
  apply list_eq. intros i. rewrite !list_lookup_fmap.
  destruct (decide (i < length cs)) as [Hlt|Hge].
  - rewrite lookup_seq_lt by done. simpl.
    rewrite lookup_app_r by lia.
    replace (length h + i - length h) with i by lia.
    destruct (lookup_lt_is_Some_2 cs i Hlt) as [c ->]. done.
  - rewrite lookup_seq_ge by lia. by rewrite lookup_ge_None_2 by lia.
Qed.

Lemma mapM_id_Some {A} (slots : list (option A)) values :
  mapM (M := option) (fun v => v) slots = Some values -> slots = Some <$> values.
Proof.
  intros Hall%mapM_Some. induction Hall; csimpl; congruence.
Qed.

Lemma slot_refs_bound slots h i cat :
  slots_fresh slots h -> slots !! i = Some (Some cat) ->
  Forall (fun l => l < length h) (clues cat).
Proof.
  intros [_ Hbound] Hi. apply Forall_forall. intros l Hl.
  eapply Forall_forall in Hbound; [done|].
  apply list_elem_of_join. exists (clues cat). split; [done|].
  apply list_elem_of_fmap. exists (Some cat). split; [done|].
  by eapply list_elem_of_lookup_2.
Qed.

(** A category that has just been given new clue objects shares none with
    the categories that were there. *)
Lemma slots_fresh_insert slots h i t (cs : list clue) :
  slots_fresh slots h ->
  slots_fresh (<[i := Some (Category t (seq (length h) (length cs)))]> slots) (h ++ cs).
Proof.
  intros [Hnd Hbound]. unfold slots_fresh. rewrite list_fmap_insert. simpl. split.
  - apply NoDup_join_insert; [done|apply NoDup_seq|].
    intros l Hl%elem_of_seq Hl'. eapply Forall_forall in Hbound; [|done]. lia.
  - apply Forall_forall. intros l [Hl%elem_of_seq|Hl]%elem_of_join_insert.
    + rewrite length_app. lia.
    + eapply Forall_forall in Hbound; [|done]. rewrite length_app. lia.
Qed.

Lemma slots_fresh_nothing n h : slots_fresh (replicate n None) h.
Proof.
  unfold slots_fresh. rewrite fmap_replicate. simpl. rewrite join_replicate_nil.
  split; [apply NoDup_nil_2|done].
Qed.

Lemma getCategory_Ok_inv catId response st cat st' :
  getCategory catId response st = Ok cat st' ->
  exists t cs, cat = Category t (seq (length (heap st)) (length cs)) /\
               st' = with_heap (heap st ++ cs) st.
Proof.
  destruct response as [|status data]; [discriminate|].
  destruct (decide (status = 200%Z)) as [->|Hne].
  - rewrite getCategory_ok. intros [= <- <-]. eexists _, _. split; [|done].
    by rewrite length_fmap.
  - destruct (getCategory_fails catId (Responds status data) st Hne) as [e ->].
    discriminate.
Qed.

Section Loading.
Variable reply : Z -> reply Remote.detail.
Variable ids : list Z.

Let jobs : list (js category) := (fun catId => getCategory catId (reply catId)) <$> ids.

Lemma jobs_allocating : Forall allocating jobs.
Proof.
  apply Forall_fmap, Forall_forall. intros catId _ st. apply getCategory_grows.
Qed.

(** Whatever the responses and the order they arrive in, the categories
    [Promise.all] fulfils with share no clue object. *)
Lemma await_all_fresh arrivals slots st :
  slots_fresh slots (heap st) ->
  match await_all jobs arrivals slots st with
  | (Fulfilled cats, st') => slots_fresh (Some <$> cats) (heap st')
  | _ => True
  end.
Proof.
  revert slots st. induction arrivals as [|i rest IH]; intros slots st Hfresh; simpl.
  - destruct (mapM _ slots) as [values|] eqn:Hall; [|done].
    by rewrite <- (mapM_id_Some slots values).
  - destruct (mapM _ slots) as [values|] eqn:Hall.
    { by rewrite <- (mapM_id_Some slots values). }
    destruct (jobs !! i) as [job|] eqn:Hjob; [|by apply IH].
    unfold jobs in Hjob. apply list_lookup_fmap_Some in Hjob as (catId & -> & _).
    destruct (getCategory catId (reply catId) st) as [cat st'|e st'] eqn:Hrun; [|done].
    apply getCategory_Ok_inv in Hrun as (t & cs & -> & ->).
    apply IH. simpl. by apply slots_fresh_insert.
Qed.

Hypothesis replies_ok :
  forall catId, catId ∈ ids -> exists data, reply catId = Responds 200%Z data.

(** When every response is good and every request completes,
    [Promise.all] fulfils with the categories in the order of [ids]. *)
Lemma await_all_fulfils arrivals slots st :
  slots_ok reply ids slots (heap st) ->
  (forall i, slots !! i = Some None -> i ∈ arrivals) ->
  exists cats st',
    await_all jobs arrivals slots st = (Fulfilled cats, st') /\
    grows st st' /\
    slots_ok reply ids (Some <$> cats) (heap st').
Proof.
  revert slots st. induction arrivals as [|i rest IH]; intros slots st Hok Hcover.
  - simpl. destruct (mapM _ slots) as [values|] eqn:Hall.
    + exists values, st. split; [done|]. split; [apply grows_refl|].
      by rewrite <- (mapM_id_Some slots values).
    + apply mapM_None, Exists_exists in Hall as (slot & Hin & ->).
      apply list_elem_of_lookup_1 in Hin as [j Hj].
      by apply Hcover, elem_of_nil in Hj.
  - simpl. destruct (mapM _ slots) as [values|] eqn:Hall.
    + exists values, st. split; [done|]. split; [apply grows_refl|].
      by rewrite <- (mapM_id_Some slots values).
    + destruct Hok as (Hlen & Hfresh & Hview).
      destruct (jobs !! i) as [job|] eqn:Hjob.
      2:{ apply IH; [done|]. intros j Hj.
          pose proof (Hcover j Hj) as [->|?]%elem_of_cons; [|done].
          apply lookup_ge_None in Hjob. apply lookup_lt_Some in Hj.
          unfold jobs in Hjob. rewrite length_fmap in Hjob. lia. }
      unfold jobs in Hjob. apply list_lookup_fmap_Some in Hjob as (catId & -> & Hid).
      destruct (replies_ok catId) as [data Hdata]; [by eapply list_elem_of_lookup_2|].
      rewrite Hdata, getCategory_ok.
      set (cs := (fun clue => Clue (Remote.question clue) (Remote.answer clue) Null)
                   <$> Remote.clues data).
      assert (Hcs : length (Remote.clues data) = length cs)
        by (unfold cs; by rewrite length_fmap).
      rewrite Hcs.
      set (cat := Category (Remote.title data) (seq (length (heap st)) (length cs))).
      destruct (IH (<[i := Some cat]> slots) (with_heap (heap st ++ cs) st))
        as (cats & st' & Hrun & Hgrow & Hok').
      * unfold slots_ok. simpl. rewrite length_insert.
        split; [done|]. split; [by apply slots_fresh_insert|].
        intros j cat' Hj. destruct (decide (j = i)) as [->|Hne].
        -- rewrite list_lookup_insert_eq in Hj
             by (rewrite Hlen; by eapply lookup_lt_Some).
           injection Hj as <-. exists catId, data.
           split; [done|]. split; [done|].
           unfold category_view, loaded, cat. simpl. f_equal.
           rewrite lookup_new_clues. unfold cs.
           by rewrite <- list_fmap_compose.
        -- rewrite list_lookup_insert_ne in Hj by done.
           destruct (Hview j cat' Hj) as (catId' & data' & ? & ? & Hv).
           exists catId', data'. split; [done|]. split; [done|].
           rewrite category_view_grow; [done|]. by eapply slot_refs_bound.
      * intros j Hj. destruct (decide (j = i)) as [->|Hne].
        -- rewrite list_lookup_insert_eq in Hj
             by (rewrite Hlen; by eapply lookup_lt_Some).
           discriminate.
        -- rewrite list_lookup_insert_ne in Hj by done.
           pose proof (Hcover j Hj) as [->|?]%elem_of_cons; done.
      * exists cats, st'. split; [done|]. split; [|done].
        eapply grows_trans; [|done]. by exists cs.
Qed.
End Loading.

(** ** setupAndStart *)

Lemma elem_of_arrivals arrivals n i :
  arrivals ≡ₚ seq 0 n -> i < n -> i ∈ arrivals.
Proof. intros -> Hi. apply elem_of_seq. lia. Qed.

(** The end of the [try] block, once the categories are there. *)
Lemma start_tail_run values st :
  (set_categories values;;
   fillTable;;
   (root ← gets jeopardy; on_click (select_class "question" root));;
   hideLoadingView) st
  = let grid := Node (tag (jeopardy st)) (classes (jeopardy st)) ""
                     [grid_head values; grid_body values] in
    Ok tt (with_shown true false
             (with_clue_handlers (clue_handlers st ++ select_class "question" grid)
                (with_jeopardy grid (with_categories values st)))).
Proof.
  unfold mbind, js_bind, set_categories, modify. rewrite fillTable_run. reflexivity.
Qed.

Lemma catch_run e st :
  final ((console_error e;; alert failure_notice) st)
  = with_alerts (alerts st ++ [failure_notice]) (with_console (console st ++ [e]) st).
Proof. reflexivity. Qed.

Section EngineFacts.
Variable array_sort : list Remote.summary -> asking (list Remote.summary).

(** A successful start, step by step. *)
Lemma setupAndStart_success w st categoryIds :
  getCategoryIds array_sort (categories_reply w) (random w) = inr categoryIds ->
  (forall catId, catId ∈ categoryIds ->
     exists data, category_reply w catId = Responds 200%Z data) ->
  arrivals w ≡ₚ seq 0 (length categoryIds) ->
  exists cats st2,
    grows (with_shown false true st) st2 /\
    slots_ok (category_reply w) categoryIds (Some <$> cats) (heap st2) /\
    setupAndStart array_sort w st
    = (Fulfilled tt,
       let grid := Node (tag (jeopardy st)) (classes (jeopardy st)) ""
                        [grid_head cats; grid_body cats] in
       with_shown true false
         (with_clue_handlers (clue_handlers st ++ select_class "question" grid)
            (with_jeopardy grid (with_categories cats st2)))).
Proof.
  intros Hids Hok Hperm.
  destruct (await_all_fulfils (category_reply w) categoryIds Hok
              (arrivals w) (replicate (length categoryIds) None)
              (with_shown false true st))
    as (cats & st2 & Hrun & Hgrow & Hslots).
  - unfold slots_ok. rewrite length_replicate. split; [done|].
    split; [apply slots_fresh_nothing|].
    intros i cat [? _]%lookup_replicate. done.
  - intros i [_ Hi]%lookup_replicate. by eapply elem_of_arrivals.
  - exists cats, st2. split; [done|]. split; [done|].
    unfold setupAndStart. rewrite Hids. unfold promise_all.
    rewrite length_fmap. cbn [final showLoadingView modify].
    rewrite Hrun. unfold try_catch. rewrite start_tail_run.
    destruct Hgrow as [extra ->]. reflexivity.
Qed.

(** A failed start, step by step: the [catch] block runs on a state
    where only the store may have grown. *)
Lemma setupAndStart_failure w st :
  fetch_or_load_fails array_sort w ->
  all_complete array_sort w ->
  exists e st2,
    grows (with_shown false true st) st2 /\
    setupAndStart array_sort w st
    = (Fulfilled tt,
       with_alerts (alerts st ++ [failure_notice]) (with_console (console st ++ [e]) st2)).
Proof.
  unfold fetch_or_load_fails, all_complete, setupAndStart.
  destruct (getCategoryIds array_sort (categories_reply w) (random w))
    as [e|categoryIds]; intros Hfail Hperm.
  - exists e, (with_shown false true st). split; [apply grows_refl|]. reflexivity.
  - destruct Hfail as (i & catId & Hi & Hfail).
    set (jobs := (fun catId => getCategory catId (category_reply w catId)) <$> categoryIds).
    assert (Hjobs : Forall allocating jobs).
    { apply Forall_fmap, Forall_forall. intros c _ s. apply getCategory_grows. }
    pose proof (await_all_grows jobs (arrivals w) (replicate (length jobs) None)
                  (with_shown false true st) Hjobs) as Hgrow.
    destruct (await_all_rejects jobs (arrivals w) (replicate (length jobs) None)
                (with_shown false true st) i
                (getCategory catId (category_reply w catId)))
      as (e & st2 & Hrun).
    + unfold jobs. by rewrite list_lookup_fmap, Hi.
    + intros s. destruct (getCategory_fails catId _ s Hfail) as [e ->]. eauto.
    + apply lookup_replicate_2. unfold jobs. rewrite length_fmap.
      by eapply lookup_lt_Some.
    + eapply elem_of_arrivals; [done|]. by eapply lookup_lt_Some.
    + rewrite Hrun in Hgrow. simpl in Hgrow.
      exists e, st2. split; [done|].
      unfold promise_all. cbn [final showLoadingView modify]. fold jobs.
      rewrite Hrun, catch_run. destruct Hgrow as [extra ->]. reflexivity.
Qed.

(** After a successful start [#jeopardy] holds the grid of the board. *)
Lemma setupAndStart_grid_ok w st categoryIds :
  getCategoryIds array_sort (categories_reply w) (random w) = inr categoryIds ->
  (forall catId, catId ∈ categoryIds ->
     exists data, category_reply w catId = Responds 200%Z data) ->
  arrivals w ≡ₚ seq 0 (length categoryIds) ->
  grid_ok (setupAndStart array_sort w st).2.
Proof.
  intros Hids Hok Hperm.
  destruct (setupAndStart_success w st categoryIds Hids Hok Hperm)
    as (cats & st2 & _ & _ & ->).
  intros r col Hr Hcol. simpl in Hcol.
  destruct (grid_cell (tag (jeopardy st)) (classes (jeopardy st)) "" cats r col Hr Hcol)
    as [Hrow Hcell].
  destruct st2. split; [done|]. unfold has_tag. simpl in *. by rewrite Hcell.
Qed.

(** After a successful start no clue object is shared and every
    reference is to an object of the store. *)
Lemma setupAndStart_board_wf w st categoryIds :
  getCategoryIds array_sort (categories_reply w) (random w) = inr categoryIds ->
  (forall catId, catId ∈ categoryIds ->
     exists data, category_reply w catId = Responds 200%Z data) ->
  arrivals w ≡ₚ seq 0 (length categoryIds) ->
  board_wf (setupAndStart array_sort w st).2.
Proof.
  intros Hids Hok Hperm.
  destruct (setupAndStart_success w st categoryIds Hids Hok Hperm)
    as (cats & st2 & _ & (_ & [Hnd Hbound] & _) & ->).
  unfold board_wf, clue_refs. simpl.
  by rewrite <- list_fmap_compose in Hnd, Hbound.
Qed.

(** C2: whatever the order in which the requests of the categories
    complete, the categories of the board, and so the header cells of
    the grid from left to right, stand in the order of the identifiers
    [getCategoryIds] returned: the category at each place is the one
    loaded for the identifier at that place. *)
Theorem setupAndStart_identifier_order w st categoryIds :
  getCategoryIds array_sort (categories_reply w) (random w) = inr categoryIds ->
  (forall catId, catId ∈ categoryIds ->
     exists data, category_reply w catId = Responds 200%Z data) ->
  arrivals w ≡ₚ seq 0 (length categoryIds) ->
  exists st',
    setupAndStart array_sort w st = (Fulfilled tt, st') /\
    Forall2 (fun catId view =>
               exists data, category_reply w catId = Responds 200%Z data /\
                            view = loaded data)
            categoryIds (board_view st') /\
    Forall2 (fun catId cell =>
               exists data, category_reply w catId = Responds 200%Z data /\
                            text cell = Remote.title data)
            categoryIds (header_cells (jeopardy st')).
Proof.
  intros Hids Hok Hperm.
  destruct (setupAndStart_success w st categoryIds Hids Hok Hperm)
    as (cats & st2 & _ & (Hlen & _ & Hview) & ->).
  eexists. split; [reflexivity|]. cbn zeta.
  rewrite length_fmap in Hlen.
  assert (Hat : forall i catId cat,
            categoryIds !! i = Some catId -> cats !! i = Some cat ->
            exists data, category_reply w catId = Responds 200%Z data /\
                         category_view (heap st2) cat = loaded data).
  { intros i catId cat Hi Hcat.
    destruct (Hview i cat) as (catId' & data & Hi' & Hdata & Hv).
    - by rewrite list_lookup_fmap, Hcat.
    - exists data. split; [congruence|done]. }
  split.
  - unfold board_view. simpl.
    apply Forall2_same_length_lookup. split; [by rewrite length_fmap|].
    intros i catId view Hi (cat & -> & Hcat)%list_lookup_fmap_Some.
    destruct (Hat i catId cat Hi Hcat) as (data & ? & ?). eauto.
  - simpl. rewrite header_cells_grid.
    apply Forall2_same_length_lookup. split; [by rewrite length_fmap|].
    intros i catId cell Hi (cat & -> & Hcat)%list_lookup_fmap_Some.
    destruct (Hat i catId cat Hi Hcat) as (data & ? & Hv).
    exists data. split; [done|]. simpl. by injection Hv.
Qed.

(** C3: when the request of one of the selected categories fails, the
    whole start fails, whatever the other requests do: the failure
    notice is shown, [categories] and every clue of the board are as
    before the attempt, and the grid was not touched and stays hidden,
    so that no partial board is rendered. *)
Theorem setupAndStart_all_or_nothing w st categoryIds i catId :
  getCategoryIds array_sort (categories_reply w) (random w) = inr categoryIds ->
  arrivals w ≡ₚ seq 0 (length categoryIds) ->
  categoryIds !! i = Some catId ->
  fails (category_reply w catId) ->
  exists st',
    setupAndStart array_sort w st = (Fulfilled tt, st') /\
    alerts st' = alerts st ++ [failure_notice] /\
    categories st' = categories st /\
    (forall c r clue, clue_at st c r = Some clue -> clue_at st' c r = Some clue) /\
    jeopardy st' = jeopardy st /\
    jeopardy_shown st' = false.
Proof.
  intros Hids Hperm Hi Hfail.
  destruct (setupAndStart_failure w st) as (e & st2 & [extra ->] & ->).
  - unfold fetch_or_load_fails. rewrite Hids. eauto.
  - unfold all_complete. by rewrite Hids.
  - eexists. split; [reflexivity|]. simpl. repeat split.
    intros c r clue. unfold clue_at. simpl.
    destruct (categories st !! c) as [cat|]; [|done].
    destruct (clues cat !! r) as [ref|]; [|done].
    intros Href. rewrite lookup_app_l; [done|]. by eapply lookup_lt_Some.
Qed.

(** A failure that occurs, step by step: the [catch] block runs on a
    state where only the store may have grown. *)
Lemma setupAndStart_failure_occurs w st :
  failure_occurs array_sort w ->
  exists e st2,
    grows (with_shown false true st) st2 /\
    setupAndStart array_sort w st
    = (Fulfilled tt,
       with_alerts (alerts st ++ [failure_notice]) (with_console (console st ++ [e]) st2)).
Proof.
  unfold failure_occurs, setupAndStart.
  destruct (getCategoryIds array_sort (categories_reply w) (random w))
    as [e|categoryIds]; intros Hfail.
  - exists e, (with_shown false true st). split; [apply grows_refl|]. reflexivity.
  - destruct Hfail as (i & catId & Hin & Hi & Hfail).
    set (jobs := (fun catId => getCategory catId (category_reply w catId)) <$> categoryIds).
    assert (Hjobs : Forall allocating jobs).
    { apply Forall_fmap, Forall_forall. intros c _ s. apply getCategory_grows. }
    pose proof (await_all_grows jobs (arrivals w) (replicate (length jobs) None)
                  (with_shown false true st) Hjobs) as Hgrow.
    destruct (await_all_rejects jobs (arrivals w) (replicate (length jobs) None)
                (with_shown false true st) i
                (getCategory catId (category_reply w catId)))
      as (e & st2 & Hrun).
    + unfold jobs. by rewrite list_lookup_fmap, Hi.
    + intros s. destruct (getCategory_fails catId _ s Hfail) as [e ->]. eauto.
    + apply lookup_replicate_2. unfold jobs. rewrite length_fmap.
      by eapply lookup_lt_Some.
    + done.
    + rewrite Hrun in Hgrow. simpl in Hgrow.
      exists e, st2. split; [done|].
      unfold promise_all. cbn [final showLoadingView modify]. fold jobs.
      rewrite Hrun, catch_run. destruct Hgrow as [extra ->]. reflexivity.
Qed.

(** C6, as amended: on any failure of the fetch or of the load (the
    request of the category list fails, or the response of a failed
    category request arrives, whether or not the other responses ever
    do), [setupAndStart] shows the failure notice and logs the error;
    the loading indicator stays displayed; [categories] and the content
    of [#jeopardy] are what they were before the call, and [#jeopardy]
    is hidden, so that no grid, partial or complete, is on display. *)
Theorem setupAndStart_failure_notice w st :
  failure_occurs array_sort w ->
  exists st' e,
    setupAndStart array_sort w st = (Fulfilled tt, st') /\
    alerts st' = alerts st ++ [failure_notice] /\
    console st' = console st ++ [e] /\
    loading_shown st' = true /\
    categories st' = categories st /\
    jeopardy st' = jeopardy st /\
    jeopardy_shown st' = false.
Proof.
  intros Hfail.
  destruct (setupAndStart_failure_occurs w st Hfail) as (e & st2 & [extra ->] & ->).
  eexists _, e. split; [reflexivity|]. simpl. done.
Qed.

(** [hideLoadingView] runs at the end of the [try] block only: after a
    failure the loading indicator is still displayed. *)
Lemma setupAndStart_failure_loading w st :
  fetch_or_load_fails array_sort w ->
  all_complete array_sort w ->
  loading_shown (setupAndStart array_sort w st).2 = true.
Proof.
  intros Hfail Hperm.
  by destruct (setupAndStart_failure w st Hfail Hperm) as (e & st2 & [extra ->] & ->).
Qed.
End EngineFacts.

(** ** The board stays well formed *)

Lemma board_wf_grows st st' : grows st st' -> board_wf st -> board_wf st'.
Proof.
  intros [extra ->] [Hnd Hbound]. split; [done|].
  eapply Forall_impl; [exact Hbound|]. simpl. intros l Hl.
  rewrite length_app. lia.
Qed.

Lemma handleClick_board_wf evt st : board_wf st -> board_wf (final (handleClick evt st)).
Proof.
  unfold board_wf, clue_refs.
  by rewrite handleClick_categories, handleClick_heap_length.
Qed.

Lemma setupAndStart_keeps_board_wf array_sort w st :
  board_wf st -> board_wf (setupAndStart array_sort w st).2.
Proof.
  intros Hwf. unfold setupAndStart.
  destruct (getCategoryIds array_sort (categories_reply w) (random w)) as [e|categoryIds].
  { done. }
  unfold promise_all. cbn [final showLoadingView modify].
  set (jobs := (fun catId => getCategory catId (category_reply w catId)) <$> categoryIds).
  pose proof (await_all_grows jobs (arrivals w) (replicate (length jobs) None)
                (with_shown false true st)
                (jobs_allocating (category_reply w) categoryIds)) as Hgrow.
  pose proof (await_all_fresh (category_reply w) categoryIds (arrivals w)
                (replicate (length jobs) None) (with_shown false true st)
                (slots_fresh_nothing _ _)) as Hfresh.
  fold jobs in Hfresh.
  destruct (await_all jobs (arrivals w) (replicate (length jobs) None)
              (with_shown false true st)) as [[|cats|e] st2]; simpl in Hgrow.
  - by apply (board_wf_grows (with_shown false true st)).
  - unfold try_catch. rewrite start_tail_run. cbn zeta. cbn [final].
    destruct Hfresh as [Hnd Hbound]. unfold board_wf, clue_refs. simpl.
    by rewrite <- list_fmap_compose in Hnd, Hbound.
  - rewrite catch_run. by apply (board_wf_grows (with_shown false true st)) in Hgrow.
Qed.

(** Whatever happened on the page, no clue object is shared between two
    places of the board. *)
Lemma reachable_board_wf array_sort st : reachable array_sort st -> board_wf st.
Proof.
  induction 1 as [|w st _ IH|evt st _ IH].
  - split; [apply NoDup_nil_2|done].
  - by apply setupAndStart_keeps_board_wf.
  - by apply handleClick_board_wf.
Qed.

(** ** getCategoryIds *)

Lemma run_sort_always {R} (P : R -> Prop) (t : asking R) random i :
  always P t -> P (run_sort t random i).
Proof.
  intros Ht. revert i. induction Ht as [r Hr|k _ IH]; intros i; simpl; [done|].
  apply IH.
Qed.

Lemma always_bind {R S} (P : R -> Prop) (Q : S -> Prop) (f : R -> asking S) t :
  always P t -> (forall r, P r -> always Q (f r)) -> always Q (asking_bind f t).
Proof.
  intros Ht Hf. induction Ht as [r Hr|k _ IH]; simpl; [by apply Hf|].
  by constructor.
Qed.

Lemma always_impl {R} (P Q : R -> Prop) t :
  (forall r, P r -> Q r) -> always P t -> always Q t.
Proof.
  intros HPQ Ht. induction Ht as [r Hr|k _ IH]; constructor; auto.
Qed.

(** The sample engine rearranges the array and nothing more. *)
Lemma insert_by_permutes {A} (x : A) sorted :
  always (fun out => out ≡ₚ x :: sorted) (insert_by x sorted).
Proof.
  induction sorted as [|y rest IH]; simpl; [by constructor|].
  constructor. intros []; try by constructor.
  - eapply always_bind; [exact IH|]. intros r Hr. constructor.
    rewrite Hr. apply Permutation_swap.
  - eapply always_bind; [exact IH|]. intros r Hr. constructor.
    rewrite Hr. apply Permutation_swap.
Qed.

Lemma insertion_sort_permutes {A} (arr : list A) :
  always (fun out => out ≡ₚ arr) (insertion_sort arr).
Proof.
  induction arr as [|x rest IH]; simpl; [by constructor|].
  eapply always_bind; [exact IH|]. intros r Hr.
  eapply always_impl; [|apply insert_by_permutes].
  intros out ->. by rewrite Hr.
Qed.

(** The first [NUM_CATEGORIES] entries of a rearranged pool. *)
Lemma selection_of_permutation (pool sorted : list Remote.summary) :
  sorted ≡ₚ pool ->
  NUM_CATEGORIES <= length pool ->
  NoDup (Remote.id <$> pool) ->
  let ids := Remote.id <$> take NUM_CATEGORIES sorted in
  length ids = NUM_CATEGORIES /\ NoDup ids /\ ids ⊆ Remote.id <$> pool.
Proof.
  intros Hperm Hlen Hnd ids. unfold ids.
  assert (Hnd' : NoDup (Remote.id <$> sorted)) by (by rewrite Hperm).
  split; [|split].
  - rewrite length_fmap, length_take, (Permutation_length Hperm). lia.
  - rewrite fmap_take. eapply sublist_NoDup; [done|apply sublist_take].
  - rewrite <- Hperm, fmap_take. intros x (i & Hx & _)%elem_of_take.
    by eapply list_elem_of_lookup_2.
Qed.

Section Selection.
Variable array_sort : list Remote.summary -> asking (list Remote.summary).

(** C4, as amended: whenever the pool of the category list has at least
    N = [NUM_CATEGORIES] entries with distinct identifiers, and the
    engine's sort only rearranges the array, [getCategoryIds] returns the
    identifiers of the first N entries of the pool as the engine's sort
    has rearranged it with the comparator [() => Math.random() - 0.5]:
    exactly N identifiers, without duplicates, all of them identifiers
    of the pool. *)
Theorem getCategoryIds_distinct (data : list Remote.summary) random :
  always (fun out => out ≡ₚ data) (array_sort data) ->
  NUM_CATEGORIES <= length data ->
  NoDup (Remote.id <$> data) ->
  exists sorted ids,
    sorted = run_sort (array_sort data) random 0 /\
    sorted ≡ₚ data /\
    getCategoryIds array_sort (Responds 200%Z data) random = inr ids /\
    ids = Remote.id <$> take NUM_CATEGORIES sorted /\
    length ids = NUM_CATEGORIES /\
    NoDup ids /\
    ids ⊆ Remote.id <$> data.
Proof.
  intros Hsort Hlen Hnd.
  pose proof (run_sort_always (fun out => out ≡ₚ data) _ random 0 Hsort) as Hperm.
  eexists _, _. split; [reflexivity|]. split; [exact Hperm|].
  split; [reflexivity|]. split; [reflexivity|].
  by apply selection_of_permutation.
Qed.
End Selection.

(** *** The sort of V8 *)

Lemma find_place_bounds steps left right :
  left <= right ->
  always (fun place => left <= place <= right) (find_place steps left right).
Proof.
  revert left right. induction steps as [|steps IH]; intros left right Hle; cbn [find_place].
  { constructor. lia. }
  case_bool_decide as Hlt; [|constructor; lia].
  assert (Hmid : (right - left) / 2 < right - left) by (apply Nat.div_lt; lia).
  set (half := (right - left) / 2) in *.
  constructor. intros order. destruct (negative order).
  - eapply always_impl; [|apply IH; lia]. intros place ?. simpl in *. lia.
  - eapply always_impl; [|apply IH; lia]. intros place ?. simpl in *. lia.
Qed.

Lemma insert_pivot_permutes {A} (arr : list A) start left pivot :
  arr !! start = Some pivot -> left <= start ->
  take left arr ++ pivot :: drop left (take start arr) ++ drop (S start) arr ≡ₚ arr.
Proof.
  intros Hpivot Hleft.
  rewrite <- (take_drop_middle arr start pivot Hpivot) at 4.
  rewrite <- (take_drop left (take start arr)) at 2.
  rewrite take_take, Nat.min_l by done.
  rewrite <- app_assoc. apply Permutation_app_head.
  apply Permutation_middle.
Qed.

Lemma BinaryInsertionSort_permutes {A} todo start (arr : list A) :
  always (fun out => out ≡ₚ arr) (BinaryInsertionSort todo start arr).
Proof.
  revert start arr. induction todo as [|todo IH]; intros start arr; simpl.
  { by constructor. }
  destruct (arr !! start) as [pivot|] eqn:Hpivot; [|by constructor].
  eapply always_bind; [apply (find_place_bounds start 0 start); lia|].
  intros left [_ Hleft]. simpl in Hleft.
  eapply always_impl; [|apply IH].
  intros out ->. by apply insert_pivot_permutes.
Qed.

Lemma CountAndMakeRun_permutes {A} (arr : list A) :
  always (fun '(_, out) => out ≡ₚ arr) (CountAndMakeRun arr).
Proof.
  unfold CountAndMakeRun. destruct (length arr) as [|[|todo]]; try by constructor.
  constructor. intros order. cbn zeta.
  eapply always_bind with (P := fun _ => True).
  - generalize 2. generalize (negative order). clear.
    induction todo as [|todo IH]; intros isDescending runLength; simpl; constructor; [done|].
    intros order. case_bool_decide; [apply IH|by constructor].
  - intros runLength _. constructor. destruct (negative order); [|done].
    by rewrite reverse_Permutation, take_drop.
Qed.

(** The sort of V8 rearranges the array and nothing more. *)
Lemma v8_sort_permutes {A} (arr : list A) :
  always (fun out => out ≡ₚ arr) (v8_sort arr).
Proof.
  unfold v8_sort. case_bool_decide; [by constructor|].
  eapply always_bind; [apply CountAndMakeRun_permutes|].
  intros [runLength arr'] Harr.
  eapply always_impl; [|apply BinaryInsertionSort_permutes].
  intros out ->. done.
Qed.

Lemma asks_negative_bind {R S} (f : R -> asking S) (t : asking R) :
  asks_negative t -> (forall r, asks_negative (f r)) -> asks_negative (asking_bind f t).
Proof.
  intros Ht Hf. induction Ht as [r|k Hk _ IH]; simpl; [apply Hf|].
  constructor; [by rewrite Hk|done].
Qed.

Lemma count_run_asks_negative isDescending todo runLength :
  asks_negative (count_run isDescending todo runLength).
Proof.
  revert runLength. induction todo as [|todo IH]; intros runLength; simpl; constructor.
  - done.
  - intros order. case_bool_decide; [apply IH|constructor].
Qed.

Lemma find_place_asks_negative steps left right :
  asks_negative (find_place steps left right).
Proof.
  revert left right. induction steps as [|steps IH]; intros left right; simpl.
  { constructor. }
  case_bool_decide; constructor; [done|].
  intros order. destruct (negative order); apply IH.
Qed.

Lemma BinaryInsertionSort_asks_negative {A} todo start (arr : list A) :
  asks_negative (BinaryInsertionSort todo start arr).
Proof.
  revert start arr. induction todo as [|todo IH]; intros start arr; simpl.
  { constructor. }
  destruct (arr !! start); [|constructor].
  apply asks_negative_bind; [apply find_place_asks_negative|]. intros left. apply IH.
Qed.

(** The sort of V8 tests [order < 0] and nothing else. *)
Lemma v8_sort_asks_negative {A} (arr : list A) : asks_negative (v8_sort arr).
Proof.
  unfold v8_sort. case_bool_decide; [constructor|].
  apply asks_negative_bind.
  - unfold CountAndMakeRun. destruct (length arr) as [|[|todo]]; try constructor; [done|].
    intros order. apply asks_negative_bind; [apply count_run_asks_negative|].
    intros. constructor.
  - intros [runLength arr']. apply BinaryInsertionSort_asks_negative.
Qed.

(** The outcome of such a sort depends on the values of [Math.random()]
    only through which of them are below one half, and only on as many
    values as the sort can call the comparator. *)
Lemma run_sort_below_half {R} (t : asking R) random random' i :
  asks_negative t ->
  (forall j, j < calls t -> below_half (random (i + j)) = below_half (random' (i + j))) ->
  run_sort t random i = run_sort t random' i.
Proof.
  intros Ht. revert i. induction Ht as [r|k Hk Hsub IH]; intros i Hsame; [done|].
  cbn [run_sort].
  assert (Hnext : forall order, forall j, j < calls (k order) ->
            below_half (random (S i + j)) = below_half (random' (S i + j))).
  { intros order j Hj. replace (S i + j) with (i + S j) by lia. apply Hsame.
    cbn [calls]. destruct order; lia. }
  pose proof (Hsame 0 ltac:(cbn [calls]; lia)) as H0. rewrite Nat.add_0_r in H0.
  unfold below_half in H0.
  destruct (comparator (random i)) eqn:Hs, (comparator (random' i)) eqn:Hs';
    try discriminate H0; rewrite ?Hk; apply IH, Hnext.
Qed.

(** So it is with the selection of [getCategoryIds] in V8. *)
Lemma getCategoryIds_below_half response random random' :
  (forall j, below_half (random j) = below_half (random' j)) ->
  getCategoryIds v8_sort response random = getCategoryIds v8_sort response random'.
Proof.
  intros Hsame. destruct response as [|status data]; [done|]. unfold getCategoryIds.
  case_bool_decide; [done|].
  by rewrite (run_sort_below_half (v8_sort data) random random' 0 (v8_sort_asks_negative data)).
Qed.

(** [times] counts the sequences of [draws]. *)
Lemma times_draws d E :
  times d E = Z.of_nat (length (filter (fun v => E v = true) (draws d))).
Proof.
  revert E. induction d as [|d IH]; intros E; cbn [times draws].
  - destruct (E []) eqn:HE.
    + by rewrite filter_cons_True.
    + rewrite filter_cons_False by congruence. done.
  - rewrite !IH, filter_app, length_app, Nat2Z.inj_add.
    assert (Hmap : forall (x : Q) (l : list (list Q)),
              length (filter (fun v => E v = true) (cons x <$> l))
              = length (filter (fun v => E (x :: v) = true) l)).
    { intros x l. induction l as [|v l IHl]; [done|]. csimpl.
      destruct (E (x :: v)) eqn:HE.
      - rewrite !filter_cons_True by done. cbn [length]. by rewrite IHl.
      - rewrite !filter_cons_False by (cbn beta; congruence). done. }
    by rewrite !Hmap.
Qed.

Lemma calls_asks_negative {R} (t : asking R) :
  asks_negative t -> calls t = calls_nonzero t.
Proof.
  induction 1 as [r|k Hk _ IH]; [done|]. cbn [calls calls_nonzero].
  rewrite Hk, !IH. lia.
Qed.

Lemma times_ext d E E' : (forall v, E v = E' v) -> times d E = times d E'.
Proof.
  revert E E'. induction d as [|d IH]; intros E E' HE; cbn [times].
  - by rewrite HE.
  - rewrite (IH _ (fun v => E' ((1 # 4)%Q :: v))), (IH (fun v => E ((3 # 4)%Q :: v))
                                                     (fun v => E' ((3 # 4)%Q :: v))); auto.
Qed.

Lemma times_const d (b : bool) :
  times d (fun _ => b) = if b then (2 ^ Z.of_nat d)%Z else 0%Z.
Proof.
  induction d as [|d IH]; cbn [times]; [by destruct b|].
  rewrite IH. destruct b; [|done].
  rewrite Nat2Z.inj_succ, Z.pow_succ_r by lia. lia.
Qed.

Lemma run_sort_random_of_cons {R} (t : asking R) x v i :
  run_sort t (random_of (x :: v)) (S i) = run_sort t (random_of v) i.
Proof.
  revert i. induction t as [r|k IH]; intros i; [done|]. cbn [run_sort].
  rewrite IH. done.
Qed.

(** [times] on the outcome of a sort that tests [order < 0] only. *)
Lemma times_run_sort {R} d (t : asking R) (E : R -> bool) :
  asks_negative t -> calls t <= d ->
  times d (fun v => E (run_sort t (random_of v) 0)) = weight d t E.
Proof.
  intros Ht. revert d. induction Ht as [r|k Hk _ IH]; intros d Hd.
  - exact (times_const d (E r)).
  - destruct d as [|d]; [cbn [calls] in Hd; lia|].
    cbn [times weight].
    rewrite <- (IH Negative d), <- (IH Positive d) by (cbn [calls] in Hd; lia).
    f_equal; apply times_ext; intros v; cbn [run_sort];
      by rewrite run_sort_random_of_cons.
Qed.

Lemma times_selected_weight array_sort pool d catId :
  asks_negative (array_sort pool) -> calls (array_sort pool) <= d ->
  times_selected array_sort pool d catId = weight d (array_sort pool) (selected catId).
Proof.
  intros Ht Hd. rewrite <- (times_run_sort d _ (selected catId) Ht Hd).
  apply times_ext. intros v. reflexivity.
Qed.

(** *** The chance of a selection *)

(** The sign of the comparator when [Math.random()] is [k / 2^bits]:
    negative for the lower half of the values, zero for the one value
    [0.5], positive for the others; hence [chance]. *)
(** Some outcome is certain. *)
Lemma Pr_certain bits {R} (t : asking R) : (Pr bits t (fun _ => true) == 1)%Q.
Proof.
  induction t as [r|k IH]; cbn [Pr]; [reflexivity|].
  rewrite !IH. unfold chance. ring.
Qed.

Lemma comparator_of_draw (bits : positive) (k : Z) :
  comparator (k # 2 ^ bits)
  = match (2 * k ?= Z.pos (2 ^ bits))%Z with
    | Lt => Negative
    | Eq => Zero
    | Gt => Positive
    end.
Proof.
  unfold comparator, Qcompare. simpl.
  destruct (Z.compare_spec ((k * 2 + - (1) * Z.pos (2 ^ bits)) * 1)
                           (0 * Z.pos (2 ^ bits * 2)));
    destruct (Z.compare_spec (2 * k) (Z.pos (2 ^ bits))); try reflexivity; lia.
Qed.

Lemma chance_total bits : (chance bits Negative + chance bits Zero + chance bits Positive == 1)%Q.
Proof. unfold chance. ring. Qed.

Lemma pow2_add (k1 k2 : positive) : (2 ^ (k1 + k2) = 2 ^ k1 * 2 ^ k2)%positive.
Proof.
  apply Pos2Z.inj.
  rewrite Pos2Z.inj_mul, !Pos2Z.inj_pow, Pos2Z.inj_add, Z.pow_add_r; lia.
Qed.

(** Sums and products of dyadic rationals are dyadic; so is the chance of
    any outcome of a sort with the random comparator. *)
Lemma dyadic_0 : dyadic 0.
Proof. exists 0%Z, 1%positive. reflexivity. Qed.

Lemma dyadic_1 : dyadic 1.
Proof. exists 2%Z, 1%positive. reflexivity. Qed.

Lemma dyadic_plus a b : dyadic a -> dyadic b -> dyadic (a + b).
Proof.
  intros (m1 & k1 & H1) (m2 & k2 & H2).
  exists (m1 * Z.pos (2 ^ k2) + m2 * Z.pos (2 ^ k1))%Z, (k1 + k2)%positive.
  rewrite H1, H2. unfold Qeq, Qplus. simpl.
  rewrite pow2_add. reflexivity.
Qed.

Lemma dyadic_mult a b : dyadic a -> dyadic b -> dyadic (a * b).
Proof.
  intros (m1 & k1 & H1) (m2 & k2 & H2).
  exists (m1 * m2)%Z, (k1 + k2)%positive.
  rewrite H1, H2. unfold Qeq, Qmult. simpl.
  rewrite pow2_add. reflexivity.
Qed.

Lemma dyadic_chance bits s : dyadic (chance bits s).
Proof.
  assert (Hhalf : dyadic (1 # 2)) by (exists 1%Z, 1%positive; reflexivity).
  assert (Hbit : dyadic (1 # 2 ^ bits)) by (by exists 1%Z, bits).
  assert (Hneg : dyadic (- (1 # 2 ^ bits))) by (by exists (-1)%Z, bits).
  destruct s; simpl; auto. by apply dyadic_plus.
Qed.

Lemma Pr_dyadic bits {R} (t : asking R) E : dyadic (Pr bits t E).
Proof.
  induction t as [r|k IH]; cbn [Pr].
  - destruct (E r); [apply dyadic_1|apply dyadic_0].
  - apply dyadic_plus; [apply dyadic_plus|];
      (apply dyadic_mult; [apply dyadic_chance|apply IH]).
Qed.

Lemma total_linear {A} (a b c : Q) (f g h : A -> Q) (l : list A) :
  (total (fun x => a * f x + b * g x + c * h x) l
   == a * total f l + b * total g l + c * total h l)%Q.
Proof.
  induction l as [|x l IH]; simpl; [ring|]. rewrite IH. ring.
Qed.

Lemma total_const {A} (f : A -> Q) (p : Q) (l : list A) :
  (forall x, x ∈ l -> (f x == p)%Q) ->
  (total f l == inject_Z (Z.of_nat (length l)) * p)%Q.
Proof.
  intros Hf. induction l as [|x l IH].
  - simpl. ring.
  - cbn [total foldr length]. fold (total f l).
    rewrite IH by (intros; apply Hf; by right).
    rewrite (Hf x) by (by left).
    rewrite Nat2Z.inj_succ, <- Z.add_1_r, inject_Z_plus. ring.
Qed.

Lemma total_indicator {A} (b : A -> bool) (l : list A) :
  (total (fun x => if b x then 1 else 0) l
   == inject_Z (Z.of_nat (length (filter (fun x => b x = true) l))))%Q.
Proof.
  induction l as [|x l IH]; [reflexivity|].
  cbn [total foldr]. fold (total (fun x => if b x then 1 else 0)%Q l).
  rewrite IH. destruct (b x) eqn:Hb.
  - rewrite filter_cons_True by done. cbn [length].
    rewrite Nat2Z.inj_succ, <- Z.add_1_r, inject_Z_plus. ring.
  - rewrite filter_cons_False by congruence. ring.
Qed.

(** Of the identifiers of the pool, exactly [NUM_CATEGORIES] are selected. *)
Lemma selected_count (pool sorted : list Remote.summary) :
  sorted ≡ₚ pool ->
  NUM_CATEGORIES <= length pool ->
  NoDup (Remote.id <$> pool) ->
  length (filter (fun x => selected x sorted = true) (Remote.id <$> pool)) = NUM_CATEGORIES.
Proof.
  intros Hperm Hlen Hnd.
  destruct (selection_of_permutation pool sorted Hperm Hlen Hnd) as (Hn & Hnd' & Hsub).
  rewrite <- Hn. apply Permutation_length, NoDup_Permutation.
  - by apply NoDup_filter.
  - done.
  - intros x. rewrite list_elem_of_filter. unfold selected.
    rewrite bool_decide_eq_true. split; [tauto|]. intros Hx. split; [done|]. by apply Hsub.
Qed.

Section Bias.
Variable bits : positive.

Lemma Pr_total (pool : list Remote.summary) (t : asking (list Remote.summary)) :
  always (fun out => out ≡ₚ pool) t ->
  NUM_CATEGORIES <= length pool ->
  NoDup (Remote.id <$> pool) ->
  (total (fun x => Pr bits t (selected x)) (Remote.id <$> pool)
   == inject_Z (Z.of_nat NUM_CATEGORIES))%Q.
Proof.
  intros Ht Hlen Hnd. induction Ht as [r Hr|k _ IH].
  - cbn [Pr]. rewrite total_indicator. by rewrite selected_count.
  - cbn [Pr]. rewrite total_linear, !IH.
    pose proof (chance_total bits) as Hc.
    rewrite <- !Qmult_plus_distr_l.
    rewrite Hc. ring.
Qed.
End Bias.

(** [n] equal shares of 6, each a dyadic rational: impossible when [n] has
    a factor prime to 2 and 3. *)
Lemma no_dyadic_share (n m q : Z) (k : positive) :
  (q | n)%Z -> (1 < q)%Z -> Z.gcd q 2 = 1%Z -> Z.gcd q 3 = 1%Z ->
  (n * m = 6 * Z.pos (2 ^ k))%Z -> False.
Proof.
  intros Hq H1 H2 H3 Heq.
  assert (Hdiv : (q | 2 * (3 * Z.pos (2 ^ k)))%Z).
  { replace (2 * (3 * Z.pos (2 ^ k)))%Z with (n * m)%Z by lia.
    by apply Z.divide_mul_l. }
  apply Z.gauss in Hdiv; [|done]. apply Z.gauss in Hdiv; [|done].
  rewrite Pos2Z.inj_pow in Hdiv.
  assert (Hpow : forall j : nat, (q | 2 ^ Z.of_nat j)%Z -> False).
  { induction j as [|j IH]; intros Hj.
    - simpl in Hj. apply Z.divide_1_r_nonneg in Hj; lia.
    - rewrite Nat2Z.inj_succ, Z.pow_succ_r in Hj by lia.
      apply Z.gauss in Hj; auto. }
  apply (Hpow (Pos.to_nat k)). by rewrite positive_nat_Z.
Qed.

(** In an unbiased selection from a pool of [n] categories each has the
    chance [6 / n]. *)
Lemma unbiased_share bits (pool : list Remote.summary)
    (t : asking (list Remote.summary)) x :
  always (fun out => out ≡ₚ pool) t ->
  NUM_CATEGORIES <= length pool ->
  NoDup (Remote.id <$> pool) ->
  unbiased bits t pool ->
  x ∈ Remote.id <$> pool ->
  (inject_Z (Z.of_nat (length pool)) * Pr bits t (selected x)
   == inject_Z (Z.of_nat NUM_CATEGORIES))%Q.
Proof.
  intros Ht Hlen Hnd Hunb Hx.
  rewrite <- (Pr_total bits pool t Ht Hlen Hnd).
  rewrite <- (length_fmap Remote.id pool). symmetry.
  apply total_const. intros y Hy. by apply Hunb.
Qed.

(** Sorting with the random comparator is no unbiased selection: whatever
    the engine's sort does with the comparator, the categories of a pool
    whose size has a prime factor other than 2 and 3 are not all as likely
    to be selected. *)
Lemma random_sort_biased bits (pool : list Remote.summary)
    (t : asking (list Remote.summary)) (q : Z) :
  always (fun out => out ≡ₚ pool) t ->
  NUM_CATEGORIES <= length pool ->
  NoDup (Remote.id <$> pool) ->
  (q | Z.of_nat (length pool))%Z -> (1 < q)%Z -> Z.gcd q 2 = 1%Z -> Z.gcd q 3 = 1%Z ->
  ~ unbiased bits t pool.
Proof.
  intros Ht Hlen Hnd Hq H1 H2 H3 Hunb.
  destruct pool as [|c0 pool']; [simpl in Hlen; unfold NUM_CATEGORIES in Hlen; lia|].
  set (pool := c0 :: pool') in *.
  pose proof (unbiased_share bits pool t (Remote.id c0) Ht Hlen Hnd Hunb) as Hshare.
  destruct (Pr_dyadic bits t (selected (Remote.id c0))) as (m & k & Hp).
  rewrite Hp in Hshare. specialize (Hshare ltac:(by left)).
  unfold Qeq, Qmult, inject_Z in Hshare. simpl Qnum in Hshare. simpl Qden in Hshare.
  apply (no_dyadic_share (Z.of_nat (length pool)) m q k); try done.
  rewrite Pos.mul_1_l in Hshare. unfold NUM_CATEGORIES in Hshare.
  change (length pool) with (S (length pool')). lia.
Qed.

(** *** The sample engine

    With insertion sort the bias is plain: the first entry of the pool is
    inserted last and stays among the first six unless six comparisons in
    a row are not negative. *)
Section InsertionSortBias.
Variable bits : positive.

Lemma Pr_ext {R} (t : asking R) (E E' : R -> bool) :
  (forall r, E r = E' r) -> (Pr bits t E == Pr bits t E')%Q.
Proof.
  intros HE. induction t as [r|k IH]; cbn [Pr].
  - by rewrite HE.
  - by rewrite !IH.
Qed.

Lemma Pr_never {R} (t : asking R) : (Pr bits t (fun _ => false) == 0)%Q.
Proof.
  induction t as [r|k IH]; cbn [Pr]; [reflexivity|]. rewrite !IH. ring.
Qed.

Lemma Pr_bind_done {R S} (g : R -> S) (t : asking R) (E : S -> bool) :
  (Pr bits (asking_bind (fun r => Done (g r)) t) E == Pr bits t (fun r => E (g r)))%Q.
Proof.
  induction t as [r|k IH]; cbn [Pr asking_bind]; [reflexivity|]. by rewrite !IH.
Qed.

Lemma Pr_bind_const {R S} (P : R -> Prop) (f : R -> asking S) (t : asking R)
    (E : S -> bool) (p : Q) :
  always P t ->
  (forall r, P r -> (Pr bits (f r) E == p)%Q) ->
  (Pr bits (asking_bind f t) E == p)%Q.
Proof.
  intros Ht Hf. induction Ht as [r Hr|k _ IH]; cbn [Pr asking_bind]; [by apply Hf|].
  rewrite !IH. unfold chance. ring.
Qed.

(** Where insertion puts a new entry: among the first [k] with chance
    [1 - 1/2^k]. *)
Lemma Pr_insert_by (x : Remote.summary) (sorted : list Remote.summary) (k : nat) :
  Remote.id x ∉ Remote.id <$> sorted ->
  k <= length sorted ->
  (Pr bits (insert_by x sorted) (selected_among k (Remote.id x)) == 1 - halves k)%Q.
Proof.
  revert k. induction sorted as [|y rest IH]; intros k Hx Hk.
  - assert (k = 0) as -> by (simpl in Hk; lia). simpl. ring.
  - destruct k as [|k].
    + cbn [insert_by]. transitivity (Pr bits (insert_by x (y :: rest)) (fun _ => false)).
      * apply Pr_ext. intros r. unfold selected_among. rewrite take_0.
        apply bool_decide_eq_false. apply not_elem_of_nil.
      * rewrite Pr_never. simpl. ring.
    + cbn [insert_by Pr].
      assert (Hy : Remote.id x ≠ Remote.id y).
      { intros Heq. apply Hx. rewrite Heq. csimpl. left. }
      assert (Hrest : Remote.id x ∉ Remote.id <$> rest).
      { intros Hin. apply Hx. csimpl. by right. }
      assert (Hone : selected_among (S k) (Remote.id x) (x :: y :: rest) = true).
      { apply bool_decide_eq_true. csimpl. left. }
      rewrite Hone.
      rewrite !Pr_bind_done.
      assert (Htail : (Pr bits (insert_by x rest)
                          (fun r => selected_among (S k) (Remote.id x) (y :: r))
                       == 1 - halves k)%Q).
      { rewrite <- (IH k Hrest) by (simpl in Hk; lia).
        apply Pr_ext. intros r. unfold selected_among. csimpl.
        apply bool_decide_ext. rewrite elem_of_cons. tauto. }
      rewrite !Htail. unfold chance. cbn [halves]. ring.
Qed.

(** With insertion sort the first entry of the pool is inserted last. *)
Lemma Pr_insertion_sort_first (x : Remote.summary) (rest : list Remote.summary) :
  Remote.id x ∉ Remote.id <$> rest ->
  NUM_CATEGORIES <= length rest ->
  (Pr bits (insertion_sort (x :: rest)) (selected (Remote.id x)) == 63 # 64)%Q.
Proof.
  intros Hx Hlen. cbn [insertion_sort].
  apply (Pr_bind_const (fun r => r ≡ₚ rest)); [apply insertion_sort_permutes|].
  intros r Hr.
  change (selected (Remote.id x)) with (selected_among NUM_CATEGORIES (Remote.id x)).
  rewrite Pr_insert_by.
  - reflexivity.
  - by rewrite Hr.
  - by rewrite Hr.
Qed.
End InsertionSortBias.

(** With insertion sort no pool of more than six categories is sampled
    without bias. *)
Lemma insertion_sort_biased bits (x : Remote.summary) (rest : list Remote.summary) :
  NoDup (Remote.id <$> x :: rest) ->
  NUM_CATEGORIES <= length rest ->
  ~ unbiased bits (insertion_sort (x :: rest)) (x :: rest).
Proof.
  intros Hnd Hlen Hunb.
  assert (Hlen' : NUM_CATEGORIES <= length (x :: rest)) by (cbn [length]; lia).
  pose proof (unbiased_share bits (x :: rest) (insertion_sort (x :: rest)) (Remote.id x)
                (insertion_sort_permutes _) Hlen' Hnd Hunb ltac:(by left))
    as Hshare.
  csimpl in Hnd. apply NoDup_cons in Hnd as [Hx _].
  rewrite (Pr_insertion_sort_first bits x rest Hx Hlen) in Hshare.
  unfold Qeq, Qmult, inject_Z in Hshare. simpl Qnum in Hshare. simpl Qden in Hshare.
  unfold NUM_CATEGORIES in *. simpl length in Hshare. lia.
Qed.

(** C4, the claim as stated fails: the selection is not unbiased.  In
    V8 the sort of the seven entries of [pool7] calls the comparator at
    most 15 times.  Of the 32768 equally likely ways in which the 15
    values of [Math.random()] fall below one half or not, 31472 have
    [getCategoryIds] select the second entry of the pool and 24320 the
    last one: the last entry is left out in 8448 cases, more than six
    times as often as the second, left out in 1296, where a selection
    without bias leaves each entry out in one case of seven (4681 of
    32768).  With every value below one half the pool is reversed, and
    the first entry is the one left out. *)
Lemma getCategoryIds_biased :
  calls (v8_sort pool7) = 15 /\
  times_selected v8_sort pool7 15 2 = 31472%Z /\
  times_selected v8_sort pool7 15 7 = 24320%Z /\
  getCategoryIds v8_sort (Responds 200%Z pool7) (fun _ => (1 # 4)%Q)
  = inr [7; 6; 5; 4; 3; 2]%Z.
Proof.
  assert (Hcalls : calls (v8_sort pool7) = 15).
  { rewrite calls_asks_negative by apply v8_sort_asks_negative. vm_compute. reflexivity. }
  split; [exact Hcalls|].
  split; [|split].
  - rewrite times_selected_weight; [|apply v8_sort_asks_negative|by rewrite Hcalls].
    vm_compute. reflexivity.
  - rewrite times_selected_weight; [|apply v8_sort_asks_negative|by rewrite Hcalls].
    vm_compute. reflexivity.
  - vm_compute. reflexivity.
Qed.

(** ** The element a click changes *)

Lemma get_node_alter_node f p root :
  get_node (alter_node f p root) p = f <$> get_node root p.
Proof.
  revert root. induction p as [|i p IH]; intros root; simpl; [done|].
  rewrite list_lookup_alter_eq. destruct (children root !! i) as [k|]; simpl; [apply IH|done].
Qed.

Lemma get_node_alter_node_other f p root q :
  ~ p `prefix_of` q -> ~ q `prefix_of` p ->
  get_node (alter_node f p root) q = get_node root q.
Proof.
  revert root q. induction p as [|i p IH]; intros root q Hpq Hqp.
  - destruct Hpq. apply prefix_nil.
  - destruct q as [|j q]; [destruct Hqp; apply prefix_nil|]. simpl.
    destruct (decide (j = i)) as [->|Hne].
    + rewrite list_lookup_alter_eq. destruct (children root !! i) as [k|]; simpl; [|done].
      apply IH; intros H; [apply Hpq|apply Hqp]; by apply prefix_cons.
    + by rewrite list_lookup_alter_ne.
Qed.

Lemma alter_node_compose f g p root :
  alter_node g p (alter_node f p root) = alter_node (g ∘ f) p root.
Proof.
  revert root. induction p as [|i p IH]; intros root; simpl; [done|].
  f_equal. rewrite list_alter_alter_eq. apply list_alter_ext; [|done].
  intros k _. apply IH.
Qed.

Lemma alter_node_id p root : alter_node (fun n => n) p root = root.
Proof.
  revert root. induction p as [|i p IH]; intros root; simpl; [done|].
  destruct root as [t c x ks]; simpl. f_equal.
  rewrite (list_alter_ext _ (fun n => n) ks ks i); [|by intros; apply IH|done].
  by apply list_alter_id.
Qed.

(** The page after a click, in one step: the element and the clue. *)
Lemma handleClick_jeopardy evt st category ref clue :
  js_get (categories st) (colIndex_of evt) = Some category ->
  js_get (clues category) (rowIndex_of evt st) = Some ref ->
  heap st !! ref = Some clue ->
  jeopardy (final (handleClick evt st))
  = alter_node (fun cell =>
      match showing clue with
      | Null => addClass "question" (set_text (question clue) cell)
      | ShowingQuestion =>
          addClass "answer" (removeClass "question" (set_text (answer clue) cell))
      | ShowingAnswer => cell
      end) (target evt) (jeopardy st).
Proof.
  intros Hcat Href Hclue. rewrite handleClick_cases, Hcat, Href, Hclue.
  destruct (showing clue); simpl.
  - by rewrite alter_node_compose.
  - by rewrite !alter_node_compose.
  - symmetry. apply alter_node_id.
Qed.

(** X1: what the clicked element shows after a click that [handleClick]
    handles.  For a hidden clue its text becomes the question, its
    children are gone and it gains the class [question]; for a clue
    showing its question the text becomes the answer, the class
    [question] is removed and the class [answer] added; for a clue
    showing its answer the element is as before.  Its tag never
    changes. *)
Theorem handleClick_shows evt st category ref clue cell :
  js_get (categories st) (colIndex_of evt) = Some category ->
  js_get (clues category) (rowIndex_of evt st) = Some ref ->
  heap st !! ref = Some clue ->
  get_node (jeopardy st) (target evt) = Some cell ->
  exists cell',
    get_node (jeopardy (final (handleClick evt st))) (target evt) = Some cell' /\
    tag cell' = tag cell /\
    match showing clue with
    | Null =>
        text cell' = question clue /\ children cell' = [] /\
        (forall c, c ∈ classes cell' <-> c ∈ classes cell \/ c = "question")
    | ShowingQuestion =>
        text cell' = answer clue /\ children cell' = [] /\
        (forall c, c ∈ classes cell' <-> (c ∈ classes cell /\ c ≠ "question") \/ c = "answer")
    | ShowingAnswer => cell' = cell
    end.
Proof.
  intros Hcat Href Hclue Hcell.
  rewrite (handleClick_jeopardy evt st category ref clue Hcat Href Hclue).
  rewrite get_node_alter_node, Hcell. simpl. eexists. split; [reflexivity|].
  destruct (showing clue).
  - split; [by rewrite tag_addClass|]. unfold addClass. case_bool_decide; simpl.
    + split; [done|]. split; [done|]. intros c. split; [tauto|]. by intros [?| ->].
    + split; [done|]. split; [done|]. intros c. rewrite elem_of_app, list_elem_of_singleton. done.
  - split; [by rewrite tag_addClass|]. unfold addClass. case_bool_decide as Hin; simpl in *.
    + split; [done|]. split; [done|]. intros c. rewrite list_elem_of_filter.
      split; [tauto|]. intros [[? ?]| ->]; [done|].
      by apply list_elem_of_filter in Hin.
    + split; [done|]. split; [done|]. intros c.
      rewrite elem_of_app, list_elem_of_filter, list_elem_of_singleton. tauto.
  - done.
Qed.

(** X2: a call of [handleClick] leaves the rest of the page alone: every
    element that is neither the clicked one, nor below it, nor above it
    keeps its content, [#jeopardy] and [#loading] stay displayed or
    hidden as they were, no handler is bound, nothing is logged and no
    notice is shown. *)
Theorem handleClick_touches_target_only evt st :
  let st' := final (handleClick evt st) in
  (forall q, ~ target evt `prefix_of` q -> ~ q `prefix_of` target evt ->
     get_node (jeopardy st') q = get_node (jeopardy st) q) /\
  jeopardy_shown st' = jeopardy_shown st /\
  loading_shown st' = loading_shown st /\
  clue_handlers st' = clue_handlers st /\
  console st' = console st /\
  alerts st' = alerts st.
Proof.
  intros st'. unfold st'. rewrite handleClick_cases.
  repeat case_match; simpl; repeat split; try done;
    intros q Hpq Hqp; by rewrite !get_node_alter_node_other.
Qed.

(** X3: [fillTable] draws [NUM_QUESTIONS_PER_CAT] rows whatever the
    number of clues: for a category with no more than [r] clues it still
    draws a placeholder in row [r], and a click on that cell reads
    [category.clues[r]], which is undefined, and throws a TypeError,
    with the state unchanged. *)
Theorem fillTable_short_category st r c category :
  categories st !! c = Some category ->
  length (clues category) <= r -> r < NUM_QUESTIONS_PER_CAT ->
  let st' := final (fillTable st) in
  get_node (jeopardy st') [1; r; c] = Some (Node "td" [] "?" []) /\
  handleClick (Event [1; r; c]) st' = Throw TypeError st'.
Proof.
  intros Hcat Hshort Hr st'.
  assert (Hc : c < length (categories st)) by (by eapply lookup_lt_Some).
  destruct (grid_cell (tag (jeopardy st)) (classes (jeopardy st)) ""
              (categories st) r c Hr Hc) as [Hrow Hcell].
  assert (Hst' : st' = with_jeopardy
            (Node (tag (jeopardy st)) (classes (jeopardy st)) ""
                  [grid_head (categories st); grid_body (categories st)]) st).
  { unfold st'. by rewrite fillTable_run. }
  split; [by rewrite Hst'|].
  rewrite handleClick_cases. cbn [target].
  replace (index [[1; r; c]]) with (Z.of_nat c) by reflexivity.
  rewrite js_get_nat.
  replace (categories st') with (categories st) by (by rewrite Hst').
  rewrite Hcat.
  rewrite (closest_row (jeopardy st') 1 r c).
  - replace (index [[1; r]]) with (Z.of_nat r) by reflexivity.
    rewrite js_get_nat. by rewrite lookup_ge_None_2.
  - by rewrite Hst'.
  - rewrite Hst'. unfold has_tag. cbn [jeopardy with_jeopardy]. by rewrite Hcell.
Qed.

(** ** getCategory *)

Lemma getCategory_throws catId response st :
  fails response ->
  getCategory catId response st = Throw (getCategory_error catId response) st.
Proof.
  destruct response as [|status data]; simpl; intros Hf; [done|].
  by rewrite bool_decide_true.
Qed.

(** X4: for a response with status 200, [getCategory] returns the
    category with the title of the response and one clue object per clue
    of the response, in order, each with the question and the answer of
    the response and [showing] null; the objects are new (no two the
    same, none in the store before) and nothing else of the state
    changes. *)
Theorem getCategory_fresh_clues catId data st :
  exists cat st',
    getCategory catId (Responds 200%Z data) st = Ok cat st' /\
    category_view (heap st') cat = loaded data /\
    NoDup (clues cat) /\
    (forall l, l ∈ clues cat -> heap st !! l = None) /\
    grows st st'.
Proof.
  rewrite getCategory_ok. eexists _, _. split; [reflexivity|].
  set (cs := (fun clue => Clue (Remote.question clue) (Remote.answer clue) Null)
               <$> Remote.clues data).
  assert (Hcs : length (Remote.clues data) = length cs)
    by (unfold cs; by rewrite length_fmap).
  split; [|split; [|split]].
  - unfold category_view, loaded. cbn [title clues heap with_heap]. f_equal.
    rewrite Hcs, lookup_new_clues. unfold cs. by rewrite <- list_fmap_compose.
  - apply NoDup_seq.
  - intros l Hl%elem_of_seq. apply lookup_ge_None. lia.
  - by exists cs.
Qed.

(** ** getCategoryIds *)

(** X5: when the pool has at most [NUM_CATEGORIES] entries,
    [getCategoryIds] returns the identifiers of all of them, each as
    often as the pool has it: [slice] stops at the end of the array.
    With an empty pool the result is empty. *)
Theorem getCategoryIds_short_pool array_sort (data : list Remote.summary) random :
  always (fun out => out ≡ₚ data) (array_sort data) ->
  length data <= NUM_CATEGORIES ->
  exists ids,
    getCategoryIds array_sort (Responds 200%Z data) random = inr ids /\
    ids ≡ₚ Remote.id <$> data.
Proof.
  intros Hsort Hlen. eexists. split; [reflexivity|].
  pose proof (run_sort_always (fun out => out ≡ₚ data) _ random 0 Hsort) as Hperm.
  cbn beta in Hperm. rewrite take_ge; [by rewrite Hperm|].
  by rewrite (Permutation_length Hperm).
Qed.

(** ** setupAndStart, whatever the world *)

Lemma await_all_cases {A} (jobs : list (js A)) arrivals slots st :
  (exists st', await_all jobs arrivals slots st = (Pending, st')) \/
  (exists e st', await_all jobs arrivals slots st = (Rejected e, st')) \/
  (exists values st', await_all jobs arrivals slots st = (Fulfilled values, st')).
Proof.
  destruct (await_all jobs arrivals slots st) as [[|values|e] st']; eauto.
Qed.

Ltac page_simpl :=
  cbn beta iota zeta delta
    [fst snd final categories heap jeopardy jeopardy_shown loading_shown clue_handlers
     console alerts with_categories with_heap with_jeopardy with_shown
     with_clue_handlers with_console with_alerts].

Section Outcomes.
Variable array_sort : list Remote.summary -> asking (list Remote.summary).

(** The three ways a call of [setupAndStart] goes. *)
Lemma setupAndStart_outcomes w st :
  exists st2, grows (with_shown false true st) st2 /\
    (setupAndStart array_sort w st = (Pending, st2)
     \/ (exists e, setupAndStart array_sort w st
           = (Fulfilled tt,
              with_alerts (alerts st ++ [failure_notice])
                          (with_console (console st ++ [e]) st2)))
     \/ (exists cats, setupAndStart array_sort w st
           = (Fulfilled tt,
              let grid := Node (tag (jeopardy st)) (classes (jeopardy st)) ""
                               [grid_head cats; grid_body cats] in
              with_shown true false
                (with_clue_handlers (clue_handlers st ++ select_class "question" grid)
                   (with_jeopardy grid (with_categories cats st2)))))).
Proof.
  unfold setupAndStart.
  destruct (getCategoryIds array_sort (categories_reply w) (random w)) as [e|categoryIds].
  { exists (with_shown false true st). split; [apply grows_refl|]. right. left. by exists e. }
  unfold promise_all. cbn [final showLoadingView modify].
  set (jobs := (fun catId => getCategory catId (category_reply w catId)) <$> categoryIds).
  pose proof (await_all_grows jobs (arrivals w) (replicate (length jobs) None)
                (with_shown false true st)
                (jobs_allocating (category_reply w) categoryIds)) as Hgrow.
  destruct (await_all jobs (arrivals w) (replicate (length jobs) None)
              (with_shown false true st)) as [[|cats|e] st2]; simpl in Hgrow;
    exists st2; (split; [done|]).
  - by left.
  - right. right. exists cats. unfold try_catch. rewrite start_tail_run.
    destruct Hgrow as [extra ->]. reflexivity.
  - right. left. exists e. rewrite catch_run. destruct Hgrow as [extra ->]. reflexivity.
Qed.

(** X11: whatever the responses and the order they arrive in, a call of
    [setupAndStart] shows the notice at most once, also when several
    requests fail; it shows it exactly when it logs an error, and then
    the board and the grid are as before the call and the grid is
    hidden. *)
Theorem setupAndStart_notice_at_most_once w st :
  let st' := (setupAndStart array_sort w st).2 in
  (alerts st' = alerts st /\ console st' = console st) \/
  (exists e, alerts st' = alerts st ++ [failure_notice] /\
             console st' = console st ++ [e] /\
             categories st' = categories st /\
             jeopardy st' = jeopardy st /\
             jeopardy_shown st' = false).
Proof.
  destruct (setupAndStart_outcomes w st)
    as (st2 & [extra ->] & [-> | [[e ->] | [cats ->]]]); page_simpl.
  - by left.
  - right. by exists e.
  - by left.
Qed.

(** X12: line 175 binds [handleClick] to no element of the grid it has
    just drawn: after [fillTable] no cell has the class [question].  The
    only element of [#jeopardy] a call of [setupAndStart] can bind the
    handler to is [#jeopardy] itself, when it has that class. *)
Theorem setupAndStart_binds_no_cell w st p :
  p ∈ clue_handlers (setupAndStart array_sort w st).2 ->
  p ∈ clue_handlers st \/ (p = [] /\ "question" ∈ classes (jeopardy st)).
Proof.
  destruct (setupAndStart_outcomes w st)
    as (st2 & [extra ->] & [-> | [[e ->] | [cats ->]]]); page_simpl; auto.
  rewrite elem_of_app. intros [?|Hin]; [by left|right].
  pose proof (select_class_grid _ _ _ _ _ _ Hin) as ->. split; [done|].
  unfold select_class in Hin. apply list_elem_of_filter in Hin as [Hcls _].
  unfold has_class in Hcls. cbn [get_node classes] in Hcls.
  by apply bool_decide_eq_true in Hcls.
Qed.

(** X7: when the request of the category list fails, [setupAndStart]
    ends having changed nothing but this: the board is hidden and the
    loading indicator displayed, the error of [getCategoryIds] is logged
    and the notice shown.  No category is loaded: categories, store and
    grid are as before. *)
Theorem setupAndStart_list_failure w st :
  fails (categories_reply w) ->
  setupAndStart array_sort w st
  = (Fulfilled tt,
     with_alerts (alerts st ++ [failure_notice])
       (with_console (console st ++ [getCategoryIds_error (categories_reply w)])
          (with_shown false true st))).
Proof.
  intros Hf. unfold setupAndStart.
  destruct (categories_reply w) as [|status data]; simpl in *; [done|].
  by rewrite bool_decide_true.
Qed.

(** X6: after a start whose requests all succeed, the board is displayed
    and the loading indicator hidden, no notice is shown and nothing
    logged, there is one category per identifier, every clue of the
    board is hidden, and the clue objects of the store before the start
    are untouched. *)
Theorem setupAndStart_success_view w st categoryIds :
  getCategoryIds array_sort (categories_reply w) (random w) = inr categoryIds ->
  (forall catId, catId ∈ categoryIds ->
     exists data, category_reply w catId = Responds 200%Z data) ->
  arrivals w ≡ₚ seq 0 (length categoryIds) ->
  let st' := (setupAndStart array_sort w st).2 in
  jeopardy_shown st' = true /\
  loading_shown st' = false /\
  alerts st' = alerts st /\
  console st' = console st /\
  length (categories st') = length categoryIds /\
  (forall c r clue, clue_at st' c r = Some clue -> showing clue = Null) /\
  (forall l clue, heap st !! l = Some clue -> heap st' !! l = Some clue).
Proof.
  intros Hids Hok Hperm.
  destruct (setupAndStart_success array_sort w st categoryIds Hids Hok Hperm)
    as (cats & st2 & [extra ->] & (Hlen & _ & Hview) & ->).
  page_simpl. rewrite length_fmap in Hlen. repeat split; try done.
  - intros c r clue. unfold clue_at. page_simpl.
    destruct (cats !! c) as [cat|] eqn:Hcat; [|done].
    destruct (clues cat !! r) as [ref|] eqn:Href; [|done].
    intros Hclue.
    destruct (Hview c cat) as (catId & data & _ & _ & Hv).
    { by rewrite list_lookup_fmap, Hcat. }
    unfold category_view, loaded in Hv. injection Hv as _ Hv.
    apply (f_equal (fun l => l !! r)) in Hv.
    rewrite !list_lookup_fmap, Href in Hv. page_simpl. cbn in Hv.
    rewrite Hclue in Hv.
    destruct (Remote.clues data !! r) as [rc|]; [|done].
    cbn in Hv. by injection Hv as ->.
  - intros l clue Hl. by apply lookup_app_l_Some.
Qed.

Lemma mapM_slot_missing {A} (slots : list (option A)) i :
  slots !! i = Some None -> mapM (M := option) (fun v => v) slots = None.
Proof.
  intros Hi. apply mapM_None, Exists_exists. exists None. split; [|done].
  by eapply list_elem_of_lookup_2.
Qed.

(** The first failure to arrive rejects [Promise.all]. *)
Lemma await_all_first_failure (reply : Z -> reply Remote.detail) ids early i late slots st
    catId :
  slots !! i = Some None ->
  ids !! i = Some catId ->
  fails (reply catId) ->
  (forall j catId', j ∈ early -> ids !! j = Some catId' ->
     exists data, reply catId' = Responds 200%Z data) ->
  exists st',
    await_all ((fun catId => getCategory catId (reply catId)) <$> ids)
              (early ++ i :: late) slots st
    = (Rejected (getCategory_error catId (reply catId)), st').
Proof.
  intros Hslot Hi Hfail. revert slots st Hslot.
  induction early as [|j early IH]; intros slots st Hslot Hearly.
  - cbn [app await_all]. rewrite (mapM_slot_missing slots i Hslot).
    rewrite list_lookup_fmap, Hi. cbn [fmap option_fmap option_map].
    rewrite getCategory_throws by done. eauto.
  - cbn [app await_all]. rewrite (mapM_slot_missing slots i Hslot).
    rewrite list_lookup_fmap.
    destruct (ids !! j) as [catId'|] eqn:Hj; cbn [fmap option_fmap option_map].
    + destruct (Hearly j catId') as [data Hdata]; [by left|done|].
      rewrite Hdata, getCategory_ok. apply IH.
      * rewrite list_lookup_insert_ne; [done|]. intros ->.
        assert (catId' = catId) as -> by congruence.
        rewrite Hdata in Hfail. by apply Hfail.
      * intros j' c' Hj'. apply Hearly. by right.
    + apply IH; [done|]. intros j' c' Hj'. apply Hearly. by right.
Qed.

(** X8: the error logged by the catch block is that of the failed
    request whose response arrives first, whatever its place among the
    identifiers: [Promise.all] rejects with the first rejection. *)
Theorem setupAndStart_logs_first_failure w st categoryIds early i late catId :
  getCategoryIds array_sort (categories_reply w) (random w) = inr categoryIds ->
  arrivals w = early ++ i :: late ->
  (forall j catId', j ∈ early -> categoryIds !! j = Some catId' ->
     exists data, category_reply w catId' = Responds 200%Z data) ->
  categoryIds !! i = Some catId ->
  fails (category_reply w catId) ->
  console (setupAndStart array_sort w st).2
  = console st ++ [getCategory_error catId (category_reply w catId)].
Proof.
  intros Hids Harr Hearly Hi Hfail.
  destruct (await_all_first_failure (category_reply w) categoryIds early i late
              (replicate (length categoryIds) None) (with_shown false true st) catId)
    as [st2 Hrun]; try done.
  { apply lookup_replicate_2. by eapply lookup_lt_Some. }
  pose proof (await_all_grows _ (early ++ i :: late)
                (replicate (length categoryIds) None) (with_shown false true st)
                (jobs_allocating (category_reply w) categoryIds)) as Hgrow.
  rewrite Hrun in Hgrow. cbn [snd] in Hgrow. destruct Hgrow as [extra ->].
  unfold setupAndStart. rewrite Hids. unfold promise_all.
  rewrite length_fmap, Harr. cbn [final showLoadingView modify].
  rewrite Hrun, catch_run. reflexivity.
Qed.

(** While one response is missing and no request has failed,
    [Promise.all] stays pending. *)
Lemma await_all_pending (reply : Z -> reply Remote.detail) ids arrivals i slots st :
  slots !! i = Some None ->
  i ∉ arrivals ->
  (forall catId, catId ∈ ids -> exists data, reply catId = Responds 200%Z data) ->
  exists st',
    await_all ((fun catId => getCategory catId (reply catId)) <$> ids) arrivals slots st
    = (Pending, st').
Proof.
  intros Hslot Hi Hok. revert slots st Hslot.
  induction arrivals as [|j rest IH]; intros slots st Hslot.
  - cbn [await_all]. rewrite (mapM_slot_missing slots i Hslot). eauto.
  - cbn [await_all]. rewrite (mapM_slot_missing slots i Hslot).
    apply not_elem_of_cons in Hi as [Hne Hi].
    rewrite list_lookup_fmap.
    destruct (ids !! j) as [catId|] eqn:Hj; cbn [fmap option_fmap option_map].
    + destruct (Hok catId) as [data Hdata]; [by eapply list_elem_of_lookup_2|].
      rewrite Hdata, getCategory_ok. apply IH; [done|].
      by rewrite list_lookup_insert_ne.
    + by apply IH.
Qed.

(** X9: no request has a time limit: when the response for one of the
    selected categories never arrives and no request fails,
    [setupAndStart] stays pending, with the loading indicator displayed,
    the board hidden and unchanged, and no notice. *)
Theorem setupAndStart_waits_forever w st categoryIds i :
  getCategoryIds array_sort (categories_reply w) (random w) = inr categoryIds ->
  (forall catId, catId ∈ categoryIds ->
     exists data, category_reply w catId = Responds 200%Z data) ->
  i < length categoryIds ->
  i ∉ arrivals w ->
  exists st',
    setupAndStart array_sort w st = (Pending, st') /\
    loading_shown st' = true /\
    jeopardy_shown st' = false /\
    alerts st' = alerts st /\
    categories st' = categories st /\
    jeopardy st' = jeopardy st.
Proof.
  intros Hids Hok Hi Hnever.
  destruct (await_all_pending (category_reply w) categoryIds (arrivals w) i
              (replicate (length categoryIds) None) (with_shown false true st))
    as [st2 Hrun]; try done.
  { by apply lookup_replicate_2. }
  pose proof (await_all_grows _ (arrivals w)
                (replicate (length categoryIds) None) (with_shown false true st)
                (jobs_allocating (category_reply w) categoryIds)) as Hgrow.
  rewrite Hrun in Hgrow. cbn [snd] in Hgrow. destruct Hgrow as [extra ->].
  unfold setupAndStart. rewrite Hids. unfold promise_all.
  rewrite length_fmap. cbn [final showLoadingView modify].
  rewrite Hrun. eexists. split; [reflexivity|]. done.
Qed.

(** X10: when the service lists no category, the start succeeds with an
    empty board: no header cell and no body cell, displayed, and no
    notice. *)
Theorem setupAndStart_empty_pool w st :
  categories_reply w = Responds 200%Z [] ->
  always (fun out => out ≡ₚ []) (array_sort []) ->
  exists st',
    setupAndStart array_sort w st = (Fulfilled tt, st') /\
    categories st' = [] /\
    header_cells (jeopardy st') = [] /\
    body_cells (jeopardy st') = [] /\
    jeopardy_shown st' = true /\
    loading_shown st' = false /\
    alerts st' = alerts st.
Proof.
  intros Hreply Hsort.
  pose proof (run_sort_always (fun out => out ≡ₚ []) _ (random w) 0 Hsort) as Hperm.
  cbn beta in Hperm. apply Permutation_nil_r in Hperm.
  unfold setupAndStart, getCategoryIds. rewrite Hreply.
  rewrite bool_decide_false by (intros H; by apply H).
  rewrite Hperm. cbn [take fmap list_fmap]. unfold promise_all.
  cbn [length replicate final showLoadingView modify].
  assert (Hall : forall arrivals s,
            await_all (A := category) [] arrivals [] s = (Fulfilled [], s))
    by (intros [|? ?] ?; reflexivity).
  rewrite Hall. unfold try_catch. rewrite start_tail_run. cbn zeta. cbn [final].
  eexists. split; [reflexivity|]. page_simpl.
  rewrite header_cells_grid, body_cells_grid. cbn [fmap list_fmap].
  by rewrite join_replicate_nil.
Qed.
End Outcomes.

(** ** The page that is ready *)

(** X13: when the page is ready, whatever the markup put into
    [#jeopardy], it holds the two placeholder tables of lines 203 and
    208 and no cell, it is hidden, and no category is there.  The
    loading indicator is displayed only if the markup has an element
    [#loading]: the one line 207 adds comes after line 195 and is
    hidden. *)
Theorem boot_board h :
  let st := page (initial (boot h)) in
  jeopardy st = Node (tag (html_jeopardy h)) (classes (html_jeopardy h)) ""
                     [placeholder; placeholder] /\
  header_cells (jeopardy st) = [] /\
  body_cells (jeopardy st) = [] /\
  jeopardy_shown st = false /\
  loading_shown st = bool_decide (html_loading h ≠ []) /\
  categories st = [].
Proof.
  destruct h as [board shown loading early late]. cbn.
  repeat split. by destruct loading.
Qed.

Lemma unbound_buttons (labels : list string) :
  Forall (fun b => handlers b = []) ((fun l => Button l []) <$> labels).
Proof. apply Forall_fmap, Forall_forall. done. Qed.

(** X14: when the page is ready the first start button carries
    [setupAndStart] once for line 213, once more if it was in the markup
    when the page became ready (line 198) and once more if it was there
    when the script ran (line 186), and after these the handler of line
    217, which calls [setupAndStart] again; every other start button
    carries no handler. *)
Theorem boot_start_button h :
  exists first rest,
    buttons (initial (boot h)) = first :: rest /\
    handlers first
    = replicate (match html_buttons h, html_buttons_late h with
                 | _ :: _, _ => 3
                 | [], _ :: _ => 2
                 | [], [] => 1
                 end) Start ++ [RestartThenStart] /\
    Forall (fun b => handlers b = []) rest.
Proof.
  destruct h as [board shown loading [|l early] [|l' late]]; cbn;
    eexists _, _; (split; [reflexivity|]); (split; [reflexivity|]);
    repeat first [apply Forall_app_2 | apply Forall_cons_2 | apply Forall_nil_2
                 | apply unbound_buttons | reflexivity].
Qed.

(** ** What all the handlers of a click keep *)

Section Keeps.
Context (R : relation state) `{!PreOrder R}.

Lemma keeps_ret {A} (a : A) : keeps R (mret a).
Proof. intros st. reflexivity. Qed.

Lemma keeps_gets {A} (f : state -> A) : keeps R (gets f).
Proof. intros st. reflexivity. Qed.

Lemma keeps_bind {A B} (m : js A) (f : A -> js B) :
  keeps R m -> (forall a, keeps R (f a)) -> keeps R (m ≫= f).
Proof.
  intros Hm Hf st. unfold mbind, js_bind. specialize (Hm st).
  destruct (m st) as [a st'|e st']; simpl in *; [|done].
  etransitivity; [done|apply Hf].
Qed.

Lemma keeps_reported {A} (m : js A) : keeps R m -> keeps R (reported m).
Proof. intros Hm st. apply Hm. Qed.

Hypothesis handleClick_keeps : forall evt, keeps R (handleClick evt).

Lemma call_handlers_keeps n evt : keeps R (call_handlers n evt).
Proof.
  induction n as [|n IH]; simpl; [apply keeps_ret|].
  apply keeps_bind; [apply handleClick_keeps|done].
Qed.

Lemma bubble_keeps els evt : keeps R (bubble els evt).
Proof.
  induction els as [|el els IH]; simpl; [apply keeps_ret|].
  apply keeps_bind; [apply keeps_gets|]. intros n.
  apply keeps_bind; [apply keeps_reported, call_handlers_keeps|done].
Qed.

Lemma click_keeps p : keeps R (click p).
Proof.
  unfold click. apply keeps_bind; [apply bubble_keeps|]. intros _.
  apply keeps_bind; [apply keeps_gets|]. intros root.
  apply keeps_reported, call_handlers_keeps.
Qed.
End Keeps.

#[local] Instance same_board_preorder : PreOrder same_board.
Proof.
  split.
  - by intros st.
  - intros st1 st2 st3 [? ?] [? ?]. split; congruence.
Qed.

Lemma click_same_board p : keeps same_board (click p).
Proof.
  apply click_keeps; [apply _|]. intros evt st. split.
  - apply handleClick_categories.
  - apply handleClick_heap_length.
Qed.

#[local] Instance same_notices_preorder : PreOrder same_notices.
Proof.
  split.
  - by intros st.
  - intros st1 st2 st3 (? & ? & ? & ? & ?) (? & ? & ? & ? & ?).
    repeat split; congruence.
Qed.

Lemma handleClick_same_notices evt : keeps same_notices (handleClick evt).
Proof.
  intros st. rewrite handleClick_cases. repeat case_match; by repeat split.
Qed.

Lemma click_same_notices p : keeps same_notices (click p).
Proof. apply click_keeps; [apply _|apply handleClick_same_notices]. Qed.

(** Without a handler bound to an element, a click is handled by the
    document alone. *)
Lemma bubble_unbound els evt st :
  clue_handlers st = [] -> bubble els evt st = Ok tt st.
Proof.
  intros Hnone. induction els as [|el els IH]; [done|].
  cbn [bubble]. unfold mbind, js_bind, gets. rewrite Hnone. cbn. apply IH.
Qed.

Lemma click_delegated p st :
  clue_handlers st = [] ->
  click p st
  = Ok tt (final (call_handlers (length (delegated (jeopardy st) p)) (Event p) st)).
Proof.
  intros Hnone. unfold click, mbind, js_bind. by rewrite bubble_unbound.
Qed.

(** ** No clue object is shared, whatever overlaps *)

Lemma join_split {A B} (f : A -> list B) (l : list A) n x :
  l !! n = Some x -> mjoin (f <$> l) ≡ₚ f x ++ mjoin (f <$> delete n l).
Proof. intros Hn. by rewrite (delete_Permutation l n x Hn) at 1. Qed.

Lemma delete_insert_same {A} (l : list A) n y : delete n (<[n := y]> l) = delete n l.
Proof. revert n. induction l as [|a l IH]; intros [|n]; simpl; f_equal; auto. Qed.

Lemma join_insert {A B} (f : A -> list B) (l : list A) n y :
  n < length l -> mjoin (f <$> <[n := y]> l) ≡ₚ f y ++ mjoin (f <$> delete n l).
Proof.
  intros Hn. rewrite (join_split f (<[n := y]> l) n y) by (by apply list_lookup_insert_eq).
  by rewrite delete_insert_same.
Qed.

(** Giving up references, with a store that is no smaller. *)
Lemma refs_ok_sub sys sys' :
  system_refs sys' ⊆+ system_refs sys ->
  length (heap (page sys)) <= length (heap (page sys')) ->
  refs_ok sys -> refs_ok sys'.
Proof.
  intros Hsub Hlen [Hnd Hb]. apply submseteq_Permutation in Hsub as [k Hk].
  rewrite Hk in Hnd, Hb. apply NoDup_app in Hnd as [Hnd _].
  apply Forall_app in Hb as [Hb _].
  split; [done|]. eapply Forall_impl; [done|]. simpl. lia.
Qed.

(** A run that holds no clue object takes the place of run [n]. *)
Lemma run_refs_dropped rs n r r' :
  rs !! n = Some r -> run_refs r' = [] ->
  mjoin (run_refs <$> <[n := r']> rs) ⊆+ mjoin (run_refs <$> rs).
Proof.
  intros Hn Hr'.
  rewrite (join_insert run_refs rs n r') by (by eapply lookup_lt_Some).
  rewrite (join_split run_refs rs n r Hn), Hr'.
  by apply submseteq_inserts_l.
Qed.

Lemma refs_ok_dropped st st' btns btns' rs n r r' :
  rs !! n = Some r -> run_refs r' = [] ->
  categories st' = categories st ->
  length (heap st) <= length (heap st') ->
  refs_ok (System st btns rs) -> refs_ok (System st' btns' (<[n := r']> rs)).
Proof.
  intros Hn Hr' Hcats Hlen. apply refs_ok_sub; [|done].
  unfold system_refs, clue_refs. cbn [page runs]. rewrite Hcats.
  by apply submseteq_skips_l, (run_refs_dropped rs n r r').
Qed.

Lemma catch_block_run e st :
  final (catch_block e st)
  = with_alerts (alerts st ++ [failure_notice]) (with_console (console st ++ [e]) st).
Proof. reflexivity. Qed.

Lemma try_block_end_run values st :
  final (try_catch (try_block_end values) catch_block st)
  = let grid := Node (tag (jeopardy st)) (classes (jeopardy st)) ""
                     [grid_head values; grid_body values] in
    with_shown true false
      (with_clue_handlers (clue_handlers st ++ select_class "question" grid)
         (with_jeopardy grid (with_categories values st))).
Proof. unfold try_catch, try_block_end. by rewrite start_tail_run. Qed.

Lemma slot_refs_values (values : list category) :
  mjoin (slot_refs <$> (Some <$> values)) = mjoin (clues <$> values).
Proof. by rewrite <- list_fmap_compose. Qed.

(** [Promise.all] of run [n] settles. *)
Lemma settle_refs_ok n ids slots sys :
  n < length (runs sys) ->
  refs_ok (System (page sys) (buttons sys) (<[n := AwaitCategories ids slots]> (runs sys))) ->
  refs_ok (settle n ids slots sys).
Proof.
  intros Hn. unfold settle.
  destruct (mapM _ slots) as [values|] eqn:Hall; [|done].
  apply mapM_id_Some in Hall as ->.
  apply refs_ok_sub.
  - unfold system_refs. cbn [page runs]. rewrite try_block_end_run. cbn zeta.
    unfold clue_refs at 1. page_simpl.
    rewrite !join_insert by done. cbn [run_refs app].
    rewrite slot_refs_values. apply submseteq_inserts_l. reflexivity.
  - cbn [page]. by rewrite try_block_end_run.
Qed.

(** A category loaded into slot [i] of run [n]. *)
Lemma alloc_refs_ok sys n ids slots i t (cs : list clue) :
  refs_ok sys ->
  runs sys !! n = Some (AwaitCategories ids slots) ->
  slots !! i = Some None ->
  refs_ok (System (with_heap (heap (page sys) ++ cs) (page sys)) (buttons sys)
                  (<[n := AwaitCategories ids
                          (<[i := Some (Category t (seq (length (heap (page sys)))
                                                        (length cs)))]> slots)]>
                     (runs sys))).
Proof.
  intros [Hnd Hb] Hn Hi.
  assert (Hperm : system_refs
             (System (with_heap (heap (page sys) ++ cs) (page sys)) (buttons sys)
                     (<[n := AwaitCategories ids
                             (<[i := Some (Category t (seq (length (heap (page sys)))
                                                           (length cs)))]> slots)]>
                        (runs sys)))
           ≡ₚ seq (length (heap (page sys))) (length cs) ++ system_refs sys).
  { unfold system_refs, clue_refs. page_simpl. cbn [page runs].
    rewrite (join_insert run_refs) by (by eapply lookup_lt_Some).
    rewrite (join_split run_refs (runs sys) n _ Hn). cbn [run_refs].
    rewrite (join_insert slot_refs) by (by eapply lookup_lt_Some).
    rewrite (join_split slot_refs slots i _ Hi). cbn [slot_refs from_option clues app].
    solve_Permutation. }
  split.
  - rewrite Hperm. apply NoDup_app. split; [apply NoDup_seq|]. split; [|done].
    intros l Hl%elem_of_seq Hl'. eapply Forall_forall in Hb; [|done]. lia.
  - rewrite Hperm. cbn [page heap with_heap]. rewrite length_app.
    apply Forall_app. split.
    + apply Forall_forall. intros l Hl%elem_of_seq. lia.
    + eapply Forall_impl; [done|]. simpl. lia.
Qed.

Lemma getCategory_Throw_inv catId response st e st' :
  getCategory catId response st = Throw e st' -> st' = st.
Proof.
  destruct response as [|status data]; [by intros [= _ ->]|].
  destruct (decide (status = 200%Z)) as [->|Hne].
  - by rewrite getCategory_ok.
  - rewrite (getCategory_throws catId (Responds status data) st Hne). by intros [= _ ->].
Qed.

Lemma run_start_handler_refs_ok b h sys :
  refs_ok sys -> refs_ok (run_start_handler b h sys).
Proof.
  intros Hok. destruct h; cbn; (eapply refs_ok_sub; [| |exact Hok]); try done;
    unfold system_refs, call_setupAndStart; cbn [page runs];
    rewrite fmap_app, join_app; cbn; by rewrite !app_nil_r.
Qed.

Lemma press_refs_ok b sys sys' :
  refs_ok sys -> press b sys = Some sys' -> refs_ok sys'.
Proof.
  unfold press. destruct (buttons sys !! b) as [btn|]; [|done]. cbn.
  intros Hok [= <-]. revert sys Hok.
  induction (handlers btn) as [|h hs IH]; intros sys Hok; [done|].
  cbn. by apply IH, run_start_handler_refs_ok.
Qed.

Section InterleavingRefs.
Variable array_sort : list Remote.summary -> asking (list Remote.summary).

Lemma ids_arrive_refs_ok n response random sys sys' :
  refs_ok sys -> ids_arrive array_sort n response random sys = Some sys' -> refs_ok sys'.
Proof.
  unfold ids_arrive. intros Hok.
  destruct (runs sys !! n) as [[| | |]|] eqn:Hn; try done. intros [= <-].
  destruct (getCategoryIds array_sort response random) as [e|ids].
  - destruct sys as [st btns rs]. cbn [page buttons runs] in *.
    by apply (refs_ok_dropped st _ btns btns rs n AwaitIds).
  - apply settle_refs_ok; [by eapply lookup_lt_Some|].
    destruct sys as [st btns rs]. cbn [page buttons runs] in *.
    eapply (refs_ok_sub (System st btns rs)); [|done|done].
    unfold system_refs. cbn [page runs]. apply submseteq_skips_l.
    rewrite (join_insert run_refs) by (by eapply lookup_lt_Some).
    rewrite (join_split run_refs rs n _ Hn). cbn [run_refs].
    rewrite fmap_replicate. cbn [slot_refs from_option]. by rewrite join_replicate_nil.
Qed.

Lemma category_arrives_refs_ok n i response sys sys' :
  refs_ok sys -> category_arrives n i response sys = Some sys' -> refs_ok sys'.
Proof.
  unfold category_arrives. intros Hok.
  destruct (runs sys !! n) as [[|ids slots|outstanding|]|] eqn:Hn; try done.
  - destruct (slots !! i) as [[|]|] eqn:Hi; try done.
    destruct (ids !! i) as [catId|] eqn:Hid; [|done]. intros [= <-].
    destruct (getCategory catId response (page sys)) as [value st|e st] eqn:Hrun.
    + apply getCategory_Ok_inv in Hrun as (t & cs & -> & ->).
      apply settle_refs_ok; [by eapply lookup_lt_Some|]. cbn [page buttons runs].
      by apply alloc_refs_ok.
    + apply getCategory_Throw_inv in Hrun as ->.
      destruct sys as [st btns rs]. cbn [page buttons runs] in *.
      by apply (refs_ok_dropped st _ btns btns rs n (AwaitCategories ids slots)).
  - destruct (outstanding !! i) as [catId|]; [|done]. cbn. intros [= <-].
    destruct sys as [st btns rs]. cbn [page buttons runs] in *.
    destruct (getCategory_grows catId response st) as [extra Hgrow].
    apply (refs_ok_dropped st _ btns btns rs n (Caught outstanding)); try done.
    + by rewrite Hgrow.
    + rewrite Hgrow. cbn. rewrite length_app. lia.
Qed.

Lemma fire_refs_ok a sys sys' :
  refs_ok sys -> fire array_sort a sys = Some sys' -> refs_ok sys'.
Proof.
  intros Hok. destruct a as [b|p|n response random|n i response]; cbn [fire].
  - by apply press_refs_ok.
  - destruct (get_node _ p); [|done]. intros [= <-].
    destruct (click_same_board p (page sys)) as [Hcats Hlen].
    eapply refs_ok_sub; [| |exact Hok].
    + unfold system_refs, clue_refs. cbn [page runs]. by rewrite Hcats.
    + cbn [page]. lia.
  - by apply ids_arrive_refs_ok.
  - by apply category_arrives_refs_ok.
Qed.

Lemma play_refs_ok actions sys sys' :
  refs_ok sys -> play array_sort actions sys = Some sys' -> refs_ok sys'.
Proof.
  revert sys. induction actions as [|a rest IH]; intros sys Hok; cbn [play].
  - by intros [= <-].
  - destruct (fire array_sort a sys) as [sys1|] eqn:Hfire; [|done]. cbn.
    apply IH. by eapply fire_refs_ok.
Qed.

Lemma initial_refs_ok d : refs_ok (initial d).
Proof. split; [apply NoDup_nil_2|apply Forall_nil_2]. Qed.

(** X16: whatever the clicks on the start buttons and on the grid, and
    in whatever order the responses of the calls under way arrive, no
    clue object is shared between two places of the board and every
    reference is to an object of the store. *)
Theorem playing_board_wf h sys :
  playing array_sort h sys -> board_wf (page sys).
Proof.
  intros [actions Hplay].
  destruct (play_refs_ok actions _ _ (initial_refs_ok _) Hplay) as [Hnd Hb].
  unfold system_refs in *. apply NoDup_app in Hnd as [Hnd _].
  apply Forall_app in Hb as [Hb _]. by split.
Qed.
End InterleavingRefs.

(** ** The grid shows the board *)

Lemma board_body_rows st :
  board_body st
  = Node "tbody" [] "" (board_row (heap st) (categories st) <$> seq 0 NUM_QUESTIONS_PER_CAT).
Proof. reflexivity. Qed.

Lemma cell_of_tag c : tag (cell_of c) = "td".
Proof. by destruct c as [[q a []]|]. Qed.

Lemma cell_of_children c : children (cell_of c) = [].
Proof. by destruct c as [[q a []]|]. Qed.

Lemma cell_of_hidden c : showing c = Null -> cell_of (Some c) = Node "td" [] "?" [].
Proof. destruct c as [q a s]; simpl. by intros ->. Qed.

Lemma ancestors_1 (a : nat) : ancestors_or_self [a] = [[a]].
Proof. reflexivity. Qed.

Lemma ancestors_2 (a b : nat) : ancestors_or_self [a; b] = [[a; b]; [a]].
Proof. reflexivity. Qed.

Lemma ancestors_3 (a b c : nat) : ancestors_or_self [a; b; c] = [[a; b; c]; [a; b]; [a]].
Proof. reflexivity. Qed.

Section Shown.
Context (st : state).
Hypothesis shown : children (jeopardy st) = [grid_head (categories st); board_body st].

Lemma shown_row r :
  r < NUM_QUESTIONS_PER_CAT ->
  get_node (jeopardy st) [1; r] = Some (board_row (heap st) (categories st) r).
Proof.
  intros Hr. cbn [get_node]. rewrite shown. cbn [lookup list_lookup].
  rewrite board_body_rows. cbn [children].
  rewrite list_lookup_fmap, lookup_seq_lt by done. done.
Qed.

Lemma shown_cell r c cat :
  r < NUM_QUESTIONS_PER_CAT -> categories st !! c = Some cat ->
  get_node (jeopardy st) [1; r; c] = Some (cell_of (clue_of (heap st) cat r)).
Proof.
  intros Hr Hcat. cbn [get_node]. rewrite shown. cbn [lookup list_lookup].
  rewrite board_body_rows. cbn [children].
  rewrite list_lookup_fmap, lookup_seq_lt by done. cbn.
  by rewrite list_lookup_fmap, Hcat.
Qed.

Lemma shown_header c cat :
  categories st !! c = Some cat ->
  get_node (jeopardy st) [0; 0; c] = Some (Node "th" [] (title cat) []).
Proof.
  intros Hcat. cbn [get_node]. rewrite shown. cbn.
  by rewrite list_lookup_fmap, Hcat.
Qed.

(** The elements below [#jeopardy], by their depth. *)
Lemma shown_nodes a q n :
  get_node (jeopardy st) (a :: q) = Some n ->
  (q = [] /\ tag n ≠ "td") \/
  (exists b, q = [b] /\ tag n = "tr") \/
  (exists c cat, a = 0 /\ q = [0; c] /\ categories st !! c = Some cat /\ tag n = "th") \/
  (exists r c cat, a = 1 /\ q = [r; c] /\ r < NUM_QUESTIONS_PER_CAT /\
                   categories st !! c = Some cat /\ n = cell_of (clue_of (heap st) cat r)).
Proof.
  cbn [get_node]. rewrite shown.
  destruct a as [|[|a]]; cbn [lookup list_lookup]; [| |done].
  - destruct q as [|b q]; [intros [= <-]; by left|].
    cbn. destruct b as [|b]; [|done]. cbn.
    destruct q as [|c q]; [intros [= <-]; right; left; by exists 0|].
    cbn. rewrite list_lookup_fmap.
    destruct (categories st !! c) as [cat|] eqn:Hcat; [|done]. cbn.
    destruct q as [|? q]; [|done]. intros [= <-].
    right. right. left. by exists c, cat.
  - destruct q as [|r q]; [intros [= <-]; by left|].
    rewrite board_body_rows. cbn [get_node children].
    rewrite list_lookup_fmap.
    destruct (seq 0 NUM_QUESTIONS_PER_CAT !! r) as [r'|] eqn:Hr; [|done].
    apply lookup_seq in Hr as [-> Hr]. cbn.
    destruct q as [|c q]; [intros [= <-]; right; left; by exists r|].
    cbn. rewrite list_lookup_fmap.
    destruct (categories st !! c) as [cat|] eqn:Hcat; [|done]. cbn.
    destruct q as [|? q].
    + intros [= <-]. right. right. right. by exists r, c, cat.
    + cbn. by rewrite cell_of_children.
Qed.

Lemma shown_td q :
  q ≠ [] ->
  has_tag "td" (jeopardy st) q = true ->
  exists r c cat, q = [1; r; c] /\ r < NUM_QUESTIONS_PER_CAT /\ categories st !! c = Some cat.
Proof.
  destruct q as [|a q]; [done|]. intros _ (n & Hn & Htag)%has_tag_true.
  apply shown_nodes in Hn
    as [[-> Hno] | [(b & -> & Htr) | [(c & cat & -> & -> & _ & Hth)
                                     | (r & c & cat & -> & -> & Hr & Hcat & _)]]].
  - done.
  - congruence.
  - congruence.
  - by exists r, c, cat.
Qed.

Lemma shown_not_td q :
  q ≠ [] -> (forall r c, q ≠ [1; r; c]) -> has_tag "td" (jeopardy st) q = false.
Proof.
  intros Hq Hno. destruct (has_tag "td" (jeopardy st) q) eqn:Htd; [|done].
  apply shown_td in Htd as (r & c & cat & -> & _); [|done]. by destruct (Hno r c).
Qed.

(** The calls of the delegated handler for a click on an element. *)
Lemma shown_delegated p n :
  get_node (jeopardy st) p = Some n ->
  delegated (jeopardy st) p = match p with [1; r; c] => [p] | _ => [] end.
Proof.
  intros Hn. unfold delegated.
  destruct p as [|a q]; [done|].
  apply shown_nodes in Hn
    as [[-> Hno] | [(b & -> & Htr) | [(c & cat & -> & -> & _ & Hth)
                                     | (r & c & cat & -> & -> & Hr & Hcat & _)]]].
  - rewrite ancestors_1, filter_cons_False, filter_nil.
    + by destruct a as [|[|a]].
    + rewrite shown_not_td; done.
  - rewrite ancestors_2, !filter_cons_False, filter_nil.
    + by destruct a as [|[|a]].
    + rewrite shown_not_td; done.
    + rewrite shown_not_td; done.
  - rewrite ancestors_3, !filter_cons_False, filter_nil;
      [done|rewrite shown_not_td; done..].
  - rewrite ancestors_3, filter_cons_True.
    + rewrite !filter_cons_False, filter_nil; [done|rewrite shown_not_td; done..].
    + unfold has_tag. rewrite (shown_cell r c cat Hr Hcat). by rewrite cell_of_tag.
Qed.
End Shown.

(** Before the first game no element is a [td]. *)
Lemma placeholders_nodes root a q n :
  children root = [placeholder; placeholder] ->
  get_node root (a :: q) = Some n ->
  length q <= 1 /\ tag n ≠ "td".
Proof.
  intros Hks. cbn [get_node]. rewrite Hks.
  destruct a as [|[|a]]; cbn; [| |done];
    (destruct q as [|[|[|b]] q]; cbn;
     [intros [= <-]; split; [lia|done]| | |done];
     (destruct q; cbn; [intros [= <-]; split; [lia|done]|done])).
Qed.

Lemma placeholders_delegated root p n :
  children root = [placeholder; placeholder] ->
  get_node root p = Some n ->
  delegated root p = [].
Proof.
  intros Hks Hn. unfold delegated.
  destruct p as [|a q]; [done|].
  pose proof (placeholders_nodes root a q n Hks Hn) as [Hlen _].
  assert (Hno : forall b q' , has_tag "td" root (b :: q') = false).
  { intros b q'. unfold has_tag.
    destruct (get_node root (b :: q')) as [m|] eqn:Hm; [|done].
    apply (placeholders_nodes root b q' m Hks) in Hm as [_ Hm].
    by apply String.eqb_neq. }
  destruct q as [|b [|? ?]]; [| |simpl in Hlen; lia].
  - by rewrite ancestors_1, filter_cons_False, filter_nil by (by rewrite Hno).
  - by rewrite ancestors_2, !filter_cons_False, filter_nil by (by rewrite Hno).
Qed.

(** *** A click on a cell *)

Lemma clue_of_other (cats : list category) (h : list clue) ref clue' c r c' r' cat cat' :
  NoDup (mjoin (clues <$> cats)) ->
  cats !! c = Some cat -> clues cat !! r = Some ref ->
  cats !! c' = Some cat' -> c' ≠ c \/ r' ≠ r ->
  clue_of (<[ref := clue']> h) cat' r' = clue_of h cat' r'.
Proof.
  intros Hnd Hcat Href Hcat' Hne. unfold clue_of.
  destruct (clues cat' !! r') as [ref'|] eqn:Href'; [|done]. cbn.
  apply list_lookup_insert_ne. intros <-.
  destruct (join_lookup_inj (clues <$> cats) c r c' r' (clues cat) (clues cat') ref)
    as [-> ->]; try done.
  - by rewrite list_lookup_fmap, Hcat.
  - by rewrite list_lookup_fmap, Hcat'.
  - by destruct Hne.
Qed.

Lemma board_rows_click (cats : list category) (h : list clue) c r cat ref clue clue' F :
  NoDup (mjoin (clues <$> cats)) ->
  cats !! c = Some cat -> clues cat !! r = Some ref -> h !! ref = Some clue ->
  r < NUM_QUESTIONS_PER_CAT ->
  F (cell_of (Some clue)) = cell_of (Some clue') ->
  alter (alter_node F [c]) r (board_row h cats <$> seq 0 NUM_QUESTIONS_PER_CAT)
  = board_row (<[ref := clue']> h) cats <$> seq 0 NUM_QUESTIONS_PER_CAT.
Proof.
  intros Hnd Hcat Href Hclue Hr HF.
  assert (Hlt : ref < length h) by (by eapply lookup_lt_Some).
  apply list_eq. intros r'. destruct (decide (r' = r)) as [->|Hne].
  - rewrite list_lookup_alter_eq, !list_lookup_fmap, lookup_seq_lt by done.
    change (0 + r) with r.
    cbn [fmap option_fmap option_map]. f_equal. unfold board_row.
    cbn [alter_node tag classes text children]. f_equal.
    apply list_eq. intros c'. destruct (decide (c' = c)) as [->|Hne].
    + rewrite list_lookup_alter_eq, !list_lookup_fmap, Hcat.
      cbn [fmap option_fmap option_map alter_node]. f_equal.
      unfold clue_of. rewrite Href. cbn [mbind option_bind].
      by rewrite Hclue, list_lookup_insert_eq.
    + rewrite list_lookup_alter_ne, !list_lookup_fmap by done.
      destruct (cats !! c') as [cat'|] eqn:Hcat'; [|done].
      cbn [fmap option_fmap option_map]. do 2 f_equal. symmetry.
      apply (clue_of_other cats h ref clue' c r c' r cat cat'); auto.
  - rewrite list_lookup_alter_ne, !list_lookup_fmap by done.
    destruct (seq 0 NUM_QUESTIONS_PER_CAT !! r') as [r''|] eqn:Hr'; [|done].
    apply lookup_seq in Hr' as [-> _]. change (0 + r') with r'.
    cbn [fmap option_fmap option_map]. f_equal. unfold board_row. f_equal.
    apply list_fmap_ext. intros c' cat' Hcat'. f_equal. symmetry.
    apply (clue_of_other cats h ref clue' c r c' r' cat cat'); auto.
Qed.

(** The indices [handleClick] reads off a cell of the grid. *)
Lemma shown_cell_indices st r c cat :
  children (jeopardy st) = [grid_head (categories st); board_body st] ->
  r < NUM_QUESTIONS_PER_CAT -> categories st !! c = Some cat ->
  js_get (categories st) (colIndex_of (Event [1; r; c])) = Some cat /\
  rowIndex_of (Event [1; r; c]) st = Z.of_nat r.
Proof.
  intros Hshown Hr Hcat. split.
  - cbn [target]. replace (index [[1; r; c]]) with (Z.of_nat c) by reflexivity.
    by rewrite js_get_nat.
  - cbn [target]. rewrite (closest_row (jeopardy st) 1 r c); [done| |].
    + unfold has_tag. by rewrite (shown_row st Hshown r Hr).
    + unfold has_tag. rewrite (shown_cell st Hshown r c cat Hr Hcat).
      by rewrite cell_of_tag.
Qed.

Lemma reveal_cell_of (clue : clue) :
  match showing clue with
  | Null => addClass "question" (set_text (question clue) (cell_of (Some clue)))
  | ShowingQuestion =>
      addClass "answer" (removeClass "question" (set_text (answer clue) (cell_of (Some clue))))
  | ShowingAnswer => cell_of (Some clue)
  end
  = cell_of (Some (Clue (question clue) (answer clue) (advance (showing clue)))).
Proof. destruct clue as [q a []]; reflexivity. Qed.

Lemma handleClick_cell_shown st r c cat :
  children (jeopardy st) = [grid_head (categories st); board_body st] ->
  NoDup (clue_refs st) ->
  r < NUM_QUESTIONS_PER_CAT -> categories st !! c = Some cat ->
  let st' := final (handleClick (Event [1; r; c]) st) in
  children (jeopardy st') = [grid_head (categories st'); board_body st'].
Proof.
  intros Hshown Hnd Hr Hcat st'.
  destruct (shown_cell_indices st r c cat Hshown Hr Hcat) as [Hc Hrow].
  destruct (clues cat !! r) as [ref|] eqn:Href.
  2:{ assert (st' = st) as ->; [|done]. unfold st'.
      rewrite handleClick_cases, Hc, Hrow, js_get_nat, Href. done. }
  destruct (heap st !! ref) as [clue|] eqn:Hclue.
  2:{ assert (st' = st) as ->; [|done]. unfold st'.
      rewrite handleClick_cases, Hc, Hrow, js_get_nat, Href, Hclue. done. }
  assert (Href' : js_get (clues cat) (rowIndex_of (Event [1; r; c]) st) = Some ref)
    by (by rewrite Hrow, js_get_nat).
  pose proof (handleClick_jeopardy _ st cat ref clue Hc Href' Hclue) as Hj.
  pose proof (handleClick_heap _ st cat ref clue Hc Href' Hclue) as Hh.
  pose proof (handleClick_categories (Event [1; r; c]) st) as Hcats.
  fold st' in Hj, Hh, Hcats.
  rewrite Hj, (board_body_rows st'), Hh, Hcats. cbn [target alter_node children].
  rewrite Hshown. cbn [alter]. unfold list_alter at 1. cbn [list_alter].
  do 2 f_equal. rewrite board_body_rows. cbn [alter_node tag classes text children].
  f_equal. eapply board_rows_click; eauto. apply reveal_cell_of.
Qed.

#[local] Instance same_elsewhere_preorder : PreOrder same_elsewhere.
Proof.
  split.
  - by intros st.
  - intros st1 st2 st3 [Hc1 H1] [Hc2 H2]. split; [congruence|].
    intros l Hl. rewrite H2, H1; [done..|]. unfold clue_refs in *. by rewrite Hc1.
Qed.

Lemma handleClick_same_elsewhere evt : keeps same_elsewhere (handleClick evt).
Proof.
  intros st. split; [apply handleClick_categories|]. intros l Hl.
  destruct (js_get (categories st) (colIndex_of evt)) as [category|] eqn:Hcat.
  2:{ by rewrite handleClick_cases, Hcat. }
  destruct (js_get (clues category) (rowIndex_of evt st)) as [ref|] eqn:Href.
  2:{ by rewrite handleClick_cases, Hcat, Href. }
  destruct (heap st !! ref) as [clue|] eqn:Hclue.
  2:{ by rewrite handleClick_cases, Hcat, Href, Hclue. }
  rewrite (handleClick_heap evt st category ref clue Hcat Href Hclue).
  apply list_lookup_insert_ne. intros <-. apply Hl.
  apply js_get_Some in Hcat as [_ Hcat]. apply js_get_Some in Href as [_ Href].
  apply list_elem_of_join. exists (clues category). split.
  - by eapply list_elem_of_lookup_2.
  - apply list_elem_of_fmap. exists category. split; [done|].
    by eapply list_elem_of_lookup_2.
Qed.

Lemma click_same_elsewhere p : keeps same_elsewhere (click p).
Proof. apply click_keeps; [apply _|apply handleClick_same_elsewhere]. Qed.

Lemma call_handlers_delegated p st :
  final (call_handlers (length (match p with [1; r; c] => [p] | _ => [] end)) (Event p) st)
  = match p with
    | [1; r; c] => final (handleClick (Event p) st)
    | _ => st
    end.
Proof.
  destruct p as [|[|[|a]] [|r [|c [|d q]]]]; try reflexivity.
  cbn [length call_handlers]. unfold mbind, js_bind.
  by destruct (handleClick (Event [1; r; c]) st) as [[] st'|e st'].
Qed.

(** A click, on a page where no handler is bound to an element: one
    call of [handleClick] for a cell of the body, none for any other
    element. *)
Lemma click_shown p n st :
  display_ok st -> clue_handlers st = [] ->
  get_node (jeopardy st) p = Some n ->
  final (click p st)
  = match p with
    | [1; r; c] => final (handleClick (Event p) st)
    | _ => st
    end.
Proof.
  intros [Hshown|[_ Hwait]] Hnone Hn; rewrite click_delegated by done; cbn [final].
  - rewrite (shown_delegated st Hshown p n Hn). apply call_handlers_delegated.
  - rewrite (placeholders_delegated _ p n Hwait Hn).
    destruct p as [|[|[|a]] [|r [|c [|d q]]]]; try reflexivity.
    apply (placeholders_nodes _ _ _ _ Hwait) in Hn as [Hlen _]. simpl in Hlen. lia.
Qed.

Lemma click_display_ok p n st :
  display_ok st -> clue_handlers st = [] -> NoDup (clue_refs st) ->
  get_node (jeopardy st) p = Some n ->
  display_ok (final (click p st)).
Proof.
  intros Hdisp Hnone Hnd Hn. rewrite (click_shown p n st Hdisp Hnone Hn).
  destruct Hdisp as [Hshown|[Hcats Hwait]].
  - destruct p as [|[|[|a]] [|r [|c [|d q]]]]; try (by left).
    apply (shown_nodes st Hshown) in Hn
      as [[[=] _] | [(b & [=] & _) | [(c' & cat & [=] & _)
                                     | (r' & c' & cat & _ & [= <- <-] & Hr & Hcat & _)]]].
    left. by apply (handleClick_cell_shown st r c cat).
  - destruct p as [|[|[|a]] [|r [|c [|d q]]]]; try (by right).
    apply (placeholders_nodes _ _ _ _ Hwait) in Hn as [Hlen _]. simpl in Hlen. lia.
Qed.

(** *** The page keeps showing the board *)

Lemma display_ok_ext st st' :
  jeopardy st' = jeopardy st -> categories st' = categories st -> heap st' = heap st ->
  display_ok st -> display_ok st'.
Proof. unfold display_ok, board_body. by intros -> -> ->. Qed.

Lemma clue_of_grow (h extra : list clue) cat r :
  Forall (fun l => l < length h) (clues cat) ->
  clue_of (h ++ extra) cat r = clue_of h cat r.
Proof.
  intros Hb. unfold clue_of. destruct (clues cat !! r) as [ref|] eqn:Href; [|done]. cbn.
  apply lookup_app_l. eapply Forall_lookup_1 in Hb; [|done]. done.
Qed.

Lemma display_ok_grow st extra :
  Forall (fun l => l < length (heap st)) (clue_refs st) ->
  display_ok st -> display_ok (with_heap (heap st ++ extra) st).
Proof.
  intros Hb [Hshown|Hwait]; [left|by right].
  page_simpl. rewrite Hshown. f_equal. f_equal. unfold board_body. page_simpl. f_equal.
  apply list_fmap_ext. intros _ r _. unfold board_row. f_equal.
  apply list_fmap_ext. intros c cat Hcat. f_equal. symmetry. apply clue_of_grow.
  apply Forall_forall. intros l Hl. eapply Forall_forall in Hb; [done|].
  apply list_elem_of_join. exists (clues cat). split; [done|].
  apply list_elem_of_fmap. exists cat. split; [done|]. by eapply list_elem_of_lookup_2.
Qed.

(** The page changes in nothing the view depends on, and no run gains a
    clue object. *)
Lemma view_ok_same sys st' btns' rs' :
  jeopardy st' = jeopardy (page sys) -> categories st' = categories (page sys) ->
  heap st' = heap (page sys) -> clue_handlers st' = clue_handlers (page sys) ->
  (forall l, l ∈ mjoin (run_refs <$> rs') -> l ∈ mjoin (run_refs <$> runs sys)) ->
  view_ok sys -> view_ok (System st' btns' rs').
Proof.
  intros Hj Hc Hh Hk Hsub (Hdisp & Hnone & Hcls & Hpend). repeat split; cbn [page runs].
  - by apply (display_ok_ext (page sys)).
  - congruence.
  - by rewrite Hj.
  - intros l Hl. cbn [page runs]. rewrite Hh. by apply Hpend, Hsub.
Qed.

(** The store grows, and no run gains a clue object. *)
Lemma view_ok_grow sys extra btns' rs' :
  refs_ok sys ->
  (forall l, l ∈ mjoin (run_refs <$> rs') -> l ∈ mjoin (run_refs <$> runs sys)) ->
  view_ok sys ->
  view_ok (System (with_heap (heap (page sys) ++ extra) (page sys)) btns' rs').
Proof.
  intros [_ Hb] Hsub (Hdisp & Hnone & Hcls & Hpend). repeat split; cbn [page runs].
  - apply display_ok_grow; [|done]. unfold system_refs in Hb.
    by apply Forall_app in Hb as [Hb _].
  - done.
  - done.
  - intros l Hl. cbn [page runs]. page_simpl.
    destruct (Hpend l (Hsub l Hl)) as (c & Hc & Hs). exists c. split; [|done].
    by apply lookup_app_l_Some.
Qed.

Lemma elem_of_run_refs_insert rs n r l :
  l ∈ mjoin (run_refs <$> <[n := r]> rs) -> l ∈ run_refs r \/ l ∈ mjoin (run_refs <$> rs).
Proof. rewrite list_fmap_insert. apply elem_of_join_insert. Qed.

Lemma elem_of_run_refs_dropped rs n r l :
  run_refs r = [] ->
  l ∈ mjoin (run_refs <$> <[n := r]> rs) -> l ∈ mjoin (run_refs <$> rs).
Proof.
  intros Hr [Hl|Hl]%elem_of_run_refs_insert; [|done].
  rewrite Hr in Hl. by apply elem_of_nil in Hl.
Qed.

Lemma elem_of_run_refs rs n r l :
  rs !! n = Some r -> l ∈ run_refs r -> l ∈ mjoin (run_refs <$> rs).
Proof.
  intros Hn Hl. apply list_elem_of_join. exists (run_refs r). split; [done|].
  apply list_elem_of_fmap. exists r. split; [done|]. by eapply list_elem_of_lookup_2.
Qed.

(** Nothing of a new grid has the class [question]. *)
Lemma select_class_grid_none t c x cats :
  "question" ∉ c ->
  select_class "question" (Node t c x [grid_head cats; grid_body cats]) = [].
Proof.
  intros Hc. destruct (select_class _ _) as [|p ps] eqn:Hsel; [done|].
  assert (Hp : p ∈ select_class "question" (Node t c x [grid_head cats; grid_body cats]))
    by (rewrite Hsel; left).
  pose proof (select_class_grid _ _ _ _ _ _ Hp) as ->.
  unfold select_class in Hp. apply list_elem_of_filter in Hp as [Hcls _].
  unfold has_class in Hcls. cbn [get_node classes] in Hcls.
  by apply bool_decide_eq_true in Hcls.
Qed.

Lemma fmap_seq_const {A} (x : A) a n : (fun _ => x) <$> seq a n = replicate n x.
Proof. revert a. induction n as [|n IH]; intros a; csimpl; [done|]. by rewrite IH. Qed.

Lemma elem_of_run_refs_replace rs n r r' l :
  n < length rs -> run_refs r = [] ->
  l ∈ mjoin (run_refs <$> <[n := r]> rs) -> l ∈ mjoin (run_refs <$> <[n := r']> rs).
Proof.
  intros Hn Hr. rewrite !(join_insert run_refs) by done. rewrite Hr.
  cbn [app]. intros Hl. apply elem_of_app. by right.
Qed.

(** [Promise.all] of run [n] settles. *)
Lemma settle_view_ok n ids slots sys :
  view_ok (System (page sys) (buttons sys) (<[n := AwaitCategories ids slots]> (runs sys))) ->
  n < length (runs sys) ->
  view_ok (settle n ids slots sys).
Proof.
  intros Hview Hn. unfold settle.
  destruct (mapM _ slots) as [values|] eqn:Hall; [|done].
  apply mapM_id_Some in Hall as ->.
  destruct Hview as (Hdisp & Hnone & Hcls & Hpend). cbn [page runs] in *.
  rewrite try_block_end_run. cbn zeta.
  repeat split; cbn [page runs].
  - left. page_simpl. cbn [children]. do 2 f_equal.
    unfold board_body, grid_body. page_simpl. f_equal.
    rewrite <- (fmap_seq_const _ 0). apply list_fmap_ext. intros _ r _.
    unfold board_row. f_equal.
    apply list_fmap_ext. intros c cat Hcat. symmetry.
    unfold clue_of. destruct (clues cat !! r) as [ref|] eqn:Href; [|done]. cbn.
    destruct (Hpend ref) as (clue & Hclue & Hs); cycle 1.
    { cbn [page] in Hclue. rewrite Hclue. by apply cell_of_hidden. }
    { apply (elem_of_run_refs _ n (AwaitCategories ids (Some <$> values))).
      - by apply list_lookup_insert_eq.
      - cbn [run_refs]. rewrite slot_refs_values.
        apply list_elem_of_join. exists (clues cat).
        split; [by eapply list_elem_of_lookup_2|].
        apply list_elem_of_fmap. exists cat. split; [done|].
        by eapply list_elem_of_lookup_2. }
  - page_simpl. by rewrite Hnone, select_class_grid_none.
  - done.
  - intros l Hl. page_simpl. apply Hpend. cbn [page runs].
    by apply (elem_of_run_refs_replace _ n Returned).
Qed.

Lemma getCategory_Ok_hidden catId response st cat st' :
  getCategory catId response st = Ok cat st' ->
  exists t cs, cat = Category t (seq (length (heap st)) (length cs)) /\
               st' = with_heap (heap st ++ cs) st /\
               Forall (fun c => showing c = Null) cs.
Proof.
  destruct response as [|status data]; [discriminate|].
  destruct (decide (status = 200%Z)) as [->|Hne].
  - rewrite getCategory_ok. intros [= <- <-]. eexists _, _. split; [|split; [done|]].
    + by rewrite length_fmap.
    + apply Forall_fmap, Forall_forall. done.
  - by rewrite (getCategory_throws catId (Responds status data) st Hne).
Qed.

(** A category loaded into slot [i] of run [n]. *)
Lemma alloc_view_ok sys n ids slots i t (cs : list clue) :
  refs_ok sys -> view_ok sys ->
  runs sys !! n = Some (AwaitCategories ids slots) ->
  Forall (fun c => showing c = Null) cs ->
  view_ok (System (with_heap (heap (page sys) ++ cs) (page sys)) (buttons sys)
                  (<[n := AwaitCategories ids
                          (<[i := Some (Category t (seq (length (heap (page sys)))
                                                        (length cs)))]> slots)]>
                     (runs sys))).
Proof.
  intros [_ Hb] (Hdisp & Hnone & Hcls & Hpend) Hn Hcs. repeat split; cbn [page runs].
  - apply display_ok_grow; [|done]. unfold system_refs in Hb.
    by apply Forall_app in Hb as [Hb _].
  - done.
  - done.
  - intros l. cbn [page runs]. page_simpl.
    intros [Hl|Hl]%elem_of_run_refs_insert.
    + cbn [run_refs] in Hl. rewrite list_fmap_insert in Hl.
      apply elem_of_join_insert in Hl as [Hl|Hl].
      * cbn [slot_refs from_option clues] in Hl. apply elem_of_seq in Hl.
        rewrite lookup_app_r by lia.
        destruct (lookup_lt_is_Some_2 cs (l - length (heap (page sys)))) as [c Hc]; [lia|].
        exists c. split; [done|]. by eapply Forall_lookup_1 in Hcs.
      * destruct (Hpend l) as (c & Hc & Hs).
        { by apply (elem_of_run_refs _ n (AwaitCategories ids slots)). }
        exists c. split; [|done]. by apply lookup_app_l_Some.
    + destruct (Hpend l Hl) as (c & Hc & Hs). exists c. split; [|done].
      by apply lookup_app_l_Some.
Qed.

Lemma run_start_handler_view_ok b h sys :
  view_ok sys -> view_ok (run_start_handler b h sys).
Proof.
  intros Hok. destruct h; cbn; apply (view_ok_same sys); try done;
    cbn [runs]; intros l; rewrite fmap_app, join_app; cbn; by rewrite app_nil_r.
Qed.

Lemma press_view_ok b sys sys' :
  view_ok sys -> press b sys = Some sys' -> view_ok sys'.
Proof.
  unfold press. destruct (buttons sys !! b) as [btn|]; [|done]. cbn.
  intros Hok [= <-]. revert sys Hok.
  induction (handlers btn) as [|h hs IH]; intros sys Hok; [done|].
  cbn. by apply IH, run_start_handler_view_ok.
Qed.

Lemma handleClick_root_classes evt st :
  target evt ≠ [] ->
  classes (jeopardy (final (handleClick evt st))) = classes (jeopardy st).
Proof.
  intros Hp. rewrite handleClick_cases.
  destruct (target evt) as [|a q]; [done|].
  repeat case_match; reflexivity.
Qed.

Section InterleavingView.
Variable array_sort : list Remote.summary -> asking (list Remote.summary).

Lemma ids_arrive_view_ok n response random sys sys' :
  view_ok sys -> ids_arrive array_sort n response random sys = Some sys' -> view_ok sys'.
Proof.
  unfold ids_arrive. intros Hok.
  destruct (runs sys !! n) as [[| | |]|] eqn:Hn; try done. intros [= <-].
  destruct (getCategoryIds array_sort response random) as [e|ids].
  - apply (view_ok_same sys); try done.
    intros l. by apply elem_of_run_refs_dropped.
  - apply settle_view_ok; [|by eapply lookup_lt_Some].
    apply (view_ok_same sys); try done.
    intros l. apply elem_of_run_refs_dropped. cbn [run_refs].
    rewrite fmap_replicate. cbn [slot_refs from_option]. apply join_replicate_nil.
Qed.

Lemma category_arrives_view_ok n i response sys sys' :
  refs_ok sys -> view_ok sys ->
  category_arrives n i response sys = Some sys' -> view_ok sys'.
Proof.
  unfold category_arrives. intros Hrefs Hok.
  destruct (runs sys !! n) as [[|ids slots|outstanding|]|] eqn:Hn; try done.
  - destruct (slots !! i) as [[|]|] eqn:Hi; try done.
    destruct (ids !! i) as [catId|] eqn:Hid; [|done]. intros [= <-].
    destruct (getCategory catId response (page sys)) as [value st|e st] eqn:Hrun.
    + apply getCategory_Ok_hidden in Hrun as (t & cs & -> & -> & Hcs).
      apply settle_view_ok; [|by eapply lookup_lt_Some]. cbn [page buttons runs].
      by apply alloc_view_ok.
    + apply getCategory_Throw_inv in Hrun as ->.
      apply (view_ok_same sys); try done.
      intros l. by apply elem_of_run_refs_dropped.
  - destruct (outstanding !! i) as [catId|]; [|done]. cbn. intros [= <-].
    destruct (getCategory_grows catId response (page sys)) as [extra ->].
    apply view_ok_grow; try done.
    intros l. by apply elem_of_run_refs_dropped.
Qed.

Lemma click_view_ok p n sys :
  refs_ok sys -> view_ok sys ->
  get_node (jeopardy (page sys)) p = Some n ->
  view_ok (System (final (click p (page sys))) (buttons sys) (runs sys)).
Proof.
  intros [Hnd _] (Hdisp & Hnone & Hcls & Hpend) Hn.
  unfold system_refs in Hnd. apply NoDup_app in Hnd as (Hnd & Hdisj & _).
  repeat split; cbn [page runs].
  - by apply (click_display_ok p n).
  - destruct (click_same_notices p (page sys)) as (_ & _ & _ & _ & ->). done.
  - rewrite (click_shown p n (page sys)) by done.
    destruct p as [|[|[|a]] [|r [|c [|d q]]]]; try done.
    by rewrite handleClick_root_classes.
  - intros l Hl. cbn [page runs] in *.
    destruct (click_same_elsewhere p (page sys)) as [_ Hheap].
    rewrite Hheap; [by apply Hpend|]. intros Hin. by apply (Hdisj l).
Qed.

Lemma fire_view_ok a sys sys' :
  refs_ok sys -> view_ok sys -> fire array_sort a sys = Some sys' -> view_ok sys'.
Proof.
  intros Hrefs Hok. destruct a as [b|p|n response random|n i response]; cbn [fire].
  - by apply press_view_ok.
  - destruct (get_node _ p) as [m|] eqn:Hm; [|done]. intros [= <-].
    by apply (click_view_ok p m).
  - by apply ids_arrive_view_ok.
  - by apply category_arrives_view_ok.
Qed.

Lemma play_view_ok actions sys sys' :
  refs_ok sys -> view_ok sys -> play array_sort actions sys = Some sys' -> view_ok sys'.
Proof.
  revert sys. induction actions as [|a rest IH]; intros sys Hrefs Hok; cbn [play].
  - by intros [= <-].
  - destruct (fire array_sort a sys) as [sys1|] eqn:Hfire; [|done]. cbn.
    apply IH; [by eapply fire_refs_ok|by eapply fire_view_ok].
Qed.

Lemma initial_view_ok h :
  "question" ∉ classes (html_jeopardy h) -> view_ok (initial (boot h)).
Proof.
  intros Hcls. repeat split.
  - right. by destruct h.
  - by destruct h.
  - intros l Hl. by apply elem_of_nil in Hl.
Qed.

Lemma playing_view_ok h sys :
  "question" ∉ classes (html_jeopardy h) ->
  playing array_sort h sys -> refs_ok sys /\ view_ok sys.
Proof.
  intros Hcls [actions Hplay]. split.
  - by apply (play_refs_ok array_sort actions _ _ (initial_refs_ok (boot h))).
  - apply (play_view_ok actions _ _ (initial_refs_ok (boot h)) (initial_view_ok h Hcls) Hplay).
Qed.

Lemma clue_at_clue_of st c r cat :
  categories st !! c = Some cat -> clue_at st c r = clue_of (heap st) cat r.
Proof. intros Hcat. unfold clue_at, clue_of. rewrite Hcat. by destruct (clues cat !! r). Qed.

(** X17: on a page whose [#jeopardy] does not itself have the class
    [question], whatever the clicks and the order of the responses, the
    grid shows the board as it stands: the header cell of column [c]
    shows the title of [categories[c]], and the cell of row [r] and
    column [c] shows the placeholder, the question or the answer of
    [categories[c].clues[r]] according to its [showing]. *)
Theorem playing_shows_board h sys c r cat :
  "question" ∉ classes (html_jeopardy h) ->
  playing array_sort h sys ->
  categories (page sys) !! c = Some cat ->
  r < NUM_QUESTIONS_PER_CAT ->
  get_node (jeopardy (page sys)) [0; 0; c] = Some (Node "th" [] (title cat) []) /\
  get_node (jeopardy (page sys)) [1; r; c] = Some (cell_of (clue_at (page sys) c r)).
Proof.
  intros Hcls Hplay Hcat Hr.
  destruct (playing_view_ok h sys Hcls Hplay) as [_ ([Hshown|[Hno _]] & _)].
  - split; [by apply shown_header|].
    rewrite (clue_at_clue_of _ c r cat Hcat). by apply shown_cell.
  - by rewrite Hno in Hcat.
Qed.

(** X18: on such a page a click on a cell of the body is handled by
    exactly one call of [handleClick], so that a clue advances by one
    step per click, and a click on any other element of [#jeopardy] by
    none: the handler of line 190 is the only one that ever runs. *)
Theorem playing_click_handled_once h sys p sys' :
  "question" ∉ classes (html_jeopardy h) ->
  playing array_sort h sys ->
  fire array_sort (Click p) sys = Some sys' ->
  page sys' = match p with
              | [1; r; c] => final (handleClick (Event p) (page sys))
              | _ => page sys
              end.
Proof.
  intros Hcls Hplay. cbn [fire].
  destruct (get_node _ p) as [n|] eqn:Hn; [|done]. intros [= <-]. cbn [page].
  destruct (playing_view_ok h sys Hcls Hplay) as [_ (Hdisp & Hnone & _)].
  by apply (click_shown p n).
Qed.
End InterleavingView.

(** ** One notice for a failed call *)

Lemma caught_runs_insert rs n r r' :
  rs !! n = Some r ->
  caught_runs (<[n := r']> rs) + (if caught r then 1 else 0)
  = caught_runs rs + (if caught r' then 1 else 0).
Proof.
  unfold caught_runs. revert n. induction rs as [|x rs IH]; intros [|n] Hn; try done.
  - injection Hn as ->. change (<[0 := r']> (r :: rs)) with (r' :: rs).
    rewrite !filter_cons.
    destruct (caught r), (caught r'); repeat case_decide; try done; cbn [length]; lia.
  - change (<[S n := r']> (x :: rs)) with (x :: <[n := r']> rs).
    cbn in Hn. specialize (IH n Hn).
    rewrite !filter_cons. case_decide; cbn [length]; lia.
Qed.

Lemma caught_runs_app rs rs' : caught_runs (rs ++ rs') = caught_runs rs + caught_runs rs'.
Proof. unfold caught_runs. by rewrite filter_app, length_app. Qed.

(** The page announces nothing, and the run [n] goes on or returns. *)
Lemma notices_ok_same sys st' btns' n r r' :
  runs sys !! n = Some r -> caught r = false -> caught r' = false ->
  alerts st' = alerts (page sys) -> console st' = console (page sys) ->
  notices_ok sys -> notices_ok (System st' btns' (<[n := r']> (runs sys))).
Proof.
  intros Hn Hr Hr' Ha Hc [Hal Hco]. unfold notices_ok. cbn [page runs].
  pose proof (caught_runs_insert (runs sys) n r r' Hn) as Hcount.
  rewrite Hr, Hr' in Hcount. rewrite Ha, Hc.
  replace (caught_runs (<[n := r']> (runs sys))) with (caught_runs (runs sys)) by lia.
  done.
Qed.

(** The catch block of run [n] runs. *)
Lemma notices_ok_caught sys st btns' n r e outstanding :
  runs sys !! n = Some r -> caught r = false ->
  alerts st = alerts (page sys) -> console st = console (page sys) ->
  notices_ok sys ->
  notices_ok (System (final (catch_block e st)) btns' (<[n := Caught outstanding]> (runs sys))).
Proof.
  intros Hn Hr Ha Hc [Hal Hco]. unfold notices_ok. cbn [page runs].
  pose proof (caught_runs_insert (runs sys) n r (Caught outstanding) Hn) as Hcount.
  rewrite Hr in Hcount. cbn [caught] in Hcount.
  replace (caught_runs (<[n := Caught outstanding]> (runs sys)))
    with (S (caught_runs (runs sys))) by lia.
  rewrite catch_block_run. page_simpl. rewrite Ha, Hc, length_app, Hal, Hco. cbn [length].
  split; [by rewrite replicate_S_end|lia].
Qed.

Lemma settle_notices_ok n ids slots sys st r :
  runs sys !! n = Some r -> caught r = false ->
  alerts st = alerts (page sys) -> console st = console (page sys) ->
  notices_ok sys ->
  notices_ok (settle n ids slots (System st (buttons sys) (runs sys))).
Proof.
  intros Hn Hr Ha Hc Hok. unfold settle. cbn [page buttons runs].
  destruct (mapM _ slots) as [values|].
  - apply (notices_ok_same sys _ _ n r); try done; by rewrite try_block_end_run.
  - by apply (notices_ok_same sys _ _ n r).
Qed.

Lemma run_start_handler_notices_ok b h sys :
  notices_ok sys -> notices_ok (run_start_handler b h sys).
Proof.
  intros [Hal Hco].
  destruct h; unfold notices_ok, run_start_handler, call_setupAndStart; cbn [page runs];
    rewrite caught_runs_app; cbn; by rewrite Nat.add_0_r.
Qed.

Lemma press_notices_ok b sys sys' :
  notices_ok sys -> press b sys = Some sys' -> notices_ok sys'.
Proof.
  unfold press. destruct (buttons sys !! b) as [btn|]; [|done]. cbn.
  intros Hok [= <-]. revert sys Hok.
  induction (handlers btn) as [|h hs IH]; intros sys Hok; [done|].
  cbn. by apply IH, run_start_handler_notices_ok.
Qed.

Section InterleavingNotices.
Variable array_sort : list Remote.summary -> asking (list Remote.summary).

Lemma fire_notices_ok a sys sys' :
  notices_ok sys -> fire array_sort a sys = Some sys' -> notices_ok sys'.
Proof.
  intros Hok. destruct a as [b|p|n response random|n i response]; cbn [fire].
  - by apply press_notices_ok.
  - destruct (get_node _ p); [|done]. intros [= <-].
    destruct (click_same_notices p (page sys)) as (Ha & Hc & _).
    destruct Hok as [Hal Hco]. unfold notices_ok. cbn [page runs]. by rewrite Ha, Hc.
  - unfold ids_arrive.
    destruct (runs sys !! n) as [[| | |]|] eqn:Hn; try done. intros [= <-].
    destruct (getCategoryIds array_sort response random) as [e|ids].
    + by apply (notices_ok_caught sys _ _ n AwaitIds).
    + destruct sys as [st btns rs].
      by apply (settle_notices_ok n ids _ (System st btns rs) st AwaitIds).
  - unfold category_arrives.
    destruct (runs sys !! n) as [[|ids slots|outstanding|]|] eqn:Hn; try done.
    + destruct (slots !! i) as [[|]|] eqn:Hi; try done.
      destruct (ids !! i) as [catId|] eqn:Hid; [|done]. intros [= <-].
      destruct (getCategory_grows catId response (page sys)) as [extra Hgrow].
      destruct (getCategory catId response (page sys)) as [value st|e st] eqn:Hrun;
        cbn [final] in Hgrow; subst st.
      * by apply (settle_notices_ok n ids _ sys
                    (with_heap (heap (page sys) ++ extra) (page sys))
                    (AwaitCategories ids slots)).
      * by apply (notices_ok_caught sys (with_heap (heap (page sys) ++ extra) (page sys))
                    _ n (AwaitCategories ids slots)).
    + destruct (outstanding !! i) as [catId|]; [|done]. cbn. intros [= <-].
      destruct (getCategory_grows catId response (page sys)) as [extra ->].
      destruct Hok as [Hal Hco]. unfold notices_ok. cbn [page runs]. page_simpl.
      pose proof (caught_runs_insert (runs sys) n _ (Caught (delete i outstanding)) Hn)
        as Hcount. cbn [caught] in Hcount.
      replace (caught_runs (<[n := Caught (delete i outstanding)]> (runs sys)))
        with (caught_runs (runs sys)) by lia.
      done.
Qed.

(** X19: whatever overlaps, the notice has been shown exactly once, and
    one error logged, for each call of [setupAndStart] whose catch block
    has run, and never for another reason. *)
Theorem playing_notices h sys :
  playing array_sort h sys ->
  alerts (page sys) = replicate (caught_runs (runs sys)) failure_notice /\
  length (console (page sys)) = caught_runs (runs sys).
Proof.
  intros [actions Hplay].
  assert (Hinit : notices_ok (initial (boot h))) by done.
  revert Hplay Hinit. generalize (initial (boot h)). revert sys.
  induction actions as [|a rest IH]; intros sys sys0; cbn [play].
  - by intros [= <-].
  - destruct (fire array_sort a sys0) as [sys1|] eqn:Hfire; [|done]. cbn.
    intros Hplay Hok. apply (IH sys sys1 Hplay). by eapply fire_notices_ok.
Qed.
End InterleavingNotices.

(** ** The handlers of the start buttons *)

Lemma boot_first_button h :
  exists first rest,
    buttons (initial (boot h)) = first :: rest /\
    handlers first
    = replicate (match html_buttons h, html_buttons_late h with
                 | _ :: _, _ => 3
                 | [], _ :: _ => 2
                 | [], [] => 1
                 end) Start ++ [RestartThenStart].
Proof.
  destruct h as [board shown loading [|l early] [|l' late]]; cbn;
    eexists _, _; (split; reflexivity).
Qed.

(** A click on a start button that carries [setupAndStart] only. *)
Lemma foldl_starts (b : nat) (k : nat) (sys : system) :
  foldl (fun sys h => run_start_handler b h sys) sys (replicate k Start)
  = System (if k is 0 then page sys else with_shown false true (page sys))
           (buttons sys) (runs sys ++ replicate k AwaitIds).
Proof.
  revert sys. induction k as [|k IH]; intros sys.
  - destruct sys. cbn. by rewrite app_nil_r.
  - cbn [replicate foldl]. rewrite IH. cbn.
    rewrite <- app_assoc. destruct k; reflexivity.
Qed.

Lemma press_handlers b sys sys' :
  press b sys = Some sys' -> handlers <$> buttons sys' = handlers <$> buttons sys.
Proof.
  unfold press. destruct (buttons sys !! b) as [btn|]; [|done]. cbn. intros [= <-].
  revert sys. induction (handlers btn) as [|h hs IH]; intros sys; [done|].
  cbn [foldl]. rewrite IH. destruct h; cbn; [done|].
  apply list_eq. intros k. rewrite !list_lookup_fmap.
  destruct (decide (k = b)) as [->|Hne].
  - rewrite list_lookup_alter_eq. by destruct (buttons sys !! b).
  - by rewrite list_lookup_alter_ne.
Qed.

Lemma settle_buttons n ids slots sys : buttons (settle n ids slots sys) = buttons sys.
Proof. unfold settle. by destruct (mapM _ slots). Qed.

Section InterleavingButtons.
Variable array_sort : list Remote.summary -> asking (list Remote.summary).

Lemma fire_handlers a sys sys' :
  fire array_sort a sys = Some sys' -> handlers <$> buttons sys' = handlers <$> buttons sys.
Proof.
  destruct a as [b|p|n response random|n i response]; cbn [fire].
  - apply press_handlers.
  - destruct (get_node _ p); [|done]. by intros [= <-].
  - unfold ids_arrive.
    destruct (runs sys !! n) as [[| | |]|]; try done. intros [= <-].
    destruct (getCategoryIds array_sort response random); [done|].
    by rewrite settle_buttons.
  - unfold category_arrives.
    destruct (runs sys !! n) as [[|ids slots|outstanding|]|]; try done.
    + destruct (slots !! i) as [[|]|]; try done.
      destruct (ids !! i) as [catId|]; [|done]. intros [= <-].
      destruct (getCategory catId response (page sys)); [|done].
      by rewrite settle_buttons.
    + destruct (outstanding !! i); [|done]. cbn. by intros [= <-].
Qed.

Lemma playing_handlers h sys :
  playing array_sort h sys ->
  handlers <$> buttons sys = handlers <$> buttons (initial (boot h)).
Proof.
  intros [actions Hplay]. revert Hplay. generalize (initial (boot h)). revert sys.
  induction actions as [|a rest IH]; intros sys sys0; cbn [play].
  - by intros [= <-].
  - destruct (fire array_sort a sys0) as [sys1|] eqn:Hfire; [|done]. cbn.
    intros Hplay. rewrite (IH sys sys1 Hplay). by eapply fire_handlers.
Qed.

(** X15: whatever happened on the page before, a click on the first
    start button calls [setupAndStart] at least twice: that many
    requests for the category list go out at once; the board is hidden,
    the loading indicator displayed, and the button reads Restart. *)
Theorem press_calls_setupAndStart_twice h sys :
  playing array_sort h sys ->
  exists sys' calls,
    fire array_sort (Press 0) sys = Some sys' /\
    2 <= calls /\
    runs sys' = runs sys ++ replicate calls AwaitIds /\
    jeopardy_shown (page sys') = false /\
    loading_shown (page sys') = true /\
    label <$> buttons sys' !! 0 = Some "Restart".
Proof.
  intros Hplay. apply playing_handlers in Hplay.
  destruct (boot_first_button h) as (first & rest & Hfirst & Hhandlers).
  rewrite Hfirst in Hplay. cbn [fmap list_fmap] in Hplay.
  destruct (buttons sys) as [|btn btns] eqn:Hbtns; [done|].
  cbn [fmap list_fmap] in Hplay. injection Hplay as Hbtn _.
  rewrite Hhandlers in Hbtn.
  set (k := match html_buttons h, html_buttons_late h with
            | _ :: _, _ => 3
            | [], _ :: _ => 2
            | [], [] => 1
            end) in *.
  assert (Hk : 1 <= k) by (unfold k; repeat case_match; lia).
  cbn [fire]. unfold press. rewrite Hbtns. cbn [lookup list_lookup mbind option_bind].
  rewrite Hbtn, foldl_app, foldl_starts. cbn [foldl run_start_handler].
  eexists _, (S k). split; [reflexivity|]. cbn [page buttons runs call_setupAndStart].
  split; [lia|]. split; [by rewrite <- app_assoc, <- replicate_S_end|].
  rewrite Hbtns. destruct k; [lia|]. done.
Qed.
End InterleavingButtons.

(** ** A call that nothing interrupts *)

Section Alone.
Variable array_sort : list Remote.summary -> asking (list Remote.summary).
Variable reply : Z -> reply Remote.detail.
Variable ids : list Z.
Hypothesis replies_ok :
  forall catId, catId ∈ ids -> exists data, reply catId = Responds 200%Z data.

Lemma alone_categories btns n arrivals slots st rs :
  n < length rs ->
  NoDup arrivals ->
  (forall i, slots !! i = Some None <-> i ∈ arrivals) ->
  length slots = length ids ->
  play array_sort
       ((fun i => CategoryArrives n i (from_option reply Rejects (ids !! i))) <$> arrivals)
       (settle n ids slots (System st btns rs))
  = match await_all ((fun catId => getCategory catId (reply catId)) <$> ids)
                    arrivals slots st with
    | (Fulfilled values, st') =>
        Some (System (final (try_catch (try_block_end values) catch_block st')) btns
                     (<[n := Returned]> rs))
    | _ => None
    end.
Proof.
  intros Hn. revert slots st rs Hn.
  induction arrivals as [|i rest IH]; intros slots st rs Hn Hnd Hslots Hlen.
  - cbn [fmap list_fmap play await_all]. unfold settle. cbn [page buttons runs].
    destruct (mapM _ slots) as [values|] eqn:Hall; [done|].
    apply mapM_None, Exists_exists in Hall as (slot & Hin & ->).
    apply list_elem_of_lookup_1 in Hin as [j Hj].
    by apply Hslots, elem_of_nil in Hj.
  - assert (Hi : slots !! i = Some None) by (apply Hslots; left).
    apply NoDup_cons in Hnd as [Hfresh Hnd].
    destruct (lookup_lt_is_Some_2 ids i) as [catId Hid].
    { rewrite <- Hlen. by eapply lookup_lt_Some. }
    destruct (replies_ok catId) as [data Hdata]; [by eapply list_elem_of_lookup_2|].
    cbn [fmap list_fmap play await_all]. unfold settle at 1. cbn [page buttons runs].
    rewrite (mapM_slot_missing slots i Hi).
    cbn [fire]. unfold category_arrives. cbn [page buttons runs].
    rewrite list_lookup_insert_eq by done. rewrite Hi, Hid. cbn [from_option].
    rewrite list_lookup_fmap, Hid. cbn [fmap option_fmap option_map].
    rewrite Hdata, getCategory_ok. cbn [mbind option_bind].
    rewrite IH.
    + by rewrite list_insert_insert_eq.
    + by rewrite length_insert.
    + done.
    + intros j. destruct (decide (j = i)) as [->|Hne].
      * rewrite list_lookup_insert_eq by (by eapply lookup_lt_Some).
        split; [done|]. intros Hin. by destruct Hfresh.
      * rewrite list_lookup_insert_ne by done. rewrite Hslots, elem_of_cons.
        split; [intros [Heq|Hin]; [by destruct Hne|done]|by right].
    + by rewrite length_insert.
Qed.
End Alone.

Section AloneStart.
Variable array_sort : list Remote.summary -> asking (list Remote.summary).

(** X20: a call of [setupAndStart] whose requests all succeed and which
    nothing interrupts, taken one response at a time, ends in the state
    [setupAndStart] gives for the call as a whole, and the run has
    returned. *)
Theorem call_alone w sys categoryIds :
  getCategoryIds array_sort (categories_reply w) (random w) = inr categoryIds ->
  (forall catId, catId ∈ categoryIds ->
     exists data, category_reply w catId = Responds 200%Z data) ->
  arrivals w ≡ₚ seq 0 (length categoryIds) ->
  play array_sort (alone w (length (runs sys)) categoryIds) (call_setupAndStart sys)
  = Some (System (setupAndStart array_sort w (page sys)).2 (buttons sys)
                 (runs sys ++ [Returned])).
Proof.
  intros Hids Hok Hperm.
  destruct (await_all_fulfils (category_reply w) categoryIds Hok
              (arrivals w) (replicate (length categoryIds) None)
              (with_shown false true (page sys)))
    as (cats & st2 & Hrun & _ & _).
  { unfold slots_ok. rewrite length_replicate. split; [done|].
    split; [apply slots_fresh_nothing|].
    intros i cat [? _]%lookup_replicate. done. }
  { intros i [_ Hi]%lookup_replicate. by eapply elem_of_arrivals. }
  unfold alone. cbn [play fire]. unfold ids_arrive, call_setupAndStart.
  cbn [page buttons runs].
  rewrite lookup_app_r, Nat.sub_diag by done. cbn [lookup list_lookup].
  rewrite Hids. cbn [mbind option_bind].
  rewrite (alone_categories array_sort (category_reply w) categoryIds Hok).
  - cbn [final showLoadingView modify]. rewrite Hrun.
    unfold setupAndStart. rewrite Hids. unfold promise_all.
    rewrite length_fmap. cbn [final showLoadingView modify]. rewrite Hrun.
    rewrite insert_app_r_alt, Nat.sub_diag by done. reflexivity.
  - rewrite length_app. cbn. lia.
  - rewrite Hperm. apply NoDup_seq.
  - intros i. rewrite Hperm, elem_of_seq. split.
    + intros [_ Hi]%lookup_replicate. lia.
    + intros [_ Hi]. apply lookup_replicate_2. lia.
  - by rewrite length_replicate.
Qed.
End AloneStart.

(** ** Clue objects are never taken back *)

#[local] Instance clues_advance_preorder : PreOrder clues_advance.
Proof.
  split.
  - intros st l c Hc. by exists c.
  - intros st1 st2 st3 H12 H23 l c Hc.
    destruct (H12 l c Hc) as (c2 & Hc2 & ? & ? & ?).
    destruct (H23 l c2 Hc2) as (c3 & Hc3 & ? & ? & ?).
    exists c3. repeat split; [done|congruence|congruence|lia].
Qed.

Lemma clues_advance_heap st st' : heap st' = heap st -> clues_advance st st'.
Proof. intros Hh l c Hc. exists c. by rewrite Hh. Qed.

Lemma clues_advance_grows st st' : grows st st' -> clues_advance st st'.
Proof.
  intros [extra ->] l c Hc. exists c. split; [|done]. by apply lookup_app_l_Some.
Qed.

Lemma handleClick_clues_advance evt : keeps clues_advance (handleClick evt).
Proof.
  intros st.
  destruct (js_get (categories st) (colIndex_of evt)) as [category|] eqn:Hcat.
  2:{ apply clues_advance_heap. by rewrite handleClick_cases, Hcat. }
  destruct (js_get (clues category) (rowIndex_of evt st)) as [ref|] eqn:Href.
  2:{ apply clues_advance_heap. by rewrite handleClick_cases, Hcat, Href. }
  destruct (heap st !! ref) as [clue|] eqn:Hclue.
  2:{ apply clues_advance_heap. by rewrite handleClick_cases, Hcat, Href, Hclue. }
  intros l c Hc. rewrite (handleClick_heap evt st category ref clue Hcat Href Hclue).
  destruct (decide (l = ref)) as [->|Hne].
  - rewrite list_lookup_insert_eq by (by eapply lookup_lt_Some).
    eexists. split; [done|]. assert (c = clue) as -> by congruence.
    cbn. repeat split. destruct (showing clue); cbn; lia.
  - rewrite list_lookup_insert_ne by done. by exists c.
Qed.

Lemma click_clues_advance p : keeps clues_advance (click p).
Proof. apply click_keeps; [apply _|apply handleClick_clues_advance]. Qed.

Lemma press_heap b sys sys' :
  press b sys = Some sys' -> heap (page sys') = heap (page sys).
Proof.
  unfold press. destruct (buttons sys !! b) as [btn|]; [|done]. cbn. intros [= <-].
  revert sys. induction (handlers btn) as [|h hs IH]; intros sys; [done|].
  cbn [foldl]. rewrite IH. by destruct h.
Qed.

Lemma settle_heap n ids slots sys : heap (page (settle n ids slots sys)) = heap (page sys).
Proof.
  unfold settle. destruct (mapM _ slots) as [values|]; [|done].
  cbn [page]. by rewrite try_block_end_run.
Qed.

Section InterleavingClues.
Variable array_sort : list Remote.summary -> asking (list Remote.summary).

Lemma fire_clues_advance a sys sys' :
  fire array_sort a sys = Some sys' -> clues_advance (page sys) (page sys').
Proof.
  destruct a as [b|p|n response random|n i response]; cbn [fire].
  - intros Hpress. by apply clues_advance_heap, (press_heap b).
  - destruct (get_node _ p); [|done]. intros [= <-]. apply click_clues_advance.
  - unfold ids_arrive.
    destruct (runs sys !! n) as [[| | |]|]; try done. intros [= <-].
    destruct (getCategoryIds array_sort response random).
    + by apply clues_advance_heap.
    + apply clues_advance_heap, settle_heap.
  - unfold category_arrives.
    destruct (runs sys !! n) as [[|ids slots|outstanding|]|]; try done.
    + destruct (slots !! i) as [[|]|]; try done.
      destruct (ids !! i) as [catId|]; [|done]. intros [= <-].
      pose proof (getCategory_grows catId response (page sys)) as Hgrow.
      destruct (getCategory catId response (page sys)) as [value st|e st];
        cbn [final] in Hgrow.
      * etransitivity; [by apply clues_advance_grows|].
        apply clues_advance_heap. by rewrite settle_heap.
      * etransitivity; [by apply clues_advance_grows|].
        by apply clues_advance_heap.
    + destruct (outstanding !! i) as [catId|]; [|done]. cbn. intros [= <-].
      apply clues_advance_grows, getCategory_grows.
Qed.

(** X21: whatever happens on the page, a clue object is never removed
    from the store, its question and its answer never change, and it
    is never less revealed than before: a new game gets new objects,
    it does not take the old ones back. *)
Theorem play_clues_advance actions sys sys' l c :
  play array_sort actions sys = Some sys' ->
  heap (page sys) !! l = Some c ->
  exists c',
    heap (page sys') !! l = Some c' /\
    question c' = question c /\ answer c' = answer c /\
    revealed (showing c) <= revealed (showing c').
Proof.
  intros Hplay. revert l c.
  change (clues_advance (page sys) (page sys')).
  revert sys Hplay. induction actions as [|a rest IH]; intros sys; cbn [play].
  - intros [= <-]. reflexivity.
  - destruct (fire array_sort a sys) as [sys1|] eqn:Hfire; [|done]. cbn.
    intros Hplay. etransitivity; [by eapply fire_clues_advance|by apply IH].
Qed.
End InterleavingClues.

(** ** Only a call that returns changes the board *)

Lemma returned_runs_insert rs n r r' :
  rs !! n = Some r ->
  returned_runs (<[n := r']> rs) + (if returned r then 1 else 0)
  = returned_runs rs + (if returned r' then 1 else 0).
Proof.
  unfold returned_runs. revert n. induction rs as [|x rs IH]; intros [|n] Hn; try done.
  - injection Hn as ->. change (<[0 := r']> (r :: rs)) with (r' :: rs).
    rewrite !filter_cons.
    destruct (returned r), (returned r'); repeat case_decide; try done; cbn [length]; lia.
  - change (<[S n := r']> (x :: rs)) with (x :: <[n := r']> rs).
    cbn in Hn. specialize (IH n Hn).
    rewrite !filter_cons. case_decide; cbn [length]; lia.
Qed.

Lemma board_stays_refl st : board_stays st st.
Proof. by repeat split. Qed.

Lemma run_start_handler_stays b h sys :
  board_stays (page sys) (page (run_start_handler b h sys)) /\
  returned_runs (runs (run_start_handler b h sys)) = returned_runs (runs sys).
Proof.
  destruct h; unfold run_start_handler, call_setupAndStart; cbn [page runs];
    (split; [by repeat split|]);
    unfold returned_runs; rewrite filter_app, length_app;
    rewrite filter_cons_False by done; cbn; lia.
Qed.

Lemma press_stays b sys sys' :
  press b sys = Some sys' ->
  board_stays (page sys) (page sys') /\ returned_runs (runs sys') = returned_runs (runs sys).
Proof.
  unfold press. destruct (buttons sys !! b) as [btn|]; [|done]. cbn. intros [= <-].
  revert sys. induction (handlers btn) as [|h hs IH]; intros sys.
  - split; [apply board_stays_refl|done].
  - cbn [foldl]. destruct (IH (run_start_handler b h sys)) as [(Hc & Hl & Hj) Hn].
    destruct (run_start_handler_stays b h sys) as [(Hc' & Hl' & Hj') Hn'].
    split; [|lia]. repeat split; [congruence|auto..].
Qed.

Lemma settle_stays n ids slots sys r :
  runs sys !! n = Some r -> returned r = false ->
  returned_runs (runs (settle n ids slots sys)) = returned_runs (runs sys) ->
  page (settle n ids slots sys) = page sys.
Proof.
  intros Hn Hr. unfold settle. destruct (mapM _ slots) as [values|]; [|done].
  cbn [runs]. pose proof (returned_runs_insert (runs sys) n r Returned Hn) as Hcount.
  rewrite Hr in Hcount. cbn [returned] in Hcount. lia.
Qed.

Section InterleavingReturn.
Variable array_sort : list Remote.summary -> asking (list Remote.summary).

(** X22: whatever happens on the page, unless a call of [setupAndStart]
    goes through the end of its try block in that step, the step leaves
    [categories] as it is, a loading indicator that is displayed
    displayed and a grid that is hidden hidden: no failure, no response
    of a call still under way and no click replaces the board, hides
    the loading indicator or shows the grid. *)
Theorem fire_board_stays a sys sys' :
  fire array_sort a sys = Some sys' ->
  returned_runs (runs sys') = returned_runs (runs sys) ->
  categories (page sys') = categories (page sys) /\
  (loading_shown (page sys) = true -> loading_shown (page sys') = true) /\
  (jeopardy_shown (page sys) = false -> jeopardy_shown (page sys') = false).
Proof.
  destruct a as [b|p|n response random|n i response]; cbn [fire].
  - intros Hpress _. by destruct (press_stays b sys sys' Hpress).
  - destruct (get_node _ p); [|done]. intros [= <-] _. cbn [page].
    destruct (click_same_board p (page sys)) as [Hc _].
    destruct (click_same_notices p (page sys)) as (_ & _ & Hj & Hl & _).
    repeat split; [done|congruence..].
  - unfold ids_arrive.
    destruct (runs sys !! n) as [[| | |]|] eqn:Hn; try done. intros [= <-].
    destruct (getCategoryIds array_sort response random) as [e|ids].
    + intros _. by repeat split.
    + intros Hcount. rewrite (settle_stays n ids _ sys AwaitIds Hn eq_refl Hcount).
      by repeat split.
  - unfold category_arrives.
    destruct (runs sys !! n) as [[|ids slots|outstanding|]|] eqn:Hn; try done.
    + destruct (slots !! i) as [[|]|]; try done.
      destruct (ids !! i) as [catId|]; [|done]. intros [= <-].
      destruct (getCategory_grows catId response (page sys)) as [extra Hgrow].
      destruct (getCategory catId response (page sys)) as [value st|e st];
        cbn [final] in Hgrow; subst st.
      * intros Hcount.
        rewrite (settle_stays n ids _ (System _ (buttons sys) (runs sys))
                   (AwaitCategories ids slots) Hn eq_refl Hcount).
        by repeat split.
      * intros _. by repeat split.
    + destruct (outstanding !! i) as [catId|]; [|done]. cbn. intros [= <-] _.
      destruct (getCategory_grows catId response (page sys)) as [extra ->].
      by repeat split.
Qed.
End InterleavingReturn.

(** * The properties on the sample data *)

(** A restart after the cell of row 0, column 2 was brought to its answer:
    the cell is a placeholder again. *)
Example restart_clears_revealed_cell :
  get_node (jeopardy sample_board_2) [1; 0; 2]
  = Some (Node "td" ["answer"] "History A1" []) /\
  get_node (jeopardy (setupAndStart insertion_sort sample_world sample_board_2).2) [1; 0; 2]
  = Some (Node "td" [] "?" []).
Proof. vm_compute. done. Qed.

(** The scenario of the specification: the first click on a cell shows
    the question, the second the answer, the third changes nothing. *)
Example first_click_shows_question :
  clue_at sample_board 2 0 = Some (Clue "History Q1" "History A1" Null) /\
  clue_at sample_board_1 2 0 = Some (Clue "History Q1" "History A1" ShowingQuestion) /\
  get_node (jeopardy sample_board_1) [1; 0; 2]
  = Some (Node "td" ["question"] "History Q1" []).
Proof. vm_compute. done. Qed.

Example second_click_shows_answer :
  clue_at sample_board_2 2 0 = Some (Clue "History Q1" "History A1" ShowingAnswer) /\
  get_node (jeopardy sample_board_2) [1; 0; 2]
  = Some (Node "td" ["answer"] "History A1" []).
Proof. vm_compute. done. Qed.

Lemma handleClick_reveal_order_witness :
  exists st',
    handleClick (Event [1; 0; 2]) sample_board_2 = Ok tt st' /\
    heap st' !! 15 = Some (Clue "History Q1" "History A1" ShowingAnswer) /\
    (ShowingAnswer = ShowingAnswer -> st' = sample_board_2) /\
    (forall l c, heap sample_board_2 !! l = Some c ->
       exists c', heap st' !! l = Some c' /\
         (showing c' = showing c
          \/ (showing c = Null /\ showing c' = ShowingQuestion)
          \/ (showing c = ShowingQuestion /\ showing c' = ShowingAnswer))).
Proof.
  apply (handleClick_reveal_order (Event [1; 0; 2]) sample_board_2
           (Category "History" [15; 16; 17; 18; 19]) 15
           (Clue "History Q1" "History A1" ShowingAnswer));
    vm_compute; reflexivity.
Defined.

Lemma handleClick_resolves_cell_witness :
  let evt := Event [1; 0; 2] in
  colIndex_of evt = 2%Z /\
  rowIndex_of evt sample_board = 0%Z /\
  exists st',
    handleClick evt sample_board = Ok tt st' /\
    categories st' = categories sample_board /\
    heap st' = <[15 := Clue "History Q1" "History A1" ShowingQuestion]> (heap sample_board).
Proof.
  apply (handleClick_resolves_cell sample_board 1 0 2
           (Category "History" [15; 16; 17; 18; 19]) 15
           (Clue "History Q1" "History A1" Null));
    vm_compute; reflexivity.
Defined.

Lemma handleClick_frame_witness :
  let evt := Event [1; 0; 2] in
  let st' := final (handleClick evt sample_board) in
  categories st' = categories sample_board /\
  (forall c r, Z.of_nat c ≠ colIndex_of evt \/ Z.of_nat r ≠ rowIndex_of evt sample_board ->
     clue_at st' c r = clue_at sample_board c r) /\
  (forall c r old, clue_at sample_board c r = Some old ->
     exists new, clue_at st' c r = Some new /\
       question new = question old /\ answer new = answer old).
Proof.
  apply (handleClick_frame (Event [1; 0; 2]) sample_board).
  apply (bool_decide_unpack _). vm_compute. reflexivity.
Defined.

Lemma handleClick_column_out_of_range_witness :
  js_get (categories page_ready) (colIndex_of (Event [0; 1])) = None /\
  handleClick (Event [0; 1]) page_ready = Throw TypeError page_ready.
Proof.
  apply (handleClick_column_out_of_range (Event [0; 1]) page_ready).
  vm_compute. discriminate.
Defined.

Lemma fillTable_cells_witness :
  let root := jeopardy (final (fillTable sample_board)) in
  length (header_cells root) = NUM_CATEGORIES /\
  text <$> header_cells root = title <$> categories sample_board /\
  length (body_cells root) = NUM_CATEGORIES * NUM_QUESTIONS_PER_CAT /\
  Forall (fun cell => text cell = "?") (body_cells root).
Proof.
  apply (fillTable_cells sample_board).
  apply (bool_decide_unpack _). vm_compute. reflexivity.
Defined.

Lemma getCategoryIds_distinct_witness :
  exists sorted ids,
    sorted = run_sort (v8_sort sample_pool) (fun _ => (1 # 4)%Q) 0 /\
    sorted ≡ₚ sample_pool /\
    getCategoryIds v8_sort (Responds 200%Z sample_pool) (fun _ => (1 # 4)%Q) = inr ids /\
    ids = Remote.id <$> take NUM_CATEGORIES sorted /\
    length ids = NUM_CATEGORIES /\
    NoDup ids /\
    ids ⊆ Remote.id <$> sample_pool.
Proof.
  apply (getCategoryIds_distinct v8_sort sample_pool (fun _ => (1 # 4)%Q)).
  - apply v8_sort_permutes.
  - vm_compute. lia.
  - apply (bool_decide_unpack _). vm_compute. reflexivity.
Defined.

Lemma setupAndStart_identifier_order_witness :
  exists st',
    setupAndStart insertion_sort sample_world page_ready = (Fulfilled tt, st') /\
    Forall2 (fun catId view =>
               exists data, category_reply sample_world catId = Responds 200%Z data /\
                            view = loaded data)
            [5; 9; 2; 7; 1; 3]%Z (board_view st') /\
    Forall2 (fun catId cell =>
               exists data, category_reply sample_world catId = Responds 200%Z data /\
                            text cell = Remote.title data)
            [5; 9; 2; 7; 1; 3]%Z (header_cells (jeopardy st')).
Proof.
  apply (setupAndStart_identifier_order insertion_sort sample_world page_ready
           [5; 9; 2; 7; 1; 3]%Z).
  - vm_compute. reflexivity.
  - intros catId _. eexists. reflexivity.
  - apply (bool_decide_unpack _). vm_compute. reflexivity.
Defined.

Lemma setupAndStart_all_or_nothing_witness :
  exists st',
    setupAndStart insertion_sort one_category_fails sample_board_1 = (Fulfilled tt, st') /\
    alerts st' = alerts sample_board_1 ++ [failure_notice] /\
    categories st' = categories sample_board_1 /\
    (forall c r clue, clue_at sample_board_1 c r = Some clue -> clue_at st' c r = Some clue) /\
    jeopardy st' = jeopardy sample_board_1 /\
    jeopardy_shown st' = false.
Proof.
  apply (setupAndStart_all_or_nothing insertion_sort one_category_fails sample_board_1
           [5; 9; 2; 7; 1; 3]%Z 3 7%Z).
  - vm_compute. reflexivity.
  - apply (bool_decide_unpack _). vm_compute. reflexivity.
  - reflexivity.
  - vm_compute. discriminate.
Defined.

Lemma setupAndStart_failure_notice_witness :
  exists st' e,
    setupAndStart insertion_sort one_category_fails_alone sample_board_1
    = (Fulfilled tt, st') /\
    alerts st' = alerts sample_board_1 ++ [failure_notice] /\
    console st' = console sample_board_1 ++ [e] /\
    loading_shown st' = true /\
    categories st' = categories sample_board_1 /\
    jeopardy st' = jeopardy sample_board_1 /\
    jeopardy_shown st' = false.
Proof.
  apply (setupAndStart_failure_notice insertion_sort one_category_fails_alone sample_board_1).
  exists 3, 7%Z. split; [|split].
  - change (3 ∈ [3]). left.
  - reflexivity.
  - vm_compute. discriminate.
Defined.

(** C6, the claim as stated fails: a game is on the board and a new
    start has its category list answered with status 500.  The notice
    is shown, but the loading indicator is not dismissed, it stays
    displayed; and the board is not left empty: [categories] still
    holds the six categories of the game before and [#jeopardy] its 6
    header cells and 30 clue cells, hidden. *)
Lemma setupAndStart_failure_leaves_board :
  let st' := (setupAndStart insertion_sort list_fails sample_board_1).2 in
  fails (categories_reply list_fails) /\
  alerts st' = alerts sample_board_1 ++ [failure_notice] /\
  loading_shown st' = true /\
  length (categories st') = 6 /\
  length (header_cells (jeopardy st')) = 6 /\
  length (body_cells (jeopardy st')) = 30 /\
  jeopardy_shown st' = false /\
  ~ failure_handled_as_specified sample_board_1 st'.
Proof.
  vm_compute. repeat split; [discriminate|]. intros (_ & Hloading & _). discriminate.
Qed.

(** ** The further properties on the sample data *)

Lemma handleClick_shows_witness :
  exists cell',
    get_node (jeopardy sample_board_1) [1; 0; 2] = Some cell' /\
    tag cell' = "td" /\
    text cell' = "History Q1" /\ children cell' = [] /\
    (forall c, c ∈ classes cell' <-> c ∈ [] \/ c = "question").
Proof.
  apply (handleClick_shows (Event [1; 0; 2]) sample_board
           (Category "History" [15; 16; 17; 18; 19]) 15
           (Clue "History Q1" "History A1" Null) (Node "td" [] "?" []));
    vm_compute; reflexivity.
Defined.

Lemma fillTable_short_category_witness :
  let st' := final (fillTable short_board) in
  get_node (jeopardy st') [1; 3; 1] = Some (Node "td" [] "?" []) /\
  handleClick (Event [1; 3; 1]) st' = Throw TypeError st'.
Proof.
  apply (fillTable_short_category short_board 3 1 (Category "Music" [5; 6])).
  - reflexivity.
  - simpl. lia.
  - unfold NUM_QUESTIONS_PER_CAT. lia.
Defined.

Lemma getCategoryIds_short_pool_witness :
  exists ids,
    getCategoryIds insertion_sort (Responds 200%Z small_pool) (fun _ => (1 # 4)%Q) = inr ids /\
    ids ≡ₚ Remote.id <$> small_pool.
Proof.
  apply (getCategoryIds_short_pool insertion_sort small_pool (fun _ => (1 # 4)%Q)).
  - apply insertion_sort_permutes.
  - vm_compute. lia.
Defined.

Lemma setupAndStart_success_view_witness :
  let st' := (setupAndStart insertion_sort sample_world page_ready).2 in
  jeopardy_shown st' = true /\
  loading_shown st' = false /\
  alerts st' = alerts page_ready /\
  console st' = console page_ready /\
  length (categories st') = length [5; 9; 2; 7; 1; 3]%Z /\
  (forall c r clue, clue_at st' c r = Some clue -> showing clue = Null) /\
  (forall l clue, heap page_ready !! l = Some clue -> heap st' !! l = Some clue).
Proof.
  apply (setupAndStart_success_view insertion_sort sample_world page_ready
           [5; 9; 2; 7; 1; 3]%Z).
  - vm_compute. reflexivity.
  - intros catId _. eexists. reflexivity.
  - apply (bool_decide_unpack _). vm_compute. reflexivity.
Defined.

Lemma setupAndStart_list_failure_witness :
  setupAndStart insertion_sort list_fails page_ready
  = (Fulfilled tt,
     with_alerts (alerts page_ready ++ [failure_notice])
       (with_console (console page_ready
                        ++ [getCategoryIds_error (categories_reply list_fails)])
          (with_shown false true page_ready))).
Proof.
  apply (setupAndStart_list_failure insertion_sort list_fails page_ready).
  vm_compute. discriminate.
Defined.

Lemma setupAndStart_logs_first_failure_witness :
  console (setupAndStart insertion_sort two_categories_fail page_ready).2
  = console page_ready ++ [getCategory_error 1 (category_reply two_categories_fail 1)].
Proof.
  apply (setupAndStart_logs_first_failure insertion_sort two_categories_fail page_ready
           [5; 9; 2; 7; 1; 3]%Z [2; 0] 4 [3; 1; 5] 1%Z).
  - vm_compute. reflexivity.
  - reflexivity.
  - intros j catId' Hj Hid.
    apply elem_of_cons in Hj as [->|Hj]; [|apply list_elem_of_singleton in Hj as ->];
      injection Hid as <-; eexists; reflexivity.
  - reflexivity.
  - exact I.
Defined.

Lemma setupAndStart_waits_forever_witness :
  exists st',
    setupAndStart insertion_sort one_category_hangs page_ready = (Pending, st') /\
    loading_shown st' = true /\
    jeopardy_shown st' = false /\
    alerts st' = alerts page_ready /\
    categories st' = categories page_ready /\
    jeopardy st' = jeopardy page_ready.
Proof.
  apply (setupAndStart_waits_forever insertion_sort one_category_hangs page_ready
           [5; 9; 2; 7; 1; 3]%Z 2).
  - vm_compute. reflexivity.
  - intros catId _. eexists. reflexivity.
  - simpl. lia.
  - apply (bool_decide_unpack _). vm_compute. reflexivity.
Defined.

Lemma setupAndStart_empty_pool_witness :
  exists st',
    setupAndStart insertion_sort empty_pool page_ready = (Fulfilled tt, st') /\
    categories st' = [] /\
    header_cells (jeopardy st') = [] /\
    body_cells (jeopardy st') = [] /\
    jeopardy_shown st' = true /\
    loading_shown st' = false /\
    alerts st' = alerts page_ready.
Proof.
  apply (setupAndStart_empty_pool insertion_sort empty_pool page_ready).
  - reflexivity.
  - apply insertion_sort_permutes.
Defined.

Lemma setupAndStart_binds_no_cell_witness :
  ([] : path) ∈ clue_handlers question_page \/
  (([] : path) = [] /\ "question" ∈ classes (jeopardy question_page)).
Proof.
  apply (setupAndStart_binds_no_cell insertion_sort sample_world question_page []).
  apply (bool_decide_unpack _). vm_compute. reflexivity.
Defined.

Lemma press_calls_setupAndStart_twice_witness :
  exists sys' calls,
    fire insertion_sort (Press 0) sample_game = Some sys' /\
    2 <= calls /\
    runs sys' = runs sample_game ++ replicate calls AwaitIds /\
    jeopardy_shown (page sys') = false /\
    loading_shown (page sys') = true /\
    label <$> buttons sys' !! 0 = Some "Restart".
Proof.
  apply (press_calls_setupAndStart_twice insertion_sort sample_html sample_game).
  exists sample_actions. vm_compute. reflexivity.
Defined.

Lemma playing_board_wf_witness : board_wf (page sample_game).
Proof.
  apply (playing_board_wf insertion_sort sample_html sample_game).
  exists sample_actions. vm_compute. reflexivity.
Defined.

Lemma playing_shows_board_witness :
  get_node (jeopardy (page sample_game)) [0; 0; 2] = Some (Node "th" [] "History" []) /\
  get_node (jeopardy (page sample_game)) [1; 0; 2]
  = Some (cell_of (clue_at (page sample_game) 2 0)).
Proof.
  apply (playing_shows_board insertion_sort sample_html sample_game 2 0
           (Category "History" [15; 16; 17; 18; 19])).
  - apply (bool_decide_unpack _). vm_compute. reflexivity.
  - exists sample_actions. vm_compute. reflexivity.
  - vm_compute. reflexivity.
  - unfold NUM_QUESTIONS_PER_CAT. lia.
Defined.

Lemma playing_click_handled_once_witness :
  page sample_game_clicked = final (handleClick (Event [1; 0; 2]) (page sample_game)).
Proof.
  apply (playing_click_handled_once insertion_sort sample_html sample_game [1; 0; 2]
           sample_game_clicked).
  - apply (bool_decide_unpack _). vm_compute. reflexivity.
  - exists sample_actions. vm_compute. reflexivity.
  - vm_compute. reflexivity.
Defined.

Lemma playing_notices_witness :
  alerts (page sample_game) = replicate (caught_runs (runs sample_game)) failure_notice /\
  length (console (page sample_game)) = caught_runs (runs sample_game).
Proof.
  apply (playing_notices insertion_sort sample_html sample_game).
  exists sample_actions. vm_compute. reflexivity.
Defined.

Lemma call_alone_witness :
  play insertion_sort (alone sample_world 0 [5; 9; 2; 7; 1; 3]%Z)
       (call_setupAndStart (initial (boot sample_html)))
  = Some (System (setupAndStart insertion_sort sample_world
                    (page (initial (boot sample_html)))).2
                 (buttons (initial (boot sample_html)))
                 (runs (initial (boot sample_html)) ++ [Returned])).
Proof.
  apply (call_alone insertion_sort sample_world (initial (boot sample_html))
           [5; 9; 2; 7; 1; 3]%Z).
  - vm_compute. reflexivity.
  - intros catId _. eexists. reflexivity.
  - apply (bool_decide_unpack _). vm_compute. reflexivity.
Defined.

Lemma play_clues_advance_witness :
  exists c',
    heap (page sample_game_clicked) !! 15 = Some c' /\
    question c' = "History Q1" /\ answer c' = "History A1" /\
    revealed ShowingQuestion <= revealed (showing c').
Proof.
  apply (play_clues_advance insertion_sort [Click [1; 0; 2]] sample_game sample_game_clicked
           15 (Clue "History Q1" "History A1" ShowingQuestion));
    vm_compute; reflexivity.
Defined.

Lemma fire_board_stays_witness :
  categories (page sample_start_failed) = categories (page sample_start) /\
  (loading_shown (page sample_start) = true -> loading_shown (page sample_start_failed) = true) /\
  (jeopardy_shown (page sample_start) = false ->
   jeopardy_shown (page sample_start_failed) = false).
Proof.
  apply (fire_board_stays insertion_sort
           (IdsArrive 1 (Responds 500%Z []) (fun _ => (1 # 4)%Q))
           sample_start sample_start_failed);
    vm_compute; reflexivity.
Defined.

(** The sample game: one board is loaded and one call has failed while
    two calls still wait; the clicked cell shows its question, and its
    answer after one more click. *)
Example sample_game_view :
  categories (page sample_game) !! 2 = Some (Category "History" [15; 16; 17; 18; 19]) /\
  get_node (jeopardy (page sample_game)) [1; 0; 2]
  = Some (Node "td" ["question"] "History Q1" []) /\
  get_node (jeopardy (page sample_game_clicked)) [1; 0; 2]
  = Some (Node "td" ["answer"] "History A1" []) /\
  alerts (page sample_game) = [failure_notice] /\
  runs sample_game = [Returned; Caught []; AwaitIds; AwaitIds] /\
  jeopardy_shown (page sample_game) = true.
Proof. vm_compute. done. Qed.
